(** * A shallow embedding of the RAG backend (ingestion, prompt construction,
      answer checks, LLM gateway client) and the properties proved of it.

    Text is modelled as [list ascii]: the 256 values of [ascii] stand for the
    Unicode code points 0..255 (Latin-1), and the character classes below are
    Python's on that range.  Python integers are [Z]; lengths are [nat] and
    are injected into [Z] wherever the source compares them with an [int]
    argument.  Code that can raise returns an [outcome]. *)

From Stdlib Require Import ZArith List Ascii String QArith Lia Bool.
From Stdlib Require Import DecimalString.
From stdpp Require Import base gmap sets list strings.

Close Scope Q_scope.
Open Scope Z_scope.

(* ===================================================================== *)
(** * Part I: the embedding                                               *)
(* ===================================================================== *)

(** ** Python values shared by all modules *)

Module Py.

Definition str := list ascii.

(** String literals of the source, as [str]. *)
Definition lit (s : string) : str := list_ascii_of_string s.

Definition nl : ascii := ascii_of_nat 10.
Definition dquote : ascii := ascii_of_nat 34.

(** [len(s)] as a Python [int]. *)
Definition len {A} (l : list A) : Z := Z.of_nat (length l).

(** Exceptions raised by the modelled code (all are subclasses of
    [Exception]). *)
Inductive exn :=
| ValueError (msg : string)
| IndexError
| Exception (msg : string)
| OtherException (tag : nat).

Inductive outcome (A : Type) :=
| Return (a : A)
| Raise (e : exn).
Arguments Return {A} a.
Arguments Raise {A} e.

(** Sequencing: an exception of the first computation propagates.  With
    these instances stdpp's [x ← m; k] is the statement sequence of the
    source. *)
#[global] Instance outcome_bind : MBind outcome := fun A B k m =>
  match m with
  | Return a => k a
  | Raise e => Raise e
  end.
#[global] Instance outcome_ret : MRet outcome := @Return.
#[global] Instance outcome_fmap : FMap outcome := fun A B f m =>
  match m with
  | Return a => Return (f a)
  | Raise e => Raise e
  end.

Definition code (c : ascii) : nat := nat_of_ascii c.

(** [str.isspace] on one character. *)
Definition isspace (c : ascii) : bool :=
  let n := code c in
  ((9 <=? n) && (n <=? 13) || (28 <=? n) && (n <=? 32)
   || (n =? 133) || (n =? 160))%nat.

(** The class [\w] of [re] on [str] patterns: alphanumerics and [_]. *)
Definition isword (c : ascii) : bool :=
  let n := code c in
  ((48 <=? n) && (n <=? 57) || (65 <=? n) && (n <=? 90) || (n =? 95)
   || (97 <=? n) && (n <=? 122)
   || (n =? 170) || (n =? 178) || (n =? 179) || (n =? 181) || (n =? 185)
   || (n =? 186) || (188 <=? n) && (n <=? 190)
   || (192 <=? n) && (n <=? 214) || (216 <=? n) && (n <=? 246)
   || (248 <=? n))%nat.

(** [str.lower] on one character. *)
Definition lower_char (c : ascii) : ascii :=
  let n := code c in
  if ((65 <=? n) && (n <=? 90)
      || (192 <=? n) && (n <=? 222) && negb (n =? 215))%nat
  then ascii_of_nat (n + 32) else c.

Definition lower (s : str) : str := map lower_char s.

Fixpoint lstrip (s : str) : str :=
  match s with
  | [] => []
  | c :: s' => if isspace c then lstrip s' else s
  end.
Definition rstrip (s : str) : str := reverse (lstrip (reverse s)).
(** [s.strip()] *)
Definition strip (s : str) : str := rstrip (lstrip s).

(** Truthiness of a string: [bool(s)]. *)
Definition nonempty {A} (l : list A) : bool :=
  match l with [] => false | _ :: _ => true end.

(** [s.split()]: the maximal runs of non-whitespace characters.  [word]
    holds the current run, reversed. *)
Fixpoint split_ws_from (s : str) (word : str) : list str :=
  match s with
  | [] => if nonempty word then [reverse word] else []
  | c :: s' =>
      if isspace c
      then (if nonempty word then [reverse word] else []) ++ split_ws_from s' []
      else split_ws_from s' (c :: word)
  end.
Definition split (s : str) : list str := split_ws_from s [].

(** [s.startswith(p)] *)
Fixpoint startswith (p s : str) : bool :=
  match p, s with
  | [], _ => true
  | _ :: _, [] => false
  | a :: p', b :: s' => Ascii.eqb a b && startswith p' s'
  end.

(** [p in s] *)
Fixpoint contains (p s : str) : bool :=
  startswith p s ||
  match s with
  | [] => false
  | _ :: s' => contains p s'
  end.

(** [sep.join(parts)] *)
Fixpoint join (sep : str) (parts : list str) : str :=
  match parts with
  | [] => []
  | [p] => p
  | p :: rest => p ++ sep ++ join sep rest
  end.

(** [s[:n]] for an [int] [n]: a negative bound counts from the end. *)
Definition slice_to {A} (s : list A) (n : Z) : list A :=
  if 0 <=? n then take (Z.to_nat n) s
  else take (Z.to_nat (len s + n)) s.

(** [s[i:j]] for non-negative bounds. *)
Definition slice {A} (s : list A) (i j : Z) : list A :=
  take (Z.to_nat (j - i)) (drop (Z.to_nat i) s).

(** Index of the last [c] in [s] at or after position [i], if any. *)
Fixpoint rfind_from (c : ascii) (s : str) (i : Z) : option Z :=
  match s with
  | [] => None
  | a :: s' =>
      match rfind_from c s' (i + 1) with
      | Some j => Some j
      | None => if Ascii.eqb a c then Some i else None
      end
  end.
(** [s.rfind(c)] for a one-character [c]: -1 when absent. *)
Definition rfind (s : str) (c : ascii) : Z :=
  match rfind_from c s 0 with Some j => j | None => -1 end.

(** [s.rsplit(c, 1)[0]]: the part before the last [c], all of [s] when
    there is none. *)
Definition rsplit1_head (s : str) (c : ascii) : str :=
  match rfind_from c s 0 with
  | Some j => take (Z.to_nat j) s
  | None => s
  end.

(** [range(0, stop, step)]; a zero step raises. *)
Definition range_step (stop step : Z) : outcome (list Z) :=
  if step =? 0 then Raise (ValueError "range() arg 3 must not be zero")
  else
    let count := if 0 <? step then (stop + step - 1) / step
                 else (- stop - step - 1) / (- step) in
    Return (map (fun k => Z.of_nat k * step) (seq 0 (Z.to_nat count))).

(** [for x in xs: body], the loop state threaded through the iterations;
    an exception of the body ends the loop. *)
Fixpoint for_loop {S A} (body : S -> A -> outcome S) (xs : list A) (s : S)
    : outcome S :=
  match xs with
  | [] => Return s
  | x :: xs' => s' ← body s x; for_loop body xs' s'
  end.

(** [enumerate(xs)] *)
Definition enumerate {A} (xs : list A) : list (nat * A) := imap pair xs.

(** [str(n)] for an [int]. *)
Definition str_of_int (n : Z) : str :=
  lit (NilEmpty.string_of_int (Z.to_int n)).

(** [range(n)] *)
Definition range_n (n : Z) : list Z := map Z.of_nat (seq 0 (Z.to_nat n)).

(** [s.split(c)] for a one-character separator: the pieces between the
    separators, empty pieces included.  [piece] is the current piece,
    reversed. *)
Fixpoint split_on_from (c : ascii) (s : str) (piece : str) : list str :=
  match s with
  | [] => [reverse piece]
  | a :: s' =>
      if Ascii.eqb a c then reverse piece :: split_on_from c s' []
      else split_on_from c s' (a :: piece)
  end.
Definition split_on (s : str) (c : ascii) : list str := split_on_from c s [].

End Py.

Import Py.

(** ** ingestion/text_processor.py *)

Module TextProcessor.

Record ContentChunk := mkContentChunk {
  id : str;
  text : str;
  source_url : str;
  position : Z;
  char_count : Z
}.

(** The characters of the class [[.!?]]. *)
Definition is_terminator (c : ascii) : bool :=
  (code c =? 46)%nat || (code c =? 33)%nat || (code c =? 63)%nat.

(** [re.split(r'[.!?]+', s)]: the pieces between the maximal runs of
    terminators, empty pieces included.  [piece] is the current piece,
    reversed; [in_run] tells whether the previous character was a
    terminator. *)
Fixpoint re_split_from (s : str) (piece : str) (in_run : bool) : list str :=
  match s with
  | [] => [reverse piece]
  | c :: s' =>
      if is_terminator c
      then if in_run then re_split_from s' piece true
           else reverse piece :: re_split_from s' [] true
      else re_split_from s' (c :: piece) false
  end.
Definition re_split (s : str) : list str := re_split_from s [] false.

(** [re.findall(r'[.!?]+', s)]: the maximal runs of terminators. *)
Fixpoint re_findall_from (s : str) (run : str) : list str :=
  match s with
  | [] => if nonempty run then [reverse run] else []
  | c :: s' =>
      if is_terminator c then re_findall_from s' (c :: run)
      else (if nonempty run then [reverse run] else [])
             ++ re_findall_from s' []
  end.
Definition re_findall (s : str) : list str := re_findall_from s [].

(** One iteration of the loop over [words] in [_split_long_sentence]; the
    state is [(chunks, current_chunk)]. *)
Definition split_long_sentence_step (max_chunk_size : Z)
    (st : list str * str) (word : str) : outcome (list str * str) :=
  let '(chunks, current_chunk) := st in
  if len current_chunk + len word + 1 <=? max_chunk_size then
    if nonempty current_chunk
    then Return (chunks, current_chunk ++ lit " " ++ word)
    else Return (chunks, word)
  else
    if nonempty current_chunk
    then Return (chunks ++ [current_chunk], word)
    else
      if max_chunk_size <? len word then
        starts ← range_step (len word) max_chunk_size;
        Return (chunks
                  ++ map (fun i => slice word i (i + max_chunk_size)) starts,
                current_chunk)
      else Return (chunks, word).

Definition _split_long_sentence (sentence : str) (max_chunk_size : Z)
    : outcome (list str) :=
  if len sentence <=? max_chunk_size then Return [sentence]
  else
    let words := split sentence in
    st ← for_loop (split_long_sentence_step max_chunk_size) words ([], []);
    let '(chunks, current_chunk) := st in
    Return (if nonempty current_chunk then chunks ++ [current_chunk]
            else chunks).

Section WithHash.

(** Python's builtin [hash] on strings. *)
Variable hash : str -> Z.

(** [f"{abs(hash(source_url + f'_{position}'))}"] *)
Definition chunk_id (source_url : str) (position : Z) : str :=
  str_of_int (Z.abs (hash (source_url ++ lit "_" ++ str_of_int position))).

(** The loop state of [chunk_text]. *)
Record ChunkLoop := mkChunkLoop {
  chunks : list ContentChunk;
  cur_position : Z;
  current_chunk : str
}.

(** [chunks.append(ContentChunk(...)); position += 1] *)
Definition emit (source_url : str) (body : str) (count : Z)
    (st : ChunkLoop) : ChunkLoop :=
  mkChunkLoop
    (chunks st ++ [mkContentChunk (chunk_id source_url (cur_position st))
                     body source_url (cur_position st) count])
    (cur_position st + 1)
    (current_chunk st).

Definition set_current (c : str) (st : ChunkLoop) : ChunkLoop :=
  mkChunkLoop (chunks st) (cur_position st) c.

(** One iteration of [for i, sentence in enumerate(sentences)]. *)
Definition chunk_text_step (text source_url : str) (max_chunk_size : Z)
    (sentences : list str) (st : ChunkLoop) (it : nat * str)
    : outcome ChunkLoop :=
  let '(i, sentence) := it in
  let sentence := strip sentence in
  if negb (nonempty sentence) then Return st
  else
    let original_endings := re_findall text in
    let ending :=
      if (i <? length original_endings)%nat
      then nth (Nat.min i (length original_endings - 1)) original_endings []
      else lit "." in
    let sentence_with_ending :=
      if (Z.of_nat i <? len sentences - 1)
         || bool_decide (ending <> lit ".")
      then sentence ++ ending else sentence in
    if len (current_chunk st) + len sentence_with_ending
       + (if nonempty (current_chunk st) then 1 else 0) <=? max_chunk_size
    then
      if nonempty (current_chunk st)
      then Return (set_current
                     (current_chunk st ++ lit " " ++ sentence_with_ending) st)
      else Return (set_current sentence_with_ending st)
    else
      if nonempty (current_chunk st)
      then Return (set_current sentence_with_ending
                     (emit source_url (strip (current_chunk st))
                        (len (current_chunk st)) st))
      else
        if max_chunk_size <? len sentence_with_ending then
          subs ← _split_long_sentence sentence_with_ending max_chunk_size;
          Return (fold_left
                    (fun st sub_chunk =>
                       emit source_url sub_chunk (len sub_chunk) st)
                    subs st)
        else Return (set_current sentence_with_ending st).

Definition chunk_text (text source_url : str) (max_chunk_size : Z)
    : outcome (list ContentChunk) :=
  if len text <=? max_chunk_size
  then Return [mkContentChunk (chunk_id source_url 0) text source_url 0
                 (len text)]
  else
    let sentences := re_split text in
    st ← for_loop (chunk_text_step text source_url max_chunk_size sentences)
           (enumerate sentences) (mkChunkLoop [] 0 []);
    Return (chunks
              (if nonempty (current_chunk st)
               then emit source_url (strip (current_chunk st))
                      (len (current_chunk st)) st
               else st)).

(** The numbering of the chunks of one page: the chunk at index [i] has
    position [i], the URL of the page, the id derived from both, and the
    number of characters of its text as [char_count]. *)
Definition numbered (page_url : str) (cs : list ContentChunk) : Prop :=
  forall (i : nat) (c : ContentChunk), cs !! i = Some c ->
    position c = Z.of_nat i
    /\ source_url c = page_url
    /\ id c = chunk_id page_url (Z.of_nat i)
    /\ char_count c = len (text c).

(** The loop state between two iterations of [chunk_text]: the chunks so
    far are numbered, [position] is their number, and the buffer has no
    whitespace at either end. *)
Definition chunk_loop_ok (page_url : str) (st : ChunkLoop) : Prop :=
  numbered page_url (chunks st)
  /\ cur_position st = len (chunks st)
  /\ strip (current_chunk st) = current_chunk st.

End WithHash.

(** The bound claimed of [chunk_text]: it returns, and every chunk has
    [char_count <= max_chunk_size]. *)
Definition within_limit (max_chunk_size : Z)
    (r : outcome (list ContentChunk)) : bool :=
  match r with
  | Return cs => forallb (fun c => char_count c <=? max_chunk_size) cs
  | Raise _ => false
  end.

(** *** Fetching and validating a page *)

(** What one [session.get] followed by [raise_for_status] does. *)
Inductive GetResult :=
| Page (html : str)        (** a response without HTTP error, and its text *)
| RequestFailed            (** a [requests.RequestException] *)
| GetCrashed (e : exn).    (** any other exception *)

(** The web as [fetch_html] sees it: the seconds spent in [time.sleep] and
    the number of GETs made. *)
Record Web := mkWeb {
  slept : Z;
  gets : nat
}.

(** The loop [for attempt in range(max_retries)] of [fetch_html] and the
    implicit [return None] after it. *)
Fixpoint fetch_loop (server : nat -> str -> GetResult) (url : str)
    (max_retries : Z) (attempts : list Z) (w : Web)
    : outcome (option str) * Web :=
  match attempts with
  | [] => (Return None, w)
  | attempt :: rest =>
      let r := server (gets w) url in
      let w := mkWeb (slept w) (Datatypes.S (gets w)) in
      match r with
      | Page html => (Return (Some html), w)
      | RequestFailed =>
          if attempt <? max_retries - 1
          then fetch_loop server url max_retries rest
                 (mkWeb (slept w + 2 ^ attempt) (gets w))
          else (Return None, w)
      | GetCrashed e => (Raise e, w)
      end
  end.

Definition fetch_html (server : nat -> str -> GetResult) (url : str)
    (max_retries : Z) (w : Web) : outcome (option str) * Web :=
  fetch_loop server url max_retries (range_n max_retries) w.

(** The dictionary returned by [extract_content]. *)
Record ContentData := mkContentData {
  cd_title : str;
  cd_content : str;
  cd_word_count : Z;
  cd_url : str
}.

Definition validate_content (content_data : ContentData) : bool :=
  let content := cd_content content_data in
  let word_count := cd_word_count content_data in
  if negb (nonempty content) || (len (strip content) =? 0) then false
  else if word_count <? 10 then false
  else true.

Section WithParser.

(** Python's builtin [hash], and [extract_content], which parses the page
    with BeautifulSoup. *)
Variable hash : str -> Z.
Variable extract_content : str -> str -> ContentData.

Definition process_url (server : nat -> str -> GetResult) (url : str)
    (w : Web) : outcome (option ContentData) * Web :=
  match fetch_html server url 3 w with
  | (Raise e, w) => (Raise e, w)
  | (Return None, w) => (Return None, w)
  | (Return (Some html), w) =>
      if negb (nonempty html) then (Return None, w)
      else
        let content_data := extract_content html url in
        if negb (validate_content content_data) then (Return None, w)
        else (Return (Some content_data), w)
  end.

Definition extract_and_chunk_url (server : nat -> str -> GetResult)
    (url : str) (max_chunk_size : Z) (w : Web)
    : outcome (option (list ContentChunk)) * Web :=
  match process_url server url w with
  | (Raise e, w) => (Raise e, w)
  | (Return None, w) => (Return None, w)
  | (Return (Some content_data), w) =>
      match chunk_text hash (cd_content content_data) url max_chunk_size with
      | Return chunks => (Return (Some chunks), w)
      | Raise e => (Raise e, w)
      end
  end.

End WithParser.

End TextProcessor.

(** ** answer_generation/prompt_constructor.py *)

Module PromptConstructor.

Definition refusal_sentence : str :=
  [dquote]
    ++ lit "I cannot answer this question based on the provided context."
    ++ [dquote].

(** The instruction paragraph shared by the grounded templates. *)
Definition grounding_instructions : str :=
  lit "Instructions: Answer the question using ONLY the provided context. Do not use any prior knowledge or information not present in the context. If the context does not contain sufficient information to answer the question, respond with "
    ++ refusal_sentence
    ++ lit " Ensure your answer is directly supported by the information in the context section above.".

Definition no_context_instructions : str :=
  lit "Instructions: The context needed to answer this question is not available. Respond with "
    ++ refusal_sentence
    ++ lit " Do not attempt to answer using any prior knowledge.".

Definition _create_prompt_without_context (query : str) : str :=
  lit "Question: " ++ query ++ [nl; nl] ++ no_context_instructions.

(** The template [Context: ... Question: ... Instructions: ...] both
    constructors end with. *)
Definition grounded_prompt (context_text query : str) : str :=
  lit "Context:" ++ [nl] ++ context_text ++ [nl; nl]
    ++ lit "Question: " ++ query ++ [nl; nl] ++ grounding_instructions.

(** [not query or len(query.strip()) == 0] *)
Definition blank_query (query : str) : bool :=
  negb (nonempty query) || (len (strip query) =? 0).

(** [chunk and chunk.strip()] *)
Definition nonblank (chunk : str) : bool :=
  nonempty chunk && nonempty (strip chunk).

(** Truthiness of an [Optional[int]]. *)
Definition truthy (n : option Z) : bool :=
  match n with
  | Some n => negb (n =? 0)
  | None => false
  end.

(** The block guarded by [if max_context_length and len(context_text) >
    max_context_length]. *)
Definition truncate_context (context_text : str)
    (max_context_length : option Z) : str :=
  match max_context_length with
  | Some m =>
      if truthy max_context_length && (m <? len context_text) then
        let context_text := slice_to context_text m in
        if m <? len context_text then
          let last_space := rfind context_text " " in
          if 0 <? last_space then slice_to context_text last_space
          else context_text
        else context_text
      else context_text
  | None => context_text
  end.

Definition construct_prompt (query : str) (context_chunks : list str)
    (max_context_length : option Z) : outcome str :=
  if blank_query query then Raise (ValueError "Query cannot be empty")
  else if negb (nonempty context_chunks)
  then Return (_create_prompt_without_context query)
  else
    let filtered_context := List.filter nonblank context_chunks in
    if negb (nonempty filtered_context)
    then Return (_create_prompt_without_context query)
    else
      let context_text := join [nl] filtered_context in
      let context_text := truncate_context context_text max_context_length in
      Return (grounded_prompt context_text query).

Definition base_prompt (query : str) : str :=
  lit "Question: " ++ query ++ [nl; nl] ++ grounding_instructions
    ++ [nl; nl] ++ lit "Context:" ++ [nl].

(** The loop [for chunk in context_chunks] of
    [construct_prompt_with_length_management], with its [continue] and
    [break]; the result is [selected_context] when the loop ends. *)
Fixpoint select_context (remaining_length : Z) (context_chunks : list str)
    (selected_context : list str) (current_length : Z) : list str :=
  match context_chunks with
  | [] => selected_context
  | chunk :: rest =>
      if negb (nonempty chunk) || negb (nonempty (strip chunk))
      then select_context remaining_length rest selected_context
             current_length
      else
        let chunk_length := len chunk + 1 in
        if current_length + chunk_length <=? remaining_length
        then select_context remaining_length rest
               (selected_context ++ [chunk]) (current_length + chunk_length)
        else
          let remaining_space := remaining_length - current_length in
          if 100 <? remaining_space
          then
            let truncated_chunk :=
              rsplit1_head (slice_to chunk remaining_space) " " in
            selected_context ++ [truncated_chunk]
          else select_context remaining_length rest selected_context
                 current_length
  end.

Definition construct_prompt_with_length_management (query : str)
    (context_chunks : list str) (max_total_length : Z) : outcome str :=
  if blank_query query then Raise (ValueError "Query cannot be empty")
  else if negb (nonempty context_chunks)
  then Return (_create_prompt_without_context query)
  else
    let remaining_length := max_total_length - len (base_prompt query) - 500 in
    if remaining_length <=? 0
    then Return (_create_prompt_without_context query)
    else
      let selected_context :=
        select_context remaining_length context_chunks [] 0 in
      if negb (nonempty selected_context)
      then Return (_create_prompt_without_context query)
      else Return (grounded_prompt (join [nl] selected_context) query).

(** The budget taken by the whole chunks of [chunks]: [len(chunk) + 1] for
    every chunk the loop does not skip as blank. *)
Definition context_cost (chunks : list str) : Z :=
  fold_right (fun chunk n => if nonblank chunk then len chunk + 1 + n else n)
    0 chunks.

Definition validate_prompt_format (prompt : str) : bool :=
  if negb (nonempty prompt) || (len (strip prompt) =? 0) then false
  else
    let has_context := contains (lit "Context:") prompt in
    let has_question := contains (lit "Question:") prompt in
    let has_instructions := contains (lit "Instructions:") prompt in
    has_context && has_question && has_instructions.



End PromptConstructor.

(** ** answer_generation/utils.py *)

Module Utils.

(** The maximal runs of [\w] characters of [s]; [run] is the current
    run, reversed. *)
Fixpoint word_runs_from (s : str) (run : str) : list str :=
  match s with
  | [] => if nonempty run then [reverse run] else []
  | c :: s' =>
      if isword c then word_runs_from s' (c :: run)
      else (if nonempty run then [reverse run] else [])
             ++ word_runs_from s' []
  end.

(** [re.findall(r'\b\w{4,}\b', s)]: between two word boundaries the
    greedy [\w{4,}] can only match a whole maximal run, so the matches
    are the runs of four characters or more. *)
Definition re_findall_words (s : str) : list str :=
  List.filter (fun w => (4 <=? length w)%nat) (word_runs_from s []).

Definition insufficient_context_phrases : list str :=
  [ lit "i cannot answer";
    lit "no context provided";
    lit "not enough information";
    lit "based on my general knowledge";
    lit "i don't have access to";
    lit "i don't know" ].

(** [set(re.findall(...))] *)
Definition word_set (s : str) : gset str := list_to_set (re_findall_words s).

(** [len(common_words) / len(answer_words) if answer_words else 0], as an
    exact rational.  The source divides in double precision and compares
    with the double nearest to 0.3; the two comparisons agree for every
    answer with fewer than 10^15 distinct words. *)
Definition overlap_ratio (answer_words context_words : gset str) : Q :=
  if (0 <? size answer_words)%nat
  then Qmake (Z.of_nat (size (answer_words ∩ context_words)))
             (Pos.of_nat (size answer_words))
  else 0%Q.

Definition Qltb (p q : Q) : bool :=
  match Qcompare p q with Lt => true | _ => false end.

(** The words of the lower-cased answer, and of the lower-cased chunks
    joined by spaces. *)
Definition answer_words_of (answer : str) : gset str :=
  word_set (lower answer).
Definition context_words_of (context_chunks : list str) : gset str :=
  word_set (lower (join (lit " ") context_chunks)).

(** The lower-cased answer contains one of the abstention phrases. *)
Definition abstains (answer : str) : bool :=
  existsb (fun phrase => contains phrase (lower answer))
    insufficient_context_phrases.

Definition detect_hallucination (answer : str) (context_chunks : list str)
    : bool :=
  if negb (nonempty answer) || negb (nonempty context_chunks) then false
  else
    let full_context := lower (join (lit " ") context_chunks) in
    let answer_lower := lower answer in
    if existsb (fun phrase => contains phrase answer_lower)
         insufficient_context_phrases
    then false
    else
      let answer_words := word_set answer_lower in
      let context_words := word_set full_context in
      if bool_decide (answer_words = ∅) then false
      else
        if Qltb (overlap_ratio answer_words context_words) (3 # 10)
        then true else false.

(** The class [[a-zA-Z0-9]]. *)
Definition isalnum_ascii (c : ascii) : bool :=
  let n := code c in
  ((48 <=? n) && (n <=? 57) || (65 <=? n) && (n <=? 90)
   || (97 <=? n) && (n <=? 122))%nat.

(** [len(re.findall(r'[a-zA-Z0-9]', s))] *)
Definition count_alnum (s : str) : Z := len (List.filter isalnum_ascii s).

Definition validate_query_format (query : str) : bool :=
  if negb (nonempty query) || (len (strip query) =? 0) then false
  else if 1000 <? len query then false
  else if count_alnum query <? 3 then false
  else true.

(** The loop of [validate_context_chunks_format], with its [continue] and
    its [return False]. *)
Fixpoint context_chunks_format_loop (context_chunks : list str) : bool :=
  match context_chunks with
  | [] => true
  | chunk :: rest =>
      if negb (nonempty chunk) || (len (strip chunk) =? 0)
      then context_chunks_format_loop rest
      else if 5000 <? len chunk then false
      else if count_alnum chunk <? 10 then false
      else context_chunks_format_loop rest
  end.

Definition validate_context_chunks_format (context_chunks : list str) : bool :=
  if negb (nonempty context_chunks) then false
  else context_chunks_format_loop context_chunks.

(** *** AnswerValidator *)

(** The loop over [lines] of [validate_answer_format]; [line_counts] is
    the dictionary, and the result tells whether the loop ended without
    [return False]. *)
Fixpoint repetition_loop (lines : list str) (line_counts : gmap str Z)
    : bool :=
  match lines with
  | [] => true
  | line :: rest =>
      let line_clean := lower (strip line) in
      if nonempty line_clean then
        let n := default 0 (line_counts !! line_clean) + 1 in
        let line_counts := <[line_clean := n]> line_counts in
        if 3 <? n then false
        else repetition_loop rest line_counts
      else repetition_loop rest line_counts
  end.

Definition validate_answer_format (answer_text : str) : bool :=
  if negb (nonempty answer_text) || (len (strip answer_text) =? 0) then false
  else
    let lines := split_on answer_text nl in
    if 10 <? len lines then repetition_loop lines ∅
    else true.

(** The phrase list of the validator: the one of [detect_hallucination]
    without "based on my general knowledge". *)
Definition validator_phrases : list str :=
  [ lit "i cannot answer";
    lit "no context provided";
    lit "not enough information";
    lit "i don't have access to";
    lit "i don't know" ].

Definition validate_answer_grounding (answer_text : str)
    (context_chunks : list str) : bool :=
  if negb (nonempty answer_text) || negb (nonempty context_chunks) then false
  else
    let answer_lower := lower answer_text in
    if existsb (fun phrase => contains phrase answer_lower) validator_phrases
    then true
    else
      let context_text := lower (join (lit " ") context_chunks) in
      let answer_words := word_set answer_lower in
      let context_words := word_set context_text in
      if bool_decide (answer_words = ∅) then false
      else negb (Qltb (overlap_ratio answer_words context_words) (3 # 10)).

Definition validate_no_hallucination (answer_text : str)
    (context_chunks : list str) : bool :=
  if negb (nonempty answer_text) || negb (nonempty context_chunks) then true
  else
    let answer_lower := lower answer_text in
    if existsb (fun phrase => contains phrase answer_lower) validator_phrases
    then true
    else negb (detect_hallucination answer_text context_chunks).

End Utils.

(** ** answer_generation/openrouter_client.py *)

Module OpenRouter.

(** The world outside the process: the wall clock read by [time.time()]
    (seconds, as an integer) and the number of HTTP POSTs the endpoint has
    received. *)
Record World := mkWorld {
  now : Z;
  posts : nat
}.

(** [time.sleep(d)] *)
Definition sleep (d : Z) (w : World) : World := mkWorld (now w + d) (posts w).

(** A state in which [time.time()] can be read. *)
Class Clock (S : Type) := time_time : S -> Z.
#[global] Instance world_clock : Clock World := now.
#[global] Instance pair_clock {A} : Clock (A * World) :=
  fun s => now (snd s).

(** *** RateLimiter *)

Record RateLimiter := mkRateLimiter {
  max_calls : Z;
  time_window : Z;
  calls : list Z
}.

Definition RateLimiter_init (max_calls time_window : Z) : RateLimiter :=
  mkRateLimiter max_calls time_window [].

Definition set_calls (cs : list Z) (rl : RateLimiter) : RateLimiter :=
  mkRateLimiter (max_calls rl) (time_window rl) cs.

(** [[t for t in calls if now - t < time_window]] *)
Definition within_window (rl : RateLimiter) (t : Z) (cs : list Z) : list Z :=
  List.filter (fun call_time => t - call_time <? time_window rl) cs.

Definition wait_if_needed (rl : RateLimiter) (w : World)
    : outcome unit * RateLimiter * World :=
  let t := now w in
  let rl := set_calls (within_window rl t (calls rl)) rl in
  if max_calls rl <=? len (calls rl) then
    match calls rl with
    | [] => (Raise IndexError, rl, w)
    | first :: _ =>
        let sleep_time := time_window rl - (t - first) in
        if 0 <? sleep_time then
          let w := sleep sleep_time w in
          let t := now w in
          let rl := set_calls (within_window rl t (calls rl)) rl in
          (Return tt, set_calls (calls rl ++ [t]) rl, w)
        else (Return tt, set_calls (calls rl ++ [t]) rl, w)
    end
  else (Return tt, set_calls (calls rl ++ [t]) rl, w).

(** *** CircuitBreaker *)

Inductive BreakerState := CLOSED | OPEN | HALF_OPEN.

#[global] Instance BreakerState_eq_dec : EqDecision BreakerState.
Proof. solve_decision. Defined.

Record CircuitBreaker := mkCircuitBreaker {
  failure_threshold : Z;
  recovery_timeout : Z;
  failure_count : Z;
  last_failure_time : option Z;
  _state : BreakerState
}.

Definition CircuitBreaker_init (failure_threshold recovery_timeout : Z)
    : CircuitBreaker :=
  mkCircuitBreaker failure_threshold recovery_timeout 0 None CLOSED.

Definition set_state (st : BreakerState) (cb : CircuitBreaker)
    : CircuitBreaker :=
  mkCircuitBreaker (failure_threshold cb) (recovery_timeout cb)
    (failure_count cb) (last_failure_time cb) st.

Definition set_failure_count (n : Z) (cb : CircuitBreaker) : CircuitBreaker :=
  mkCircuitBreaker (failure_threshold cb) (recovery_timeout cb)
    n (last_failure_time cb) (_state cb).

(** The message of the exception raised by an open breaker. *)
Definition circuit_open : exn :=
  Exception "Circuit breaker is OPEN - API calls temporarily disabled".

Section WithClock.
Context {S : Type} `{Clock S}.

(** The property [state]: reading it may promote OPEN to HALF_OPEN.  A
    [last_failure_time] of [None] or [0.0] is falsy. *)
Definition state (cb : CircuitBreaker) (s : S)
    : BreakerState * CircuitBreaker :=
  match _state cb, last_failure_time cb with
  | OPEN, Some t =>
      if negb (t =? 0) then
        if recovery_timeout cb <=? time_time s - t
        then (HALF_OPEN, set_state HALF_OPEN cb)
        else (_state cb, cb)
      else (_state cb, cb)
  | _, _ => (_state cb, cb)
  end.

Definition _open_circuit (cb : CircuitBreaker) (s : S) : CircuitBreaker :=
  mkCircuitBreaker (failure_threshold cb) (recovery_timeout cb)
    (failure_count cb) (Some (time_time s)) OPEN.

(** [call(func, ...)]: [func] is the wrapped operation with its
    arguments, a computation on [S] that returns or raises. *)
Definition call {A} (cb : CircuitBreaker) (func : S -> outcome A * S)
    (s : S) : outcome A * CircuitBreaker * S :=
  let '(st, cb) := state cb s in
  if bool_decide (st = OPEN) then (Raise circuit_open, cb, s)
  else
    let '(st, cb) := state cb s in
    if bool_decide (st = HALF_OPEN) then
      match func s with
      | (Return result, s) =>
          (Return result, set_failure_count 0 (set_state CLOSED cb), s)
      | (Raise e, s) => (Raise e, _open_circuit cb s, s)
      end
    else
      match func s with
      | (Return result, s) => (Return result, cb, s)
      | (Raise e, s) =>
          let cb := set_failure_count (failure_count cb + 1) cb in
          let cb := if failure_threshold cb <=? failure_count cb
                    then _open_circuit cb s else cb in
          (Raise e, cb, s)
      end.

(** [reset()] *)
Definition reset (cb : CircuitBreaker) : CircuitBreaker :=
  mkCircuitBreaker (failure_threshold cb) (recovery_timeout cb)
    0 None CLOSED.

(** A sequence of calls on one breaker; each step gives the wrapped
    operation and the state of the world when the call is made. *)
Fixpoint call_each {A} (cb : CircuitBreaker)
    (steps : list ((S -> outcome A * S) * S))
    : list (outcome A) * CircuitBreaker :=
  match steps with
  | [] => ([], cb)
  | (func, s) :: rest =>
      let '(r, cb, _) := call cb func s in
      let '(rs, cb) := call_each cb rest in
      (r :: rs, cb)
  end.

End WithClock.

Definition raised {A} (r : outcome A) : bool :=
  match r with Raise _ => true | Return _ => false end.

(** A bound on the number of further failed calls after which the stored
    state is OPEN. *)
Definition failures_to_open (cb : CircuitBreaker) : Z :=
  match _state cb with
  | CLOSED => Z.max 1 (failure_threshold cb - failure_count cb)
  | OPEN => 0
  | HALF_OPEN => 1
  end.

(** *** OpenRouterClient *)

(** What [response.json()] holds for the code that reads it. *)
Inductive Body :=
| Choice (content : option str)  (** [choices[0].message.content] *)
| NoChoices                      (** no [choices] key, or an empty list *)
| Malformed.                     (** [json()] or the indexing raises *)

(** What one [session.post] does. *)
Inductive PostResult :=
| Response (status_code : Z) (body : Body)
| Timeout
| ConnectionError
| RequestException
| UnexpectedError.

Record Config := mkConfig {
  MAX_RETRIES : Z
}.

(** How one iteration of the retry loop ends. *)
Inductive Control :=
| NextAttempt
| ReturnValue (answer_text : option str).

Section WithEndpoint.

Variable config : Config.
(** The endpoint: what the [k]-th POST ever made, carrying [prompt],
    results in. *)
Variable endpoint : nat -> str -> PostResult.

Definition post (prompt : str) (w : World) : PostResult * World :=
  (endpoint (posts w) prompt, mkWorld (now w) (Datatypes.S (posts w))).

(** The four [except] clauses have the same body. *)
Definition on_exception (attempt : Z) (w : World) : Control * World :=
  if attempt =? MAX_RETRIES config - 1 then (ReturnValue None, w)
  else (NextAttempt, sleep (2 ^ attempt) w).

(** One iteration of [for attempt in range(MAX_RETRIES)]. *)
Definition attempt_request (prompt : str) (attempt : Z) (w : World)
    : Control * World :=
  let '(r, w) := post prompt w in
  match r with
  | Response status_code body =>
      if status_code =? 200 then
        match body with
        | Choice answer_text => (ReturnValue answer_text, w)
        | NoChoices =>
            if attempt <? MAX_RETRIES config - 1
            then (NextAttempt, sleep (2 ^ attempt) w)
            else (ReturnValue None, w)
        | Malformed => on_exception attempt w
        end
      else if status_code =? 429 then
        (NextAttempt, sleep (2 ^ attempt * 1) w)
      else if status_code =? 401 then (ReturnValue None, w)
      else if status_code =? 400 then (ReturnValue None, w)
      else if status_code =? 403 then (ReturnValue None, w)
      else if status_code =? 404 then (ReturnValue None, w)
      else if 500 <=? status_code then
        if attempt <? MAX_RETRIES config - 1
        then (NextAttempt, sleep (2 ^ attempt * 1) w)
        else (ReturnValue None, w)
      else
        if attempt <? MAX_RETRIES config - 1
        then (NextAttempt, sleep (2 ^ attempt * 1) w)
        else (ReturnValue None, w)
  | Timeout | ConnectionError | RequestException | UnexpectedError =>
      on_exception attempt w
  end.

(** The retry loop and the [return None] after it. *)
Fixpoint request_loop (prompt : str) (attempts : list Z) (w : World)
    : option str * World :=
  match attempts with
  | [] => (None, w)
  | attempt :: rest =>
      match attempt_request prompt attempt w with
      | (ReturnValue answer_text, w) => (answer_text, w)
      | (NextAttempt, w) => request_loop prompt rest w
      end
  end.

(** [range(n)] *)
Definition range (n : Z) : list Z := map Z.of_nat (seq 0 (Z.to_nat n)).

Definition _make_request (prompt : str) (s : RateLimiter * World)
    : outcome (option str) * (RateLimiter * World) :=
  let '(rl, w) := s in
  match wait_if_needed rl w with
  | (Raise e, rl, w) => (Raise e, (rl, w))
  | (Return _, rl, w) =>
      let '(answer_text, w) :=
        request_loop prompt (range (MAX_RETRIES config)) w in
      (Return answer_text, (rl, w))
  end.

Record OpenRouterClient := mkOpenRouterClient {
  circuit_breaker : CircuitBreaker;
  rate_limiter : RateLimiter
}.

Definition OpenRouterClient_init : OpenRouterClient :=
  mkOpenRouterClient
    (CircuitBreaker_init (MAX_RETRIES config + 2) 60)
    (RateLimiter_init 10 60).

Definition send_request (c : OpenRouterClient) (prompt : str) (w : World)
    : option str * OpenRouterClient * World :=
  let '(r, cb, (rl, w)) :=
    call (circuit_breaker c) (_make_request prompt) (rate_limiter c, w) in
  match r with
  | Return answer_text => (answer_text, mkOpenRouterClient cb rl, w)
  | Raise _ => (None, mkOpenRouterClient cb rl, w)
  end.

(** Consecutive [send_request] calls on one client. *)
Fixpoint send_requests (c : OpenRouterClient) (prompts : list str)
    (w : World) : list (option str) * OpenRouterClient * World :=
  match prompts with
  | [] => ([], c, w)
  | prompt :: rest =>
      let '(a, c, w) := send_request c prompt w in
      let '(answers, c, w) := send_requests c rest w in
      (a :: answers, c, w)
  end.

Definition test_connection (c : OpenRouterClient) (w : World)
    : bool * OpenRouterClient * World :=
  let '(response, c, w) := send_request c (lit "Hello, are you available?") w in
  (match response with
   | Some text => 0 <? len text
   | None => false
   end, c, w).

(** [call_openrouter_api]: a new client for every call. *)
Definition call_openrouter_api (prompt : str) (w : World)
    : option str * OpenRouterClient * World :=
  send_request OpenRouterClient_init prompt w.

End WithEndpoint.

(** How the retry loop treats a POST result on an attempt that is not the
    last: [Some v] when the loop returns [v] at once, [None] when it goes
    on to the next attempt. *)
Definition settles (r : PostResult) : option (option str) :=
  match r with
  | Response status_code body =>
      if status_code =? 200 then
        match body with
        | Choice answer_text => Some answer_text
        | NoChoices | Malformed => None
        end
      else if (status_code =? 401) || (status_code =? 400)
              || (status_code =? 403) || (status_code =? 404)
      then Some None
      else None
  | Timeout | ConnectionError | RequestException | UnexpectedError => None
  end.

End OpenRouter.

(** ** ingestion/qdrant_client.py *)

Module QdrantStorage.

Record Payload := mkPayload {
  p_text : str;
  p_url : str;
  p_chunk_id : str;
  p_position : Z;
  p_title : str;
  p_char_count : Z;
  p_content_hash : str
}.

Record PointStruct := mkPointStruct {
  point_id : Z;
  vector : list Q;
  payload : Payload
}.

(** A metadata dict; a key that is absent is [None]. *)
Record Metadata := mkMetadata {
  m_url : option str;
  m_chunk_id : option str;
  m_position : option Z;
  m_title : option str;
  m_char_count : option Z
}.

(** [d.get(key, default)] *)
Definition get {A} (value : option A) (default : A) : A :=
  match value with
  | Some v => v
  | None => default
  end.

Definition hex_digit (c : ascii) : option Z :=
  let n := code c in
  if ((48 <=? n) && (n <=? 57))%nat then Some (Z.of_nat n - 48)
  else if ((97 <=? n) && (n <=? 102))%nat then Some (Z.of_nat n - 87)
  else if ((65 <=? n) && (n <=? 70))%nat then Some (Z.of_nat n - 55)
  else None.

Fixpoint int_hex_from (digits : str) (acc : Z) : option Z :=
  match digits with
  | [] => Some acc
  | c :: rest =>
      match hex_digit c with
      | Some d => int_hex_from rest (16 * acc + d)
      | None => None
      end
  end.

(** [int(s, 16)] on a string of hexadecimal digits, which is what a digest
    is; on the empty string and on any other character it raises (the
    signs, prefixes and underscores [int] also reads do not occur in a
    digest). *)
Definition int_hex (s : str) : outcome Z :=
  match s with
  | [] => Raise (ValueError "invalid literal for int() with base 16")
  | _ =>
      match int_hex_from s 0 with
      | Some n => Return n
      | None => Raise (ValueError "invalid literal for int() with base 16")
      end
  end.

(** [abs(int(content_hash[:16], 16))] *)
Definition point_id_of (content_hash : str) : outcome Z :=
  Z.abs <$> int_hex (slice_to content_hash 16).

(** [client.upsert(points=batch)] on the collection, a finite map from
    point ids to points: a point replaces the one that has its id. *)
Definition upsert (batch : list PointStruct)
    (collection : gmap Z PointStruct) : gmap Z PointStruct :=
  fold_left (fun c p => <[point_id p := p]> c) batch collection.

(** [_check_duplicate]: the scroll with a filter on [content_hash] finds a
    point. *)
Definition _check_duplicate (collection : gmap Z PointStruct)
    (content_hash : str) : bool :=
  bool_decide
    (map_Exists (fun _ p => p_content_hash (payload p) = content_hash)
       collection).

Section WithSha256.

(** [hashlib.sha256(s.encode('utf-8')).hexdigest()] *)
Variable sha256_hexdigest : str -> str.

Definition _generate_content_hash (text url : str) : str :=
  sha256_hexdigest (url ++ lit "::" ++ text).

(** One iteration of the loop of [store_embeddings] over the zipped
    arguments; the state is [points]. *)
Definition prepare_point (collection : gmap Z PointStruct)
    (skip_duplicates : bool) (points : list PointStruct)
    (item : str * list Q * Metadata) : outcome (list PointStruct) :=
  let '(text, embedding, metadata) := item in
  let content_hash := _generate_content_hash text (get (m_url metadata) []) in
  if skip_duplicates && _check_duplicate collection content_hash
  then Return points
  else
    id ← point_id_of content_hash;
    Return (points ++
      [mkPointStruct id embedding
         (mkPayload text (get (m_url metadata) [])
            (get (m_chunk_id metadata) []) (get (m_position metadata) 0)
            (get (m_title metadata) []) (get (m_char_count metadata) 0)
            content_hash)]).

Definition store_embeddings (collection : gmap Z PointStruct)
    (texts : list str) (embeddings : list (list Q))
    (metadata_list : list Metadata) (batch_size : Z) (skip_duplicates : bool)
    : outcome unit * gmap Z PointStruct :=
  if negb (length texts =? length embeddings)%nat
     || negb (length texts =? length metadata_list)%nat
  then (Raise (ValueError
                 "texts, embeddings, and metadata_list must have the same length"),
        collection)
  else
    match for_loop (prepare_point collection skip_duplicates)
            (zip (zip texts embeddings) metadata_list) [] with
    | Raise e => (Raise e, collection)
    | Return points =>
        if nonempty points then
          match range_step (len points) batch_size with
          | Raise e => (Raise e, collection)
          | Return starts =>
              (Return tt,
               fold_left
                 (fun c i => upsert (slice points i (i + batch_size)) c)
                 starts collection)
          end
        else (Return tt, collection)
    end.

(** [store_embedding]: the same steps for one chunk, without batches. *)
Definition store_embedding (collection : gmap Z PointStruct) (text : str)
    (embedding : list Q) (metadata : Metadata) (skip_duplicates : bool)
    : outcome unit * gmap Z PointStruct :=
  let content_hash := _generate_content_hash text (get (m_url metadata) []) in
  if skip_duplicates && _check_duplicate collection content_hash
  then (Return tt, collection)
  else
    match point_id_of content_hash with
    | Raise e => (Raise e, collection)
    | Return id =>
        (Return tt,
         upsert
           [mkPointStruct id embedding
              (mkPayload text (get (m_url metadata) [])
                 (get (m_chunk_id metadata) []) (get (m_position metadata) 0)
                 (get (m_title metadata) []) (get (m_char_count metadata) 0)
                 content_hash)]
           collection)
    end.

(** Every point sits at the id derived from its content hash, as the
    points stored by this module do. *)
Definition ids_from_hashes (collection : gmap Z PointStruct) : Prop :=
  forall i p, collection !! i = Some p ->
              point_id_of (p_content_hash (payload p)) = Return i.

(** The stored points that carry a given content hash. *)
Definition points_with_hash (content_hash : str)
    (collection : gmap Z PointStruct) : gmap Z PointStruct :=
  filter (fun ip => p_content_hash (payload ip.2) = content_hash) collection.

End WithSha256.

End QdrantStorage.

(** ** ingestion/ingest.py *)

Module Ingest.

Import TextProcessor.

(** One entry of the list returned by [load_sitemap_urls]. *)
Record UrlData := mkUrlData {
  url : str;
  last_modified : option str;
  change_frequency : option str;
  priority : option str
}.

(** The checkpoint file [ingestion_progress.json]. *)
Record Progress := mkProgress {
  processed_urls : list str;
  failed_urls : list str
}.

(** What the run does to the outside, in order. *)
Inductive Event :=
| Extract (url : str)
| SaveProgress (processed failed : list str)
| RemoveCheckpoint
| EmbedAndStore (chunks : list ContentChunk) (skip_duplicates : bool).

(** The collaborators of the pipeline. *)
Record Env := mkEnv {
  (** [Config.validate()] passes *)
  config_valid : bool;
  (** [Config.SITEMAP_URL] *)
  SITEMAP_URL : str;
  load_sitemap_urls : str -> outcome (list UrlData);
  (** the checkpoint file, when it exists and can be read *)
  checkpoint : option Progress;
  (** [extract_and_chunk_url(url)], for the [k]-th extraction of the run *)
  extract_and_chunk_url : nat -> str -> outcome (option (list ContentChunk));
  (** steps 3 to 5: embeddings are created and stored *)
  embed_and_store : list ContentChunk -> bool -> outcome unit
}.

Definition load_progress (env : Env) : Progress :=
  match checkpoint env with
  | Some progress_data => progress_data
  | None => mkProgress [] []
  end.

(** The state of the loop over [urls_to_process]. *)
Record Loop := mkLoop {
  all_chunks : list ContentChunk;
  newly_processed_urls : list str;
  cur_processed : list str;
  cur_failed : list str;
  extractions : nat;
  trace : list Event
}.

(** One iteration of [for i, url_data in enumerate(urls_to_process)]. *)
Definition process_url (env : Env) (st : Loop) (it : nat * UrlData) : Loop :=
  let '(i, url_data) := it in
  let u := url url_data in
  let r := extract_and_chunk_url env (extractions st) u in
  let tr := trace st ++ [Extract u] in
  let st :=
    match r with
    | Return (Some (c :: cs)) =>
        mkLoop (all_chunks st ++ c :: cs) (newly_processed_urls st ++ [u])
          (cur_processed st ++ [u]) (cur_failed st)
          (Datatypes.S (extractions st)) tr
    | Return (Some []) | Return None | Raise _ =>
        mkLoop (all_chunks st) (newly_processed_urls st)
          (cur_processed st) (cur_failed st ++ [u])
          (Datatypes.S (extractions st)) tr
    end in
  if (Z.of_nat i + 1) mod 10 =? 0
  then mkLoop (all_chunks st) (newly_processed_urls st) (cur_processed st)
         (cur_failed st) (extractions st)
         (trace st ++ [SaveProgress (cur_processed st) (cur_failed st)])
  else st.

(** [sitemap_url or Config.SITEMAP_URL] *)
Definition target_sitemap_url (env : Env) (sitemap_url : option str) : str :=
  match sitemap_url with
  | Some u => if nonempty u then u else SITEMAP_URL env
  | None => SITEMAP_URL env
  end.

Definition run_ingestion_pipeline (env : Env) (sitemap_url : option str)
    (skip_duplicates resume : bool) : outcome unit * list Event :=
  if negb (config_valid env)
  then (Raise (ValueError "Missing required environment variables"), [])
  else
    match load_sitemap_urls env (target_sitemap_url env sitemap_url) with
    | Raise e => (Raise e, [])
    | Return sitemap_urls =>
        let start :=
          if resume then
            let progress_data := load_progress env in
            let processed := processed_urls progress_data in
            let failed := failed_urls progress_data in
            let urls_to_process :=
              List.filter
                (fun url_data => bool_decide (url url_data ∉ processed))
                sitemap_urls in
            (urls_to_process, mkLoop [] [] processed failed 0 [])
          else
            (sitemap_urls,
             mkLoop [] [] [] [] 0
               (match checkpoint env with
                | Some _ => [RemoveCheckpoint]
                | None => []
                end)) in
        let '(urls_to_process, st) := start in
        let st := fold_left (process_url env) (enumerate urls_to_process) st in
        let tr :=
          trace st ++ [SaveProgress (cur_processed st) (cur_failed st)] in
        if negb (nonempty (all_chunks st)) then (Return tt, tr)
        else
          match embed_and_store env (all_chunks st) skip_duplicates with
          | Return _ =>
              (Return tt, tr ++ [EmbedAndStore (all_chunks st) skip_duplicates])
          | Raise e =>
              (Raise e,
               tr ++ [EmbedAndStore (all_chunks st) skip_duplicates;
                      SaveProgress (cur_processed st) (cur_failed st)])
          end
    end.

(** The URLs extraction was attempted for, in order. *)
Definition extracted (tr : list Event) : list str :=
  omap (fun e => match e with Extract u => Some u | _ => None end) tr.

(** The checkpoints written, in order, as [(processed_urls, failed_urls)]. *)
Definition saved (tr : list Event) : list (list str * list str) :=
  omap (fun e => match e with SaveProgress p f => Some (p, f) | _ => None end)
    tr.

(** The chunk lists handed to embedding and storage. *)
Definition stored (tr : list Event) : list (list ContentChunk) :=
  omap (fun e => match e with EmbedAndStore cs _ => Some cs | _ => None end)
    tr.

(** Whether an extraction counts as processed: [if chunks:] holds. *)
Definition succeeded (r : outcome (option (list ContentChunk))) : bool :=
  match r with
  | Return (Some (_ :: _)) => true
  | _ => false
  end.

(** The chunks an extraction adds to [all_chunks]. *)
Definition chunks_of (r : outcome (option (list ContentChunk)))
    : list ContentChunk :=
  match r with
  | Return (Some chunks) => chunks
  | _ => []
  end.

(** The URLs attempted, each with what its extraction gave; extractions
    are counted from [k]. *)
Fixpoint outcomes_from (env : Env) (k : nat) (urls : list str)
    : list (str * outcome (option (list ContentChunk))) :=
  match urls with
  | [] => []
  | u :: urls' =>
      (u, extract_and_chunk_url env k u)
        :: outcomes_from env (Datatypes.S k) urls'
  end.

End Ingest.

(* ===================================================================== *)
(** * Part II: properties                                                 *)
(* ===================================================================== *)

(** ** The primitives, on values computed by Python *)

Example split_example :
  split (lit "  a b" ++ [ascii_of_nat 9] ++ lit "c ")
  = [lit "a"; lit "b"; lit "c"].
Proof. reflexivity. Qed.

Example strip_example :
  strip (lit " " ++ [ascii_of_nat 9] ++ lit " x y " ++ [nl]) = lit "x y".
Proof. reflexivity. Qed.

Example lower_example :
  lower [ascii_of_nat 192; "B"%char; ascii_of_nat 215]
  = [ascii_of_nat 224; "b"%char; ascii_of_nat 215].
Proof. reflexivity. Qed.

Example rfind_example :
  rfind (lit "hello world") " " = 5 /\ rfind (lit "hello") " " = -1.
Proof. by vm_compute. Qed.

Example rsplit_example :
  rsplit1_head (slice_to (lit "abc def ghi") 9) " " = lit "abc def"
  /\ rsplit1_head (lit "abcdef") " " = lit "abcdef"
  /\ rsplit1_head (lit " abc") " " = [].
Proof. by vm_compute. Qed.

Example slice_to_example :
  slice_to (lit "hello world") (-3) = lit "hello wo"
  /\ slice_to (lit "ab") (-5) = [].
Proof. by vm_compute. Qed.

Example str_of_int_example :
  str_of_int 0 = lit "0" /\ str_of_int 1200 = lit "1200"
  /\ str_of_int (-5) = lit "-5".
Proof. by vm_compute. Qed.

Example range_step_example :
  range_step 13 5 = Return [0; 5; 10] /\ range_step 10 5 = Return [0; 5].
Proof. by vm_compute. Qed.

Example re_split_example :
  TextProcessor.re_split (lit "..a?!b") = [[]; lit "a"; lit "b"]
  /\ TextProcessor.re_findall (lit "..a?!b") = [lit ".."; lit "?!"]
  /\ TextProcessor.re_split (lit "Hi. Abcdefghij.")
     = [lit "Hi"; lit " Abcdefghij"; []].
Proof. by vm_compute. Qed.

Example re_findall_words_example :
  Utils.re_findall_words
    (lit "the quick_brown fox2 jumps! over9000 a.bcd")
  = [lit "quick_brown"; lit "fox2"; lit "jumps"; lit "over9000"].
Proof. by vm_compute. Qed.

Example point_id_of_example :
  QdrantStorage.point_id_of
    (lit "ba7816bf8f01cfea414140de5dae2223b00361a396177a9cb410ff61f20015ad")
  = Return 13436514500253700074.
Proof. by vm_compute. Qed.

(** ** Strings *)

Section StringFacts.

Implicit Types (p s a b : str) (c : ascii).

Lemma startswith_app p s b :
  startswith p s = true -> startswith p (s ++ b) = true.
Proof.
  revert s; induction p as [|x p IH]; intros [|y s]; simpl; try done.
  intros [-> Hp]%andb_true_iff. by rewrite IH.
Qed.

Lemma contains_startswith p s : startswith p s = true -> contains p s = true.
Proof. destruct s; simpl; intros ->; done. Qed.

Lemma contains_app_r p a s : contains p s = true -> contains p (a ++ s) = true.
Proof.
  intros Hs; induction a as [|x a IH]; simpl; [done|].
  rewrite IH. apply orb_true_r.
Qed.




Lemma lstrip_nonempty s :
  (exists c, c ∈ s /\ isspace c = false) -> lstrip s <> [].
Proof.
  induction s as [|x s IH]; intros (c & Hin & Hc).
  - by apply elem_of_nil in Hin.
  - simpl. destruct (isspace x) eqn:Hx; [|done].
    apply IH. exists c. split; [|done].
    apply elem_of_cons in Hin as [->|]; [congruence|done].
Qed.

Lemma strip_nonempty c s : isspace c = false -> strip (c :: s) <> [].
Proof.
  intros Hc. unfold strip, rstrip. simpl. rewrite Hc.
  intros Hnil. apply (f_equal reverse) in Hnil.
  rewrite reverse_involutive in Hnil. revert Hnil.
  apply lstrip_nonempty. exists c. split; [|done].
  rewrite reverse_cons. set_solver.
Qed.

Lemma nonempty_true {A} (l : list A) : nonempty l = true <-> l <> [].
Proof. by destruct l. Qed.

Lemma len_nonneg {A} (l : list A) : 0 <= len l.
Proof. unfold len. lia. Qed.

End StringFacts.

(** ** The text processor *)

Import TextProcessor.

(** The pieces of the hard split of a word are within the bound. *)
Lemma hard_split_within_limit (word : str) (max_chunk_size : Z) (i : Z) :
  0 < max_chunk_size ->
  len (slice word i (i + max_chunk_size)) <= max_chunk_size.
Proof.
  intros Hpos. unfold slice, len. rewrite length_take. lia.
Qed.

(** C1 (code defect).  The chunk size bound fails: a sentence, or a word,
    that is longer than [max_chunk_size] and follows a non-empty buffer is
    taken as the new buffer without being split, and is later emitted whole.
    With [max_chunk_size = 5], the text "Hi. Abcdefghij." gives a second
    chunk of 11 characters through the sentence loop, and "ab abcdefghijk"
    gives one of 11 characters through the word-splitting path.  The
    hard-split path alone ("abcdefghijklm") respects the bound. *)
Theorem C1_chunk_text_exceeds_max_chunk_size (hash : str -> Z) :
  map char_count <$> chunk_text hash (lit "Hi. Abcdefghij.") (lit "u") 5
    = Return [3; 11]
  /\ within_limit 5 (chunk_text hash (lit "Hi. Abcdefghij.") (lit "u") 5)
    = false
  /\ _split_long_sentence (lit "ab abcdefghijk") 5
    = Return [lit "ab"; lit "abcdefghijk"]
  /\ map char_count <$> chunk_text hash (lit "ab abcdefghijk") (lit "u") 5
    = Return [2; 11]
  /\ within_limit 5 (chunk_text hash (lit "ab abcdefghijk") (lit "u") 5)
    = false
  /\ map char_count <$> chunk_text hash (lit "abcdefghijklm") (lit "u") 5
    = Return [5; 5; 3].
Proof. vm_compute. repeat split. Qed.

(** ** The prompt constructor *)

Import PromptConstructor.

Section PromptFacts.

Implicit Types (query prompt context_text : str) (chunks : list str).


(** A prompt that starts with a visible character passes the emptiness
    test of [validate_prompt_format]. *)
Lemma validate_prompt_format_visible c prompt :
  isspace c = false ->
  validate_prompt_format (c :: prompt)
  = contains (lit "Context:") (c :: prompt)
    && contains (lit "Question:") (c :: prompt)
    && contains (lit "Instructions:") (c :: prompt).
Proof.
  intros Hc. unfold validate_prompt_format.
  pose proof (strip_nonempty c prompt Hc) as Hs.
  destruct (strip (c :: prompt)) as [|y t] eqn:E; [done|].
  replace (len (y :: t) =? 0) with false; [done|].
  symmetry. apply Z.eqb_neq. unfold len. simpl. lia.
Qed.

Lemma grounded_prompt_markers context_text query :
  contains (lit "Context:") (grounded_prompt context_text query) = true
  /\ contains (lit "Question:") (grounded_prompt context_text query) = true
  /\ contains (lit "Instructions:") (grounded_prompt context_text query)
     = true.
Proof.
  unfold grounded_prompt. split; [|split].
  - apply contains_startswith, startswith_app. by vm_compute.
  - do 4 apply contains_app_r.
    apply contains_startswith, startswith_app. by vm_compute.
  - do 7 apply contains_app_r. apply contains_startswith. by vm_compute.
Qed.

Lemma grounded_prompt_valid context_text query :
  validate_prompt_format (grounded_prompt context_text query) = true.
Proof.
  destruct (grounded_prompt_markers context_text query) as (H1 & H2 & H3).
  revert H1 H2 H3.
  change (grounded_prompt context_text query)
    with ("C"%char :: (lit "ontext:" ++ [nl] ++ context_text ++ [nl; nl]
            ++ lit "Question: " ++ query ++ [nl; nl]
            ++ grounding_instructions)).
  intros H1 H2 H3.
  rewrite validate_prompt_format_visible by done.
  by rewrite H1, H2, H3.
Qed.




End PromptFacts.




(** For a positive bound below the length of the context, the truncation
    is the plain cut: after [context_text = context_text[:m]] the test
    [m < len(context_text)] that guards the backtracking is never true. *)
Lemma truncate_context_positive (context_text : str) (m : Z) :
  0 < m -> m < len context_text ->
  truncate_context context_text (Some m) = take (Z.to_nat m) context_text.
Proof.
  intros Hpos Hlt. unfold truncate_context, truthy, slice_to.
  replace (m =? 0) with false by (symmetry; apply Z.eqb_neq; lia).
  replace (m <? len context_text) with true by (symmetry; apply Z.ltb_lt; lia).
  replace (0 <=? m) with true by (symmetry; apply Z.leb_le; lia).
  cbn [negb andb].
  replace (m <? len (take (Z.to_nat m) context_text)) with false; [done|].
  symmetry. apply Z.ltb_ge. unfold len in *. rewrite length_take. lia.
Qed.

(** C8 (code defect).  With the single chunk "hello world" and
    [max_context_length = 8] the embedded context is "hello wo": the cut
    falls inside "world" and is not moved back to the last space.  (A
    negative bound does reach the backtracking: with -3 the context is
    "hello".) *)
Theorem C8_truncation_cuts_inside_word :
  construct_prompt (lit "q") [lit "hello world"] (Some 8)
    = Return (grounded_prompt (lit "hello wo") (lit "q"))
  /\ truncate_context (lit "hello world") (Some 8) = lit "hello wo"
  /\ truncate_context (lit "hello world") (Some (-3)) = lit "hello".
Proof. by vm_compute. Qed.

Section SelectContext.

Implicit Types (chunk : str) (chunks pre post selected : list str).

Lemma context_cost_nonneg chunks : 0 <= context_cost chunks.
Proof.
  induction chunks as [|chunk chunks IH]; simpl; [done|].
  pose proof (len_nonneg chunk). destruct (nonblank chunk); lia.
Qed.

Lemma skip_test chunk :
  negb (nonempty chunk) || negb (nonempty (strip chunk))
  = negb (nonblank chunk).
Proof. unfold nonblank. by rewrite negb_andb. Qed.

(** The loop over a prefix of whole chunks that fit, followed by a chunk
    that overflows with more than 100 characters of room left. *)
Lemma select_context_until_overflow remaining_length pre chunk post
    selected current_length :
  nonblank chunk = true ->
  current_length + context_cost pre <= remaining_length ->
  remaining_length < current_length + context_cost pre + (len chunk + 1) ->
  100 < remaining_length - (current_length + context_cost pre) ->
  select_context remaining_length (pre ++ chunk :: post) selected
    current_length
  = selected ++ List.filter nonblank pre
      ++ [rsplit1_head
            (slice_to chunk
               (remaining_length - (current_length + context_cost pre)))
            " "].
Proof.
  intros Hchunk. revert selected current_length.
  induction pre as [|x pre IH]; intros selected current_length Hfit Hover Hroom.
  - cbn [app select_context context_cost fold_right List.filter] in *.
    rewrite skip_test, Hchunk. cbn [negb].
    replace (current_length + (len chunk + 1) <=? remaining_length)
      with false by (symmetry; apply Z.leb_gt; lia).
    replace (100 <? remaining_length - current_length)
      with true by (symmetry; apply Z.ltb_lt; lia).
    by rewrite Z.add_0_r.
  - cbn [app select_context List.filter].
    rewrite skip_test.
    change (context_cost (x :: pre))
      with (if nonblank x then len x + 1 + context_cost pre
            else context_cost pre) in *.
    pose proof (context_cost_nonneg pre) as Hcost.
    destruct (nonblank x) eqn:Hx; cbn [negb].
    + replace (current_length + (len x + 1) <=? remaining_length)
        with true by (symmetry; apply Z.leb_le; lia).
      rewrite IH by lia.
      replace (current_length + (len x + 1) + context_cost pre)
        with (current_length + (len x + 1 + context_cost pre)) by lia.
      by rewrite <- app_assoc.
    + by rewrite IH by lia.
Qed.

(** The loop over chunks that all fit: every non-blank chunk is added, in
    order. *)
Lemma select_context_all_fit remaining_length chunks selected current_length :
  current_length + context_cost chunks <= remaining_length ->
  select_context remaining_length chunks selected current_length
  = selected ++ List.filter nonblank chunks.
Proof.
  revert selected current_length.
  induction chunks as [|x chunks IH]; intros selected current_length Hfit.
  - cbn. by rewrite app_nil_r.
  - cbn [select_context List.filter]. rewrite skip_test.
    change (context_cost (x :: chunks))
      with (if nonblank x then len x + 1 + context_cost chunks
            else context_cost chunks) in Hfit.
    pose proof (context_cost_nonneg chunks) as Hcost.
    destruct (nonblank x) eqn:Hx; cbn [negb].
    + replace (current_length + (len x + 1) <=? remaining_length)
        with true by (symmetry; apply Z.leb_le; lia).
      rewrite IH by lia. by rewrite <- app_assoc.
    + by rewrite IH by lia.
Qed.

(** The loop over a prefix of whole chunks that fit, followed by a chunk
    that overflows with 100 characters of room or fewer: the chunk is
    passed over and the loop goes on. *)
Lemma select_context_past_overflow remaining_length pre chunk post
    selected current_length :
  nonblank chunk = true ->
  current_length + context_cost pre <= remaining_length ->
  remaining_length < current_length + context_cost pre + (len chunk + 1) ->
  remaining_length - (current_length + context_cost pre) <= 100 ->
  select_context remaining_length (pre ++ chunk :: post) selected
    current_length
  = select_context remaining_length post
      (selected ++ List.filter nonblank pre)
      (current_length + context_cost pre).
Proof.
  intros Hchunk. revert selected current_length.
  induction pre as [|x pre IH]; intros selected current_length Hfit Hover Hroom.
  - cbn [app select_context context_cost fold_right List.filter] in *.
    rewrite skip_test, Hchunk. cbn [negb].
    replace (current_length + (len chunk + 1) <=? remaining_length)
      with false by (symmetry; apply Z.leb_gt; lia).
    replace (100 <? remaining_length - current_length)
      with false by (symmetry; apply Z.ltb_ge; lia).
    by rewrite Z.add_0_r, app_nil_r.
  - cbn [app select_context List.filter].
    rewrite skip_test.
    change (context_cost (x :: pre))
      with (if nonblank x then len x + 1 + context_cost pre
            else context_cost pre) in *.
    pose proof (context_cost_nonneg pre) as Hcost.
    destruct (nonblank x) eqn:Hx; cbn [negb].
    + replace (current_length + (len x + 1) <=? remaining_length)
        with true by (symmetry; apply Z.leb_le; lia).
      rewrite IH by lia.
      replace (current_length + (len x + 1) + context_cost pre)
        with (current_length + (len x + 1 + context_cost pre)) by lia.
      by rewrite <- app_assoc.
    + by rewrite IH by lia.
Qed.

(** Every chunk list either fits as a whole or has a first non-blank
    chunk that overflows. *)
Lemma fits_or_overflows remaining_length chunks current_length :
  current_length <= remaining_length ->
  current_length + context_cost chunks <= remaining_length
  \/ exists pre chunk post,
       chunks = pre ++ chunk :: post
       /\ nonblank chunk = true
       /\ current_length + context_cost pre <= remaining_length
       /\ remaining_length
          < current_length + context_cost pre + (len chunk + 1).
Proof.
  revert current_length.
  induction chunks as [|x chunks IH]; intros current_length Hcur.
  - left. cbn. lia.
  - change (context_cost (x :: chunks))
      with (if nonblank x then len x + 1 + context_cost chunks
            else context_cost chunks).
    destruct (nonblank x) eqn:Hx.
    + destruct (Z.le_gt_cases (current_length + (len x + 1)) remaining_length)
        as [Hfit|Hover].
      * destruct (IH (current_length + (len x + 1)) Hfit)
          as [Hall|(pre & chunk & post & -> & Hchunk & Hpre & Hover)].
        -- left. lia.
        -- right. exists (x :: pre), chunk, post.
           change (context_cost (x :: pre))
             with (if nonblank x then len x + 1 + context_cost pre
                   else context_cost pre).
           rewrite Hx. split; [done|]. split; [done|]. lia.
      * right. exists [], x, chunks. cbn. split; [done|]. split; [done|]. lia.
    + destruct (IH current_length Hcur)
        as [Hall|(pre & chunk & post & -> & Hchunk & Hpre & Hover)].
      * by left.
      * right. exists (x :: pre), chunk, post.
        change (context_cost (x :: pre))
          with (if nonblank x then len x + 1 + context_cost pre
                else context_cost pre).
        rewrite Hx. by split.
Qed.

End SelectContext.

(** C9 (counterexample).  A budget of 50 characters, a first chunk of 60
    and a second one of 4: the first chunk overflows with 50 (not more
    than 100) characters of room, so it is dropped, not truncated, and the
    loop goes on to add the chunk after it. *)
Lemma C9_small_room_skips_and_continues :
  let query := lit "q" in
  let long_chunk := replicate 60 "x"%char in
  let remaining_length := 959 - len (base_prompt query) - 500 in
  remaining_length = 50
  /\ nonblank long_chunk = true
  /\ (0 + (len long_chunk + 1) <=? remaining_length) = false
  /\ select_context remaining_length [long_chunk; lit "tail"] [] 0
     = [lit "tail"]
  /\ construct_prompt_with_length_management query
       [long_chunk; lit "tail"] 959
     = Return (grounded_prompt (lit "tail") query).
Proof. by vm_compute. Qed.

(** C9 (amended).  For a non-blank query and every budget, with
    [remaining_length] the budget left for the context:
    - the prompt is built from the chunks the loop selects, joined by
      newlines, and is the prompt without context when the budget is not
      positive or nothing is selected;
    - every chunk list either fits as a whole or has a first non-blank
      chunk that overflows what is left of the budget;
    - when the chunks all fit, the selected context is the non-blank
      chunks, all of them, in order;
    - when the non-blank chunks of [pre] fit, the next chunk is non-blank
      and overflows, and more than 100 characters of the budget remain,
      the selected context is the non-blank chunks of [pre] in order
      followed by that chunk cut to the remaining room and then cut before
      its last space; the chunks of [post] play no part;
    - when 100 characters or fewer remain, the overflowing chunk is passed
      over, and the loop goes on with [post] and the budget as it was. *)
Theorem C9_select_context_cases (query : str) (max_total_length : Z) :
  let remaining_length := max_total_length - len (base_prompt query) - 500 in
  blank_query query = false ->
  (forall chunks : list str,
      construct_prompt_with_length_management query chunks max_total_length
      = Return
          (let selected := select_context remaining_length chunks [] 0 in
           if (0 <? remaining_length) && nonempty selected
           then grounded_prompt (join [nl] selected) query
           else _create_prompt_without_context query))
  /\ (forall (chunks : list str) (current_length : Z),
         current_length <= remaining_length ->
         current_length + context_cost chunks <= remaining_length
         \/ exists pre chunk post,
              chunks = pre ++ chunk :: post
              /\ nonblank chunk = true
              /\ current_length + context_cost pre <= remaining_length
              /\ remaining_length
                 < current_length + context_cost pre + (len chunk + 1))
  /\ (forall (chunks selected : list str) (current_length : Z),
         current_length + context_cost chunks <= remaining_length ->
         select_context remaining_length chunks selected current_length
         = selected ++ List.filter nonblank chunks)
  /\ (forall (pre : list str) (chunk : str) (post selected : list str)
             (current_length : Z),
         let remaining_space :=
           remaining_length - (current_length + context_cost pre) in
         nonblank chunk = true ->
         current_length + context_cost pre <= remaining_length ->
         remaining_length
         < current_length + context_cost pre + (len chunk + 1) ->
         (100 < remaining_space ->
          select_context remaining_length (pre ++ chunk :: post) selected
            current_length
          = selected ++ List.filter nonblank pre
              ++ [rsplit1_head (slice_to chunk remaining_space) " "])
         /\ (remaining_space <= 100 ->
             select_context remaining_length (pre ++ chunk :: post) selected
               current_length
             = select_context remaining_length post
                 (selected ++ List.filter nonblank pre)
                 (current_length + context_cost pre)))
  /\ (forall (pre : list str) (chunk : str) (post : list str),
         let remaining_space := remaining_length - context_cost pre in
         nonblank chunk = true ->
         context_cost pre <= remaining_length ->
         remaining_length < context_cost pre + (len chunk + 1) ->
         100 < remaining_space ->
         select_context remaining_length (pre ++ chunk :: post) [] 0
         = List.filter nonblank pre
             ++ [rsplit1_head (slice_to chunk remaining_space) " "]
         /\ construct_prompt_with_length_management query
              (pre ++ chunk :: post) max_total_length
            = Return
                (grounded_prompt
                   (join [nl]
                      (List.filter nonblank pre
                         ++ [rsplit1_head (slice_to chunk remaining_space)
                               " "]))
                   query)).
Proof.
  intros remaining_length Hq.
  assert (forall chunks : list str,
      construct_prompt_with_length_management query chunks max_total_length
      = Return
          (let selected := select_context remaining_length chunks [] 0 in
           if (0 <? remaining_length) && nonempty selected
           then grounded_prompt (join [nl] selected) query
           else _create_prompt_without_context query)) as Hprompt.
  { intros chunks. unfold construct_prompt_with_length_management.
    rewrite Hq. fold remaining_length. cbv zeta.
    destruct chunks as [|x chunks]; cbn [nonempty negb].
    { cbn [select_context nonempty]. by rewrite andb_false_r. }
    destruct (remaining_length <=? 0) eqn:Hroom.
    - apply Z.leb_le in Hroom.
      by replace (0 <? remaining_length) with false
        by (symmetry; apply Z.ltb_ge; lia).
    - apply Z.leb_gt in Hroom.
      replace (0 <? remaining_length) with true
        by (symmetry; apply Z.ltb_lt; lia).
      cbn [andb]. by destruct (nonempty (select_context _ _ _ _)). }
  split; [exact Hprompt|].
  split; [intros chunks current_length; apply fits_or_overflows|].
  split; [intros chunks selected current_length;
          apply select_context_all_fit|].
  split.
  - intros pre chunk post selected current_length remaining_space
      Hchunk Hfit Hover.
    split; intros Hroom.
    + by apply select_context_until_overflow.
    + by apply select_context_past_overflow.
  - intros pre chunk post remaining_space Hchunk Hfit Hover Hroom.
    pose proof (context_cost_nonneg pre) as Hcost.
    assert (Hsel :
      select_context remaining_length (pre ++ chunk :: post) [] 0
      = List.filter nonblank pre
          ++ [rsplit1_head (slice_to chunk remaining_space) " "]).
    { rewrite select_context_until_overflow; subst remaining_space;
        rewrite ?Z.add_0_l; try done; lia. }
    split; [exact Hsel|].
    rewrite Hprompt. cbv zeta. rewrite Hsel.
    replace (0 <? remaining_length) with true
      by (symmetry; apply Z.ltb_lt; subst remaining_space; lia).
    by destruct (List.filter nonblank pre).
Qed.

(** The witness: a budget of 150 characters.  Three chunks that fit, one
    of them blank, are selected but for the blank one.  After a whole
    chunk of 11 characters, a chunk of 200 is cut to 138 characters and
    then before its last space, and the chunk after it is not added.
    After a whole chunk of 60 characters the same chunk of 200 is passed
    over, and the chunk after it is added. *)
Lemma C9_select_context_cases_witness :
  let chunk := mjoin (replicate 40 (lit "word ")) in
  let sixty := replicate 60 "x"%char in
  select_context 150 [lit "first chunk"; lit "  "; lit "second"] [] 0
  = [lit "first chunk"; lit "second"]
  /\ select_context 150 ([lit "first chunk"] ++ chunk :: [lit "never"]) [] 0
     = [lit "first chunk"; take 134 chunk]
  /\ select_context 150 ([sixty] ++ chunk :: [lit "tail"]) [] 0
     = [sixty; lit "tail"]
  /\ construct_prompt_with_length_management (lit "q")
       ([lit "first chunk"] ++ chunk :: [lit "never"]) 1059
     = Return
         (grounded_prompt
            (join [nl] [lit "first chunk"; take 134 chunk]) (lit "q")).
Proof.
  intros chunk sixty.
  pose proof (C9_select_context_cases (lit "q") 1059) as H.
  cbv zeta in H.
  destruct H as (_ & _ & Hfit & Hover & Hstart); [by vm_compute|].
  split.
  { etrans; [apply Hfit; by vm_compute|]. by vm_compute. }
  split.
  { destruct (Hover [lit "first chunk"] chunk [lit "never"] [] 0)
      as [Hcut _]; [by vm_compute..|].
    etrans; [apply Hcut; by vm_compute|]. by vm_compute. }
  split.
  { destruct (Hover [sixty] chunk [lit "tail"] [] 0)
      as [_ Hpast]; [by vm_compute..|].
    etrans; [apply Hpast; by vm_compute|]. by vm_compute. }
  destruct (Hstart [lit "first chunk"] chunk [lit "never"])
    as [_ Hprompt]; [by vm_compute..|].
  etrans; [exact Hprompt|]. by vm_compute.
Defined.

(** ** The hallucination heuristic *)

Import Utils.

(** C3 (counterexample).  The answer "ok" has no abstention phrase and no
    word of four letters, so its overlap ratio is taken as 0, below 0.3,
    and yet it is not flagged; and an answer is never flagged against an
    empty chunk list, whatever its overlap. *)
Lemma C3_no_words_or_no_chunks_not_flagged :
  (abstains (lit "ok") = false
   /\ (overlap_ratio (answer_words_of (lit "ok"))
         (context_words_of [lit "The cat sat on the mat."]) < 3 # 10)%Q
   /\ detect_hallucination (lit "ok") [lit "The cat sat on the mat."] = false)
  /\ (abstains (lit "Quantum entanglement") = false
      /\ (overlap_ratio (answer_words_of (lit "Quantum entanglement"))
            (context_words_of []) < 3 # 10)%Q
      /\ detect_hallucination (lit "Quantum entanglement") [] = false).
Proof. by vm_compute. Qed.

Lemma Qltb_lt (p q : Q) : Qltb p q = true <-> (p < q)%Q.
Proof.
  unfold Qltb. rewrite Qlt_alt. by destruct (p ?= q)%Q.
Qed.

(** C3 (amended).  An answer that contains an abstention phrase is not
    flagged; neither is an empty answer, any answer against an empty chunk
    list, or an answer without a word of four letters.  In every other
    case the answer is flagged exactly when the overlap ratio
    [|answerWords ∩ contextWords| / |answerWords|] is below 3/10. *)
Theorem C3_detect_hallucination_cases (answer : str) (context_chunks : list str) :
  let answer_words := answer_words_of answer in
  let context_words := context_words_of context_chunks in
  (abstains answer = true ->
   detect_hallucination answer context_chunks = false)
  /\ (answer = [] \/ context_chunks = [] \/ answer_words = ∅ ->
      detect_hallucination answer context_chunks = false)
  /\ (abstains answer = false -> answer <> [] -> context_chunks <> [] ->
      answer_words <> ∅ ->
      overlap_ratio answer_words context_words
      = Qmake (Z.of_nat (size (answer_words ∩ context_words)))
          (Pos.of_nat (size answer_words))
      /\ (detect_hallucination answer context_chunks = true <->
          (overlap_ratio answer_words context_words < 3 # 10)%Q)).
Proof.
  intros answer_words context_words.
  unfold detect_hallucination.
  fold (abstains answer) (answer_words_of answer)
    (context_words_of context_chunks).
  fold answer_words context_words.
  split; [|split].
  - intros ->. by destruct (negb (nonempty answer) || _).
  - intros [-> | [-> | Hw]]; [done|by rewrite orb_true_r|].
    destruct (negb (nonempty answer) || _); [done|].
    destruct (abstains answer); [done|].
    by rewrite bool_decide_eq_true_2.
  - intros -> Ha Hc Hw.
    apply nonempty_true in Ha, Hc. rewrite Ha, Hc. cbn [negb orb].
    rewrite bool_decide_eq_false_2 by done.
    split.
    + unfold overlap_ratio.
      replace (0 <? size answer_words)%nat with true; [done|].
      symmetry. apply Nat.ltb_lt.
      destruct (decide (size answer_words = 0%nat)) as [E|]; [|lia].
      by apply size_empty_iff, leibniz_equiv in E.
    + rewrite <- Qltb_lt.
      by destruct (Qltb (overlap_ratio answer_words context_words) (3 # 10)).
Qed.

(** The witness: the two examples of the specification. *)
Lemma C3_detect_hallucination_cases_witness :
  detect_hallucination (lit "Quantum entanglement powers the engine.")
    [lit "The cat sat on the mat."] = true
  /\ detect_hallucination
       (lit "I cannot answer this question based on the provided context.")
       [lit "The cat sat on the mat."] = false.
Proof.
  pose proof (C3_detect_hallucination_cases
                (lit "Quantum entanglement powers the engine.")
                [lit "The cat sat on the mat."]) as (_ & _ & H1).
  pose proof (C3_detect_hallucination_cases
                (lit "I cannot answer this question based on the provided context.")
                [lit "The cat sat on the mat."]) as (H2 & _).
  split.
  - destruct H1 as [_ H1]; [compute_done ..|]. apply H1. by vm_compute.
  - apply H2. by vm_compute.
Defined.

(** ** The circuit breaker *)

Import OpenRouter.

Section BreakerFacts.

Context {S A : Type} `{Clock S}.
Implicit Types (cb : CircuitBreaker) (func : S -> outcome A * S) (s : S).

Lemma state_not_open cb s : _state cb <> OPEN -> state cb s = (_state cb, cb).
Proof. unfold state. by destruct (_state cb), (last_failure_time cb). Qed.

(** The inspection either leaves the breaker alone or promotes it. *)
Lemma state_cases cb s :
  state cb s = (_state cb, cb)
  \/ (_state cb = OPEN /\ state cb s = (HALF_OPEN, set_state HALF_OPEN cb)).
Proof.
  unfold state.
  destruct (_state cb) eqn:E, (last_failure_time cb) as [t|]; auto.
  destruct (negb (t =? 0)); auto.
  destruct (recovery_timeout cb <=? time_time s - t); auto.
Qed.

(** Once the timeout has passed the inspection promotes OPEN to
    HALF_OPEN. *)
Lemma state_after_timeout cb s t :
  _state cb = OPEN -> last_failure_time cb = Some t -> t <> 0 ->
  recovery_timeout cb <= time_time s - t ->
  state cb s = (HALF_OPEN, set_state HALF_OPEN cb).
Proof.
  intros Hst Ht Hnz Hel. unfold state. rewrite Hst, Ht.
  replace (t =? 0) with false by (symmetry; by apply Z.eqb_neq).
  cbn [negb].
  by replace (recovery_timeout cb <=? time_time s - t)
    with true by (symmetry; by apply Z.leb_le).
Qed.

Lemma state_before_timeout cb s :
  _state cb = OPEN ->
  (forall t, last_failure_time cb = Some t ->
             time_time s - t < recovery_timeout cb) ->
  state cb s = (OPEN, cb).
Proof.
  intros Hst Hel. unfold state. rewrite Hst.
  destruct (last_failure_time cb) as [t|]; [|done].
  destruct (negb (t =? 0)); [|done].
  replace (recovery_timeout cb <=? time_time s - t) with false; [done|].
  symmetry. apply Z.leb_gt. by apply Hel.
Qed.

Lemma call_open_rejects cb func s :
  _state cb = OPEN ->
  (forall t, last_failure_time cb = Some t ->
             time_time s - t < recovery_timeout cb) ->
  call cb func s = (Raise circuit_open, cb, s).
Proof.
  intros Hst Hel. unfold call.
  by rewrite (state_before_timeout cb s Hst Hel).
Qed.

Lemma call_half_open cb func s :
  (state cb s).1 = HALF_OPEN ->
  call cb func s
  = match func s with
    | (Return result, s') =>
        (Return result,
         set_failure_count 0 (set_state CLOSED (state cb s).2), s')
    | (Raise e, s') => (Raise e, _open_circuit (state cb s).2 s', s')
    end.
Proof.
  intros Hst. unfold call.
  destruct (state cb s) as [st cb1] eqn:E. simpl in Hst. subst st.
  assert (_state cb1 = HALF_OPEN) as Hcb1.
  { destruct (state_cases cb s) as [E'|[_ E']]; rewrite E in E';
      by simplify_eq. }
  rewrite bool_decide_eq_false_2 by done.
  rewrite (state_not_open cb1 s) by (by rewrite Hcb1).
  rewrite Hcb1. by rewrite bool_decide_eq_true_2.
Qed.

Lemma call_closed cb func s :
  _state cb = CLOSED ->
  call cb func s
  = match func s with
    | (Return result, s') => (Return result, cb, s')
    | (Raise e, s') =>
        (Raise e,
         (if failure_threshold cb <=? failure_count cb + 1
          then _open_circuit (set_failure_count (failure_count cb + 1) cb) s'
          else set_failure_count (failure_count cb + 1) cb),
         s')
    end.
Proof.
  intros Hst. unfold call.
  rewrite (state_not_open cb s) by (by rewrite Hst).
  rewrite Hst. rewrite bool_decide_eq_false_2 by done.
  rewrite (state_not_open cb s) by (by rewrite Hst).
  rewrite Hst. by rewrite bool_decide_eq_false_2.
Qed.

(** Every call that raises brings the breaker one failure closer to
    OPEN, and leaves its parameters alone. *)
Lemma call_raised_progress cb func s r cb' s' :
  call cb func s = (r, cb', s') -> raised r = true ->
  failure_threshold cb' = failure_threshold cb
  /\ failures_to_open cb' <= Z.max 0 (failures_to_open cb - 1).
Proof.
  intros Hcall Hr.
  destruct (_state cb) eqn:Hst.
  - rewrite call_closed in Hcall by done.
    destruct (func s) as [[v|e] s1]; injection Hcall as <- <- <-; [done|].
    unfold failures_to_open. rewrite Hst.
    destruct (failure_threshold cb <=? failure_count cb + 1) eqn:Hth;
      cbn; [lia|].
    apply Z.leb_gt in Hth. rewrite Hst. lia.
  - destruct (state_cases cb s) as [E|[_ E]].
    + unfold call in Hcall. rewrite E, Hst in Hcall.
      rewrite bool_decide_eq_true_2 in Hcall by done.
      injection Hcall as <- <- <-.
      unfold failures_to_open. rewrite Hst. lia.
    + rewrite call_half_open in Hcall by (by rewrite E).
      rewrite E in Hcall.
      destruct (func s) as [[v|e] s1]; injection Hcall as <- <- <-; [done|].
      unfold failures_to_open. cbn. rewrite Hst. lia.
  - rewrite call_half_open in Hcall
      by (by rewrite state_not_open by (by rewrite Hst)).
    rewrite state_not_open in Hcall by (by rewrite Hst).
    destruct (func s) as [[v|e] s1]; injection Hcall as <- <- <-; [done|].
    unfold failures_to_open. cbn. rewrite Hst. lia.
Qed.

Lemma call_each_raised_progress (steps : list ((S -> outcome A * S) * S)) cb :
  forallb raised (call_each cb steps).1 = true ->
  failure_threshold (call_each cb steps).2 = failure_threshold cb
  /\ failures_to_open (call_each cb steps).2
     <= Z.max 0 (failures_to_open cb - Z.of_nat (length steps)).
Proof.
  revert cb. induction steps as [|[func s] steps IH]; intros cb Hall.
  - cbn. unfold failures_to_open.
    destruct (_state cb); lia.
  - cbn [call_each] in *.
    destruct (call cb func s) as [[r cb1] s1] eqn:Hcall.
    destruct (call_each cb1 steps) as [rs cb2] eqn:Hrest.
    cbn in Hall. apply andb_true_iff in Hall as [Hr Hrs].
    destruct (call_raised_progress _ _ _ _ _ _ Hcall Hr) as [Hth Hprog].
    specialize (IH cb1). rewrite Hrest in IH.
    destruct (IH Hrs) as [Hth' Hprog']. cbn in *.
    split; [congruence|]. lia.
Qed.

Lemma failures_to_open_zero cb : failures_to_open cb <= 0 -> _state cb = OPEN.
Proof. unfold failures_to_open. destruct (_state cb); [lia|done|lia]. Qed.

Lemma call_each_app (steps1 steps2 : list ((S -> outcome A * S) * S)) cb :
  call_each cb (steps1 ++ steps2)
  = ((call_each cb steps1).1 ++ (call_each (call_each cb steps1).2 steps2).1,
     (call_each (call_each cb steps1).2 steps2).2).
Proof.
  revert cb. induction steps1 as [|[func s] steps1 IH]; intros cb.
  - cbn. by destruct (call_each cb steps2).
  - cbn [app call_each]. destruct (call cb func s) as [[r cb1] s1].
    rewrite IH. destruct (call_each cb1 steps1) as [rs cb2]. cbn [fst snd].
    by destruct (call_each cb2 steps2).
Qed.

(** While the count stays below the threshold, every call on a CLOSED
    breaker invokes the operation, and a failure is only counted. *)
Lemma call_each_closed_failing (steps : list ((S -> outcome A * S) * S)) cb :
  _state cb = CLOSED ->
  Forall (fun step => raised (step.1 step.2).1 = true) steps ->
  failure_count cb + len steps < failure_threshold cb ->
  call_each cb steps
  = (map (fun step => (step.1 step.2).1) steps,
     set_failure_count (failure_count cb + len steps) cb).
Proof.
  revert cb. induction steps as [|[func s] steps IH]; intros cb Hst Hall Hlt.
  - cbn. f_equal. destruct cb. unfold set_failure_count, len. cbn. f_equal. lia.
  - apply Forall_cons in Hall as [Hr Hall]. cbn [fst snd] in Hr.
    assert (len ((func, s) :: steps) = 1 + len steps) as Hlen
      by (unfold len; cbn [length]; lia).
    rewrite Hlen in *. pose proof (len_nonneg steps) as Hpos.
    cbn [call_each map fst snd]. rewrite call_closed by done.
    destruct (func s) as [[v|e] s1]; [done|]. cbn [fst].
    replace (failure_threshold cb <=? failure_count cb + 1) with false
      by (symmetry; apply Z.leb_gt; lia).
    rewrite IH; [|done|done|cbn; lia].
    f_equal. unfold set_failure_count. cbn. f_equal. lia.
Qed.

(** The failure that brings the count to the threshold opens the breaker
    and records the time read after the operation has failed. *)
Lemma call_closed_trip cb func s :
  _state cb = CLOSED -> raised (func s).1 = true ->
  failure_threshold cb <= failure_count cb + 1 ->
  call cb func s
  = ((func s).1,
     _open_circuit (set_failure_count (failure_count cb + 1) cb) (func s).2,
     (func s).2).
Proof.
  intros Hst Hr Hth. rewrite call_closed by done.
  destruct (func s) as [[v|e] s1]; [done|]. cbn [fst snd].
  by replace (failure_threshold cb <=? failure_count cb + 1) with true
    by (symmetry; by apply Z.leb_le).
Qed.

End BreakerFacts.

(** C4.  For a breaker with failure threshold [T >= 1] and recovery
    timeout [R]:
    - after [T] consecutive calls that fail, starting from CLOSED, the
      stored state is OPEN;
    - more precisely, on a CLOSED breaker whose count is [T - n], [n]
      consecutive calls whose operation fails all invoke the operation,
      and leave the breaker OPEN with a count of [T] and, as time of the
      last failure, the clock reading taken after the last operation
      failed; the next call on that breaker, made before [R] seconds have
      passed since that reading, raises the "circuit open" error and
      changes neither the breaker nor the state the operation acts on,
      whatever the operation is: it is not invoked; and once [R] seconds
      have passed since that reading (a wall-clock time, positive),
      inspecting [state] reports HALF_OPEN and stores it;
    - the same two facts hold of every OPEN breaker, with the failure time
      it has stored;
    - a call that finds the breaker HALF_OPEN and succeeds leaves it CLOSED
      with a failure count of 0;
    - a call that finds the breaker HALF_OPEN and fails leaves it OPEN with
      the failure time set to the time of this failure, so that the
      recovery timer starts again: calls are rejected until [R] seconds
      have passed since this failure, and then [state] reports HALF_OPEN. *)
Theorem C4_circuit_breaker_transitions (T R : Z) :
  1 <= T ->
  (forall (S A : Type) (clock : Clock S) (cb : CircuitBreaker)
          (steps : list ((S -> outcome A * S) * S)),
      failure_threshold cb = T -> _state cb = CLOSED ->
      0 <= failure_count cb ->
      Z.of_nat (length steps) = T ->
      forallb raised (call_each cb steps).1 = true ->
      _state (call_each cb steps).2 = OPEN)
  /\ (forall (S A : Type) (clock : Clock S) (cb : CircuitBreaker)
             (earlier : list ((S -> outcome A * S) * S))
             (func : S -> outcome A * S) (s : S),
         failure_threshold cb = T -> recovery_timeout cb = R ->
         _state cb = CLOSED ->
         failure_count cb + len earlier + 1 = T ->
         Forall (fun step => raised (step.1 step.2).1 = true) earlier ->
         raised (func s).1 = true ->
         let run := call_each cb (earlier ++ [(func, s)]) in
         let tripped := run.2 in
         let t := time_time (func s).2 in
         run.1 = map (fun step => (step.1 step.2).1) (earlier ++ [(func, s)])
         /\ _state tripped = OPEN
         /\ failure_count tripped = T
         /\ last_failure_time tripped = Some t
         /\ (forall (next : S -> outcome A * S) (s1 : S),
                time_time s1 - t < R ->
                call tripped next s1 = (Raise circuit_open, tripped, s1))
         /\ (forall s1 : S,
                0 < t -> R <= time_time s1 - t ->
                state tripped s1 = (HALF_OPEN, set_state HALF_OPEN tripped)))
  /\ (forall (S A : Type) (clock : Clock S) (cb : CircuitBreaker)
             (func : S -> outcome A * S) (s : S),
         recovery_timeout cb = R -> _state cb = OPEN ->
         (forall t, last_failure_time cb = Some t -> time_time s - t < R) ->
         call cb func s = (Raise circuit_open, cb, s))
  /\ (forall (S : Type) (clock : Clock S) (cb : CircuitBreaker) (s : S) (t : Z),
         recovery_timeout cb = R -> _state cb = OPEN ->
         last_failure_time cb = Some t -> 0 < t -> R <= time_time s - t ->
         (state cb s).1 = HALF_OPEN /\ _state (state cb s).2 = HALF_OPEN)
  /\ (forall (S A : Type) (clock : Clock S) (cb : CircuitBreaker)
             (func : S -> outcome A * S) (s s' : S) (result : A),
         (state cb s).1 = HALF_OPEN -> func s = (Return result, s') ->
         exists cb',
           call cb func s = (Return result, cb', s')
           /\ _state cb' = CLOSED /\ failure_count cb' = 0)
  /\ (forall (S A : Type) (clock : Clock S) (cb : CircuitBreaker)
             (func : S -> outcome A * S) (s s' : S) (e : exn),
         (state cb s).1 = HALF_OPEN -> func s = (@Raise A e, s') ->
         exists cb',
           call cb func s = (Raise e, cb', s')
           /\ _state cb' = OPEN
           /\ last_failure_time cb' = Some (time_time s')
           /\ (recovery_timeout cb = R ->
               (forall (next : S -> outcome A * S) (s1 : S),
                   time_time s1 - time_time s' < R ->
                   call cb' next s1 = (Raise circuit_open, cb', s1))
               /\ (forall s1 : S,
                      0 < time_time s' -> R <= time_time s1 - time_time s' ->
                      state cb' s1 = (HALF_OPEN, set_state HALF_OPEN cb')))).
Proof.
  intros HT. repeat apply conj.
  - intros S A clock cb steps Hth Hst Hcount Hlen Hall.
    destruct (call_each_raised_progress steps cb Hall) as [_ Hprog].
    apply failures_to_open_zero.
    assert (failures_to_open cb <= T); [|lia].
    unfold failures_to_open. rewrite Hst, Hth. lia.
  - intros S A clock cb earlier func s Hth HR Hst Hcount Hall Hr.
    cbv zeta. rewrite call_each_app.
    rewrite (call_each_closed_failing earlier cb) by (done || lia).
    cbn [fst snd call_each].
    set (cb1 := set_failure_count (failure_count cb + len earlier) cb).
    rewrite (call_closed_trip cb1 func s) by (done || (cbn; lia)).
    cbn [fst snd]. rewrite map_app. cbn [map fst snd].
    set (tripped :=
           _open_circuit (set_failure_count (failure_count cb1 + 1) cb1)
             (func s).2).
    assert (_state tripped = OPEN) as Hopen by done.
    assert (last_failure_time tripped = Some (time_time (func s).2)) as Ht
      by done.
    split; [done|]. split; [done|]. split; [cbn; lia|]. split; [done|].
    split.
    + intros next s1 Hel. apply call_open_rejects; [done|].
      intros t. rewrite Ht. intros [= <-]. by rewrite <- HR in Hel.
    + intros s1 Hpos Hel.
      apply (state_after_timeout tripped s1 (time_time (func s).2));
        [done|done|lia|]. by rewrite <- HR in Hel.
  - intros S A clock cb func s HR Hst Hel.
    apply call_open_rejects; [done|]. by rewrite HR.
  - intros S clock cb s t HR Hst Ht Hpos Hel.
    rewrite (state_after_timeout cb s t); [done..|lia|lia].
  - intros S A clock cb func s s' result Hst Hf.
    rewrite call_half_open, Hf by done. by eexists.
  - intros S A clock cb func s s' e Hst Hf.
    rewrite call_half_open, Hf by done.
    set (cb' := _open_circuit (state cb s).2 s').
    assert (recovery_timeout cb' = recovery_timeout cb) as Hrec.
    { subst cb'. cbn.
      destruct (state_cases cb s) as [E|[_ E]]; by rewrite E. }
    exists cb'. split; [done|]. split; [done|]. split; [done|].
    intros HR. split.
    + intros next s1 Hel. apply call_open_rejects; [done|].
      intros t [= <-]. by rewrite Hrec, HR.
    + intros s1 Hpos Hel.
      apply (state_after_timeout cb' s1 (time_time s')); [done|done|lia|].
      by rewrite Hrec, HR.
Qed.

(** The witness: a breaker with threshold 2 and timeout 60, tripped by two
    failures at the clock readings 1000 and 1001. *)
Lemma C4_circuit_breaker_transitions_witness :
  let failing (w : World) := (@Raise unit (OtherException 0), w) in
  let succeeding (w : World) := (Return tt, w) in
  let tripped :=
    (call_each (CircuitBreaker_init 2 60)
       [(failing, mkWorld 1000 0); (failing, mkWorld 1001 0)]).2 in
  _state tripped = OPEN
  /\ last_failure_time tripped = Some 1001
  /\ call tripped succeeding (mkWorld 1030 0)
     = (Raise circuit_open, tripped, mkWorld 1030 0)
  /\ (state tripped (mkWorld 1061 0)).1 = HALF_OPEN
  /\ (exists cb', call tripped succeeding (mkWorld 1061 0)
                  = (Return tt, cb', mkWorld 1061 0)
                  /\ _state cb' = CLOSED /\ failure_count cb' = 0)
  /\ (exists cb', call tripped failing (mkWorld 1061 0)
                  = (Raise (OtherException 0), cb', mkWorld 1061 0)
                  /\ _state cb' = OPEN
                  /\ last_failure_time cb' = Some 1061
                  /\ call cb' succeeding (mkWorld 1100 0)
                     = (Raise circuit_open, cb', mkWorld 1100 0)
                  /\ (state cb' (mkWorld 1121 0)).1 = HALF_OPEN).
Proof.
  intros failing succeeding tripped.
  destruct (C4_circuit_breaker_transitions 2 60 ltac:(lia))
    as (Hopen & Htrip & Hreject & Hhalf & Hsucc & Hfail).
  destruct (Htrip World unit _ (CircuitBreaker_init 2 60)
              [(failing, mkWorld 1000 0)] failing (mkWorld 1001 0))
    as (_ & Hst & _ & Htime & Hnext & Hinspect);
    [reflexivity|reflexivity|reflexivity|reflexivity
    |by repeat constructor|reflexivity|].
  split.
  { apply (Hopen World unit _ (CircuitBreaker_init 2 60)); by vm_compute. }
  split; [exact Htime|].
  split.
  { apply Hreject; [done|exact Hst|].
    intros t Ht. assert (Some t = Some 1001) as [= ->] by (by rewrite <- Ht).
    by vm_compute. }
  split.
  { eapply proj1, (Hhalf World _ tripped (mkWorld 1061 0) 1001);
      [done|exact Hst|exact Htime|lia|by vm_compute]. }
  split.
  - apply Hsucc; by vm_compute.
  - destruct (Hfail World unit _ tripped failing (mkWorld 1061 0)
                (mkWorld 1061 0) (OtherException 0))
      as (cb' & Hcall & Hst' & Ht' & Hagain); [by vm_compute..|].
    destruct (Hagain eq_refl) as [Hrej' Hhalf'].
    exists cb'. split; [exact Hcall|]. split; [exact Hst'|].
    split; [exact Ht'|]. split.
    + apply (Hrej' succeeding (mkWorld 1100 0)). by vm_compute.
    + rewrite (Hhalf' (mkWorld 1121 0)); [done|by vm_compute..].
Defined.

(** ** The gateway client *)

Section ClientFacts.

Variable config : Config.
Variable endpoint : nat -> str -> PostResult.

Implicit Types (rl : RateLimiter) (w : World) (prompt : str).

(** A limiter that allows at least one call never indexes an empty
    list: [wait_if_needed] returns, and makes no POST. *)
Lemma wait_if_needed_returns rl w :
  0 < max_calls rl ->
  exists rl' w',
    wait_if_needed rl w = (Return tt, rl', w')
    /\ max_calls rl' = max_calls rl /\ posts w' = posts w.
Proof.
  intros Hmax. unfold wait_if_needed. cbn [set_calls max_calls calls].
  destruct (max_calls rl <=? len (within_window rl (now w) (calls rl)))
    eqn:Hfull; [|eexists _, _; split; [reflexivity|done]].
  apply Z.leb_le in Hfull.
  destruct (within_window rl (now w) (calls rl)) as [|first cs] eqn:E.
  { unfold len in Hfull. simpl in Hfull. lia. }
  case_match; eexists _, _; (split; [reflexivity|done]).
Qed.

(** One attempt makes one POST. *)
Lemma attempt_request_posts prompt attempt w :
  posts (attempt_request config endpoint prompt attempt w).2
  = Datatypes.S (posts w).
Proof.
  unfold attempt_request, post, on_exception.
  destruct (endpoint (posts w) prompt) as [status body| | | |]; cbn;
    repeat (case_match; cbn; try done).
Qed.

(** A 5xx answer ends the loop on the last attempt only. *)
Lemma attempt_request_503 prompt attempt w body :
  endpoint (posts w) prompt = Response 503 body ->
  (attempt_request config endpoint prompt attempt w).1
  = if attempt <? MAX_RETRIES config - 1 then NextAttempt
    else ReturnValue None.
Proof.
  intros E. unfold attempt_request, post. rewrite E. cbn.
  by destruct (attempt <? MAX_RETRIES config - 1).
Qed.

Lemma request_loop_all_503 prompt (n first : nat) w :
  Z.of_nat (first + n) = MAX_RETRIES config ->
  (forall k, (posts w <= k < posts w + n)%nat ->
             exists body, endpoint k prompt = Response 503 body) ->
  exists w',
    request_loop config endpoint prompt (map Z.of_nat (seq first n)) w
    = (None, w')
    /\ posts w' = (posts w + n)%nat.
Proof.
  revert first w. induction n as [|n IH]; intros first w Hmax Hall.
  - exists w. split; [done|lia].
  - cbn [seq map request_loop].
    destruct (Hall (posts w)) as [body Hbody]; [lia|].
    pose proof (attempt_request_503 prompt (Z.of_nat first) w body Hbody)
      as Hctl.
    pose proof (attempt_request_posts prompt (Z.of_nat first) w) as Hposts.
    destruct (attempt_request config endpoint prompt (Z.of_nat first) w)
      as [ctl w1].
    cbn in Hctl, Hposts. subst ctl.
    destruct (Z.of_nat first <? MAX_RETRIES config - 1) eqn:Hlast.
    + apply Z.ltb_lt in Hlast.
      destruct (IH (Datatypes.S first) w1) as (w' & Hloop & Hw').
      * lia.
      * intros k Hk. apply Hall. lia.
      * exists w'. split; [done|lia].
    + apply Z.ltb_ge in Hlast.
      assert (n = 0%nat) as -> by lia.
      exists w1. split; [done|lia].
Qed.

(** The loop returns whatever the endpoint does. *)
Lemma _make_request_returns prompt rl w :
  0 < max_calls rl ->
  exists answer_text rl' w',
    _make_request config endpoint prompt (rl, w)
    = (Return answer_text, (rl', w'))
    /\ max_calls rl' = max_calls rl.
Proof.
  intros Hmax. unfold _make_request.
  destruct (wait_if_needed_returns rl w Hmax) as (rl' & w' & -> & Hrl & _).
  destruct (request_loop config endpoint prompt
              (range (MAX_RETRIES config)) w') as [a w''].
  by eexists _, _, _.
Qed.

Lemma send_request_keeps_breaker (c : OpenRouterClient) prompt w :
  _state (circuit_breaker c) = CLOSED ->
  0 < max_calls (rate_limiter c) ->
  let c' := (send_request config endpoint c prompt w).1.2 in
  circuit_breaker c' = circuit_breaker c
  /\ max_calls (rate_limiter c') = max_calls (rate_limiter c).
Proof.
  intros Hst Hmax. unfold send_request.
  rewrite call_closed by done.
  destruct (_make_request_returns prompt (rate_limiter c) w Hmax)
    as (a & rl' & w' & -> & Hrl).
  done.
Qed.

Lemma send_requests_keep_breaker (prompts : list str)
    (c : OpenRouterClient) w :
  _state (circuit_breaker c) = CLOSED ->
  0 < max_calls (rate_limiter c) ->
  circuit_breaker (send_requests config endpoint c prompts w).1.2
  = circuit_breaker c.
Proof.
  revert c w. induction prompts as [|prompt prompts IH]; intros c w Hst Hmax;
    [done|].
  cbn [send_requests].
  destruct (send_request_keeps_breaker c prompt w Hst Hmax) as [Hcb Hrl].
  destruct (send_request config endpoint c prompt w) as [[a c1] w1].
  cbn in Hcb, Hrl.
  specialize (IH c1 w1). rewrite Hcb, Hrl in IH.
  specialize (IH Hst Hmax).
  destruct (send_requests config endpoint c1 prompts w1) as [[answers c2] w2].
  done.
Qed.

End ClientFacts.

(** C5.  When every POST made during one [_make_request] is answered with
    status 503, the request is posted exactly [MAX_RETRIES] times and
    [_make_request] returns [None] without raising.  ([MAX_RETRIES] is a
    count, not negative; the rate limiter allows at least one call, as the
    client's does.) *)
Theorem C5_all_503_posts_max_retries_times
    (config : Config) (endpoint : nat -> str -> PostResult)
    (prompt : str) (rl : RateLimiter) (w : World) :
  0 <= MAX_RETRIES config ->
  0 < max_calls rl ->
  (forall k,
      (posts w <= k < posts w + Z.to_nat (MAX_RETRIES config))%nat ->
      exists body, endpoint k prompt = Response 503 body) ->
  exists rl' w',
    _make_request config endpoint prompt (rl, w) = (Return None, (rl', w'))
    /\ Z.of_nat (posts w' - posts w) = MAX_RETRIES config.
Proof.
  intros Hretries Hmax Hall. unfold _make_request.
  destruct (wait_if_needed_returns rl w Hmax) as (rl' & w0 & -> & _ & Hposts).
  destruct (request_loop_all_503 config endpoint prompt
              (Z.to_nat (MAX_RETRIES config)) 0 w0)
    as (w' & Hloop & Hw'); [lia|by rewrite Hposts|].
  unfold range. rewrite Hloop.
  exists rl', w'. split; [done|lia].
Qed.

(** The witness: three retries against an endpoint that always answers
    503. *)
Lemma C5_all_503_posts_max_retries_times_witness :
  exists rl' w',
    _make_request (mkConfig 3) (fun _ _ => Response 503 Malformed)
      (lit "Hello") (RateLimiter_init 10 60, mkWorld 1000 0)
    = (Return None, (rl', w'))
    /\ Z.of_nat (posts w' - 0) = 3.
Proof.
  apply (C5_all_503_posts_max_retries_times (mkConfig 3)
           (fun _ _ => Response 503 Malformed) (lit "Hello")
           (RateLimiter_init 10 60) (mkWorld 1000 0)).
  - by vm_compute.
  - by vm_compute.
  - intros k _. by exists Malformed.
Defined.

(** C10.  Whatever the endpoint does (any status, no choices, a malformed
    body, a timeout, a connection error or any other exception),
    [_make_request] returns a value and does not raise.  Hence a CLOSED
    breaker sees no failure: after any number of consecutive
    [send_request] calls the breaker of the client is the one it started
    with, CLOSED and with the same failure count (0 for a new client). *)
Theorem C10_make_request_never_trips_breaker
    (config : Config) (endpoint : nat -> str -> PostResult)
    (c : OpenRouterClient) (prompts : list str) (w : World) :
  _state (circuit_breaker c) = CLOSED ->
  0 < max_calls (rate_limiter c) ->
  (forall prompt rl w0,
      max_calls rl = max_calls (rate_limiter c) ->
      exists answer_text s',
        _make_request config endpoint prompt (rl, w0)
        = (Return answer_text, s'))
  /\ (let c' := (send_requests config endpoint c prompts w).1.2 in
      circuit_breaker c' = circuit_breaker c
      /\ _state (circuit_breaker c') = CLOSED
      /\ failure_count (circuit_breaker c') = failure_count (circuit_breaker c)).
Proof.
  intros Hst Hmax. split.
  - intros prompt rl w0 Hrl.
    destruct (_make_request_returns config endpoint prompt rl w0)
      as (a & rl' & w' & Hreq & _); [by rewrite Hrl|].
    by eexists _, _.
  - cbv zeta.
    rewrite (send_requests_keep_breaker config endpoint prompts c w Hst Hmax).
    done.
Qed.

(** The witness: a new client, and an endpoint that fails in a different
    way at every attempt; seven requests leave the breaker CLOSED at 0. *)
Lemma C10_make_request_never_trips_breaker_witness :
  let config := mkConfig 3 in
  let endpoint (k : nat) (_ : str) :=
    match (k mod 4)%nat with
    | 0%nat => Response 503 Malformed
    | 1%nat => Timeout
    | 2%nat => Response 200 NoChoices
    | _ => ConnectionError
    end in
  let c' :=
    (send_requests config endpoint (OpenRouterClient_init config)
       (replicate 7 (lit "Hello")) (mkWorld 1000 0)).1.2 in
  _state (circuit_breaker c') = CLOSED
  /\ failure_count (circuit_breaker c') = 0.
Proof.
  intros config endpoint c'.
  destruct (C10_make_request_never_trips_breaker config endpoint
              (OpenRouterClient_init config) (replicate 7 (lit "Hello"))
              (mkWorld 1000 0)) as (_ & _ & Hst & Hcount);
    [by vm_compute..|].
  split; [exact Hst|exact Hcount].
Defined.

(** ** The ingestion pipeline *)

Import Ingest.

Section IngestFacts.

Variable env : Env.

Lemma extracted_app (tr1 tr2 : list Event) :
  extracted (tr1 ++ tr2) = extracted tr1 ++ extracted tr2.
Proof. apply omap_app. Qed.

(** One iteration attempts one extraction, of the URL of its entry. *)
Lemma process_url_extracted (st : Loop) (it : nat * UrlData) :
  extracted (trace (process_url env st it))
  = extracted (trace st) ++ [url it.2].
Proof.
  destruct it as [i url_data]. unfold process_url.
  destruct (extract_and_chunk_url env (extractions st) (url url_data))
    as [[[|c cs]|]|e];
    destruct ((Z.of_nat i + 1) mod 10 =? 0); cbn [trace];
    rewrite ?extracted_app; cbn; by rewrite ?app_nil_r.
Qed.

Lemma loop_extracted (items : list (nat * UrlData)) (st : Loop) :
  extracted (trace (fold_left (process_url env) items st))
  = extracted (trace st) ++ map (fun it => url it.2) items.
Proof.
  revert st. induction items as [|it items IH]; intros st; cbn [fold_left map].
  - by rewrite app_nil_r.
  - rewrite IH, process_url_extracted. by rewrite <- app_assoc.
Qed.

Lemma enumerate_urls (entries : list UrlData) :
  map (fun it : nat * UrlData => url it.2) (enumerate entries)
  = map url entries.
Proof.
  unfold enumerate.
  assert (forall (f : nat -> nat) (l : list UrlData),
             map (fun it : nat * UrlData => url it.2)
                 (imap (fun i x => (f i, x)) l) = map url l) as Hgen.
  { intros f l. revert f. induction l as [|x l IH]; intros f; [done|].
    cbn. f_equal. apply (IH (f ∘ Datatypes.S)). }
  apply (Hgen (fun i => i)).
Qed.

(** The extractions of a resumed run: the sitemap entries, in order,
    whose URL is not in the checkpoint. *)
Lemma resume_extracted (sitemap_url : option str) (skip_duplicates : bool)
    (entries : list UrlData) :
  config_valid env = true ->
  load_sitemap_urls env (target_sitemap_url env sitemap_url) = Return entries ->
  extracted (run_ingestion_pipeline env sitemap_url skip_duplicates true).2
  = List.filter
      (fun u => bool_decide (u ∉ processed_urls (load_progress env)))
      (map url entries).
Proof.
  intros Hcfg Hload. unfold run_ingestion_pipeline.
  rewrite Hcfg, Hload. cbn [negb].
  set (todo := List.filter _ entries).
  set (st := fold_left _ _ _).
  assert (extracted (trace st) = map url todo) as Hst.
  { subst st. rewrite loop_extracted. cbn. apply enumerate_urls. }
  assert (map url todo
          = List.filter
              (fun u => bool_decide (u ∉ processed_urls (load_progress env)))
              (map url entries)) as Htodo.
  { subst todo. clear. induction entries as [|x l IH]; [done|].
    cbn. case_bool_decide; cbn; by rewrite IH. }
  rewrite <- Htodo, <- Hst.
  destruct (nonempty (all_chunks st)); cbn [negb snd].
  - destruct (embed_and_store env (all_chunks st) skip_duplicates);
      cbn [snd]; rewrite !extracted_app; cbn; by rewrite !app_nil_r.
  - rewrite extracted_app. cbn. by rewrite app_nil_r.
Qed.

End IngestFacts.

(** C7.  In a run with [resume=true] whose checkpoint lists the URLs [A]
    and [B] as processed and whose sitemap has the entries [A], [B], [C]:
    extraction is attempted for no URL of the checkpoint's
    [processed_urls], hence for no URL other than [C]; and it is attempted
    for [C], once, when [C] is not itself in the checkpoint. *)
Theorem C7_resume_extracts_only_unprocessed
    (env : Env) (sitemap_url : option str) (skip_duplicates : bool)
    (entries : list UrlData) (progress : Progress) (A B C : str) :
  config_valid env = true ->
  load_sitemap_urls env (target_sitemap_url env sitemap_url) = Return entries ->
  checkpoint env = Some progress ->
  map url entries = [A; B; C] ->
  A ∈ processed_urls progress ->
  B ∈ processed_urls progress ->
  let attempts :=
    extracted (run_ingestion_pipeline env sitemap_url skip_duplicates true).2 in
  (forall u, u ∈ attempts -> (u ∉ processed_urls progress) /\ u = C)
  /\ (C ∉ processed_urls progress -> attempts = [C]).
Proof.
  intros Hcfg Hload Hcp Hurls HA HB attempts.
  assert (attempts
          = List.filter (fun u => bool_decide (u ∉ processed_urls progress))
              [A; B; C]) as ->.
  { subst attempts. rewrite (resume_extracted env _ _ entries) by done.
    unfold load_progress. by rewrite Hcp, Hurls. }
  cbn [List.filter].
  rewrite (bool_decide_eq_false_2 (A ∉ _)) by (by intros []).
  rewrite (bool_decide_eq_false_2 (B ∉ _)) by (by intros []).
  split.
  - intros u Hu. case_bool_decide; [|by apply elem_of_nil in Hu].
    apply list_elem_of_singleton in Hu as ->. done.
  - intros HC. by rewrite bool_decide_eq_true_2.
Qed.

(** The witness: the checkpoint lists a.html and b.html; only c.html is
    extracted. *)
Lemma C7_resume_extracts_only_unprocessed_witness :
  let entry u := mkUrlData (lit u) None None None in
  let env :=
    mkEnv true (lit "https://example.com/sitemap.xml")
      (fun _ => Return [entry "a.html"; entry "b.html"; entry "c.html"])
      (Some (mkProgress [lit "a.html"; lit "b.html"] []))
      (fun _ _ => Return None)
      (fun _ _ => Return tt) in
  extracted (run_ingestion_pipeline env None true true).2 = [lit "c.html"].
Proof.
  intros entry env.
  apply (C7_resume_extracts_only_unprocessed env None true
           [entry "a.html"; entry "b.html"; entry "c.html"]
           (mkProgress [lit "a.html"; lit "b.html"] [])
           (lit "a.html") (lit "b.html") (lit "c.html")); try done.
  - cbn. set_solver.
  - cbn. set_solver.
  - cbn. compute_done.
Defined.

(** ** The vector store *)

Import QdrantStorage.

Section StorageFacts.

Variable sha256_hexdigest : str -> str.

Implicit Types (c : gmap Z PointStruct) (text url h : str).

(** The string that is hashed determines the text when the URL is fixed,
    and the URL when the text is fixed. *)
Lemma hash_input_text_injective url text text' :
  url ++ lit "::" ++ text = url ++ lit "::" ++ text' -> text = text'.
Proof. intros E. by do 2 apply app_inv_head in E. Qed.

Lemma hash_input_url_injective url url' text :
  url ++ lit "::" ++ text = url' ++ lit "::" ++ text -> url = url'.
Proof. rewrite !app_assoc. intros E. by do 2 apply app_inv_tail in E. Qed.

(** When both change, by one character each, the hashed string can be the
    same: the separator can also be read from the components. *)
Lemma hash_input_separator_ambiguity :
  _generate_content_hash sha256_hexdigest (lit ":b") (lit "a:")
  = _generate_content_hash sha256_hexdigest (lit "b") (lit "a::").
Proof. reflexivity. Qed.

Lemma range_step_one (batch_size : Z) :
  0 < batch_size -> range_step 1 batch_size = Return [0].
Proof.
  intros Hpos. unfold range_step.
  replace (batch_size =? 0) with false by (symmetry; apply Z.eqb_neq; lia).
  replace (0 <? batch_size) with true by (symmetry; apply Z.ltb_lt; lia).
  replace ((1 + batch_size - 1) / batch_size) with 1; [done|].
  replace (1 + batch_size - 1) with batch_size by lia.
  symmetry. apply Z.div_same. lia.
Qed.

(** Storing one chunk with [skip_duplicates=true]. *)
Lemma store_one c text (embedding : list Q) (metadata : Metadata)
    (batch_size i : Z) :
  let h := _generate_content_hash sha256_hexdigest text
             (get (m_url metadata) []) in
  point_id_of h = Return i -> 0 < batch_size ->
  store_embeddings sha256_hexdigest c [text] [embedding] [metadata]
    batch_size true
  = (Return tt,
     if _check_duplicate c h then c
     else <[i := mkPointStruct i embedding
                   (mkPayload text (get (m_url metadata) [])
                      (get (m_chunk_id metadata) [])
                      (get (m_position metadata) 0)
                      (get (m_title metadata) [])
                      (get (m_char_count metadata) 0) h)]> c).
Proof.
  intros h Hid Hpos. unfold store_embeddings.
  cbn [length Nat.eqb negb orb zip zip_with for_loop prepare_point andb].
  fold h. destruct (_check_duplicate c h); [done|].
  rewrite Hid. cbn [mbind outcome_bind mret outcome_ret app nonempty].
  change (len [_]) with 1. rewrite range_step_one by done.
  cbn [fold_left]. unfold slice, upsert.
  replace (Z.to_nat (0 + batch_size - 0))
    with (Datatypes.S (Z.to_nat (batch_size - 1))) by lia.
  change (Z.to_nat 0) with 0%nat. rewrite drop_0. cbn [take].
  by rewrite take_nil.
Qed.

(** Storing the same text for the same URL twice, with
    [skip_duplicates=true]: the second call changes nothing, and the
    collection holds one point with the content hash. *)
Lemma store_twice_one_point c text (e1 e2 : list Q) (m1 m2 : Metadata)
    (batch_size i : Z) :
  let h := _generate_content_hash sha256_hexdigest text (get (m_url m1) []) in
  let c1 := (store_embeddings sha256_hexdigest c [text] [e1] [m1]
               batch_size true).2 in
  let c2 := (store_embeddings sha256_hexdigest c1 [text] [e2] [m2]
               batch_size true).2 in
  get (m_url m2) [] = get (m_url m1) [] ->
  point_id_of h = Return i -> 0 < batch_size -> ids_from_hashes c ->
  c2 = c1 /\ size (points_with_hash h c2) = 1%nat /\ ids_from_hashes c2.
Proof.
  intros h c1 c2 Hurl Hid Hpos Hinv.
  assert (ids_from_hashes c1) as Hinv1.
  { subst c1. rewrite (store_one _ _ _ _ _ i) by done. cbn [snd]. fold h.
    destruct (_check_duplicate c h); [done|].
    intros j p [[<- <-] | [_ Hj]]%lookup_insert_Some; [done|by apply Hinv]. }
  assert (_check_duplicate c1 h = true) as Hdup.
  { subst c1. rewrite (store_one _ _ _ _ _ i) by done. cbn [snd]. fold h.
    destruct (_check_duplicate c h) eqn:E; [done|].
    apply bool_decide_eq_true. by apply map_Exists_insert_2_1. }
  assert (c2 = c1) as Hc2.
  { subst c2. rewrite (store_one _ _ _ _ _ i) by (by rewrite ?Hurl).
    cbn [snd]. rewrite Hurl. fold h. by rewrite Hdup. }
  rewrite Hc2. split; [done|]. split; [|done].
  apply bool_decide_eq_true in Hdup as (j & p & Hj & Hp).
  assert (j = i) as ->.
  { apply Hinv1 in Hj. rewrite Hp, Hid in Hj. by injection Hj. }
  replace (points_with_hash h c1) with ({[i := p]} : gmap Z PointStruct);
    [apply map_size_singleton|].
  apply map_eq. intros k. unfold points_with_hash.
  destruct (filter _ c1 !! k) as [q|] eqn:Hk.
  - apply map_lookup_filter_Some in Hk as [Hk Hq]. cbn in Hq.
    assert (k = i) as ->.
    { apply Hinv1 in Hk. rewrite Hq, Hid in Hk. by injection Hk. }
    rewrite lookup_singleton_eq. congruence.
  - apply lookup_singleton_None. intros <-.
    assert (filter (fun ip => p_content_hash (payload ip.2) = h) c1 !! i
            = Some p) as Hsome by (by apply map_lookup_filter_Some).
    congruence.
Qed.

End StorageFacts.

(** The hypotheses of [store_twice_one_point] can be met: an empty
    collection and a digest of 64 hexadecimal digits. *)
Example store_twice_example :
  let digest (_ : str) :=
    lit "ba7816bf8f01cfea414140de5dae2223b00361a396177a9cb410ff61f20015ad" in
  let metadata := mkMetadata (Some (lit "u")) None None None None in
  let c1 := (store_embeddings digest ∅ [lit "text"] [[]] [metadata] 64
               true).2 in
  let c2 := (store_embeddings digest c1 [lit "text"] [[]] [metadata] 64
               true).2 in
  c2 = c1 /\ size (points_with_hash (digest []) c2) = 1%nat.
Proof.
  intros digest metadata c1 c2.
  pose proof (store_twice_one_point digest ∅ (lit "text") [] [] metadata
                metadata 64 13436514500253700074) as H.
  cbv zeta in H. fold c1 in H. fold c2 in H.
  destruct H as (H1 & H2 & _).
  - reflexivity.
  - by vm_compute.
  - lia.
  - intros i p Hi. by rewrite lookup_empty in Hi.
  - split; [exact H1|exact H2].
Qed.

(* ===================================================================== *)
(** * Part III: further properties of the modelled code                   *)
(* ===================================================================== *)

(** ** The gateway client, continued *)

Section ClientMore.

Variable config : Config.
Variable endpoint : nat -> str -> PostResult.

Implicit Types (rl : RateLimiter) (w : World) (prompt : str).

Lemma wait_if_needed_posts rl w : posts (wait_if_needed rl w).2 = posts w.
Proof.
  unfold wait_if_needed. repeat case_match; done.
Qed.

Lemma request_loop_posts prompt (attempts : list Z) w :
  (posts w
   <= posts (request_loop config endpoint prompt attempts w).2
   <= posts w + length attempts)%nat.
Proof.
  revert w. induction attempts as [|attempt rest IH]; intros w;
    cbn [request_loop snd length]; [lia|].
  pose proof (attempt_request_posts config endpoint prompt attempt w) as Hp.
  destruct (attempt_request config endpoint prompt attempt w) as [[|v] w1];
    cbn [snd] in *; [|lia].
  specialize (IH w1). lia.
Qed.

Lemma _make_request_posts prompt rl w :
  (posts w
   <= posts (_make_request config endpoint prompt (rl, w)).2.2
   <= posts w + Z.to_nat (MAX_RETRIES config))%nat.
Proof.
  unfold _make_request.
  pose proof (wait_if_needed_posts rl w) as Hw.
  destruct (wait_if_needed rl w) as [[[[]|e] rl1] w1]; cbn in *; [|lia].
  pose proof (request_loop_posts prompt (range (MAX_RETRIES config)) w1) as Hl.
  destruct (request_loop _ _ _ _ w1) as [a w2]. cbn in *.
  unfold range in Hl. rewrite length_map, length_seq in Hl. lia.
Qed.

(** [call] runs the wrapped operation once, on the state it is given, or
    not at all. *)
Lemma call_invokes_at_most_once {S A : Type} `{Clock S} (cb : CircuitBreaker)
    (func : S -> outcome A * S) (s : S) :
  (call cb func s).2 = s \/ (call cb func s).2 = (func s).2.
Proof.
  unfold call.
  destruct (state cb s) as [st cb1]. case_bool_decide; [by left|].
  destruct (state cb1 s) as [st2 cb2].
  case_bool_decide; destruct (func s) as [[v|e] s1]; by right.
Qed.

End ClientMore.

(** X1.  One [send_request] costs at most [MAX_RETRIES] HTTP POSTs,
    whatever the endpoint answers and whatever the state of the breaker
    and of the rate limiter. *)
Theorem send_request_posts_bounded
    (config : Config) (endpoint : nat -> str -> PostResult)
    (c : OpenRouterClient) (prompt : str) (w : World) :
  let w' := (send_request config endpoint c prompt w).2 in
  (posts w <= posts w' <= posts w + Z.to_nat (MAX_RETRIES config))%nat.
Proof.
  cbv zeta. unfold send_request.
  pose proof (call_invokes_at_most_once (circuit_breaker c)
                (_make_request config endpoint prompt) (rate_limiter c, w))
    as Hcall.
  pose proof (_make_request_posts config endpoint prompt (rate_limiter c) w)
    as Hreq.
  destruct (call _ _ _) as [[r cb] [rl w1]].
  cbn [snd] in Hcall.
  assert (posts w <= posts w1 <= posts w + Z.to_nat (MAX_RETRIES config))%nat.
  { destruct Hcall as [E|E].
    - injection E as _ ->. lia.
    - by rewrite <- E in Hreq. }
  by destruct r.
Qed.

Section RetryLoop.

Variable config : Config.
Variable endpoint : nat -> str -> PostResult.

Implicit Types (rl : RateLimiter) (w : World) (prompt : str).

(** What one attempt does with a result that settles the request, and with
    one that does not when attempts remain. *)
Lemma attempt_request_settles prompt attempt w :
  match settles (endpoint (posts w) prompt) with
  | Some v =>
      (attempt_request config endpoint prompt attempt w).1 = ReturnValue v
      /\ now (attempt_request config endpoint prompt attempt w).2 = now w
  | None =>
      attempt < MAX_RETRIES config - 1 ->
      (attempt_request config endpoint prompt attempt w).1 = NextAttempt
  end.
Proof.
  unfold attempt_request, post, settles, on_exception.
  destruct (endpoint (posts w) prompt) as [status body| | | |]; cbn.
  - destruct (status =? 200) eqn:E200.
    + destruct body; cbn; [done| |]; intros Hlt.
      * by replace (attempt <? MAX_RETRIES config - 1) with true
          by (symmetry; by apply Z.ltb_lt).
      * by replace (attempt =? MAX_RETRIES config - 1) with false
          by (symmetry; apply Z.eqb_neq; lia).
    + destruct (status =? 429) eqn:E429.
      { apply Z.eqb_eq in E429 as ->. cbn. done. }
      destruct (status =? 401); [done|].
      destruct (status =? 400); [done|].
      destruct (status =? 403); [done|].
      destruct (status =? 404); [done|]. cbn.
      intros Hlt.
      replace (attempt <? MAX_RETRIES config - 1) with true
        by (symmetry; by apply Z.ltb_lt).
      by destruct (500 <=? status).
  - intros Hlt. by replace (attempt =? MAX_RETRIES config - 1) with false
      by (symmetry; apply Z.eqb_neq; lia).
  - intros Hlt. by replace (attempt =? MAX_RETRIES config - 1) with false
      by (symmetry; apply Z.eqb_neq; lia).
  - intros Hlt. by replace (attempt =? MAX_RETRIES config - 1) with false
      by (symmetry; apply Z.eqb_neq; lia).
  - intros Hlt. by replace (attempt =? MAX_RETRIES config - 1) with false
      by (symmetry; apply Z.eqb_neq; lia).
Qed.

Lemma request_loop_settles prompt (k n first : nat) w (v : option str) :
  (k < n)%nat ->
  Z.of_nat (first + n) = MAX_RETRIES config ->
  (forall j, (j < k)%nat -> settles (endpoint (posts w + j)%nat prompt) = None) ->
  settles (endpoint (posts w + k)%nat prompt) = Some v ->
  exists w',
    request_loop config endpoint prompt (map Z.of_nat (seq first n)) w
    = (v, w')
    /\ posts w' = (posts w + k + 1)%nat.
Proof.
  revert n first w. induction k as [|k IH]; intros n first w Hk Hmax Hpre Hfin.
  - destruct n as [|n]; [lia|]. cbn [seq map request_loop].
    pose proof (attempt_request_settles prompt (Z.of_nat first) w) as Hs.
    pose proof (attempt_request_posts config endpoint prompt (Z.of_nat first) w)
      as Hp.
    rewrite Nat.add_0_r in Hfin. rewrite Hfin in Hs. destruct Hs as [Hs _].
    destruct (attempt_request config endpoint prompt (Z.of_nat first) w)
      as [ctl w1]. cbn in Hs, Hp. subst ctl.
    exists w1. split; [done|lia].
  - destruct n as [|n]; [lia|]. cbn [seq map request_loop].
    pose proof (attempt_request_settles prompt (Z.of_nat first) w) as Hs.
    pose proof (attempt_request_posts config endpoint prompt (Z.of_nat first) w)
      as Hp.
    specialize (Hpre 0%nat ltac:(lia)) as Hnow.
    rewrite Nat.add_0_r in Hnow. rewrite Hnow in Hs.
    specialize (Hs ltac:(lia)).
    destruct (attempt_request config endpoint prompt (Z.of_nat first) w)
      as [ctl w1]. cbn in Hs, Hp. subst ctl.
    destruct (IH n (Datatypes.S first) w1) as (w' & Hloop & Hw').
    + lia.
    + lia.
    + intros j Hj. rewrite Hp.
      replace (Datatypes.S (posts w) + j)%nat
        with (posts w + Datatypes.S j)%nat by lia.
      apply Hpre. lia.
    + rewrite Hp.
      by replace (Datatypes.S (posts w) + k)%nat
        with (posts w + Datatypes.S k)%nat by lia.
    + exists w'. split; [done|lia].
Qed.

End RetryLoop.

(** X2.  [_make_request] returns at the first POST whose result settles
    the request, provided it comes within [MAX_RETRIES] attempts: the
    answer text for a 200 with a choice, [None] for a 400, 401, 403 or 404,
    which are not retried.  Every other result (a 200 without usable
    choices, 429, 5xx, any other status, any exception) leads to the next
    attempt. *)
Theorem make_request_returns_at_first_settled
    (config : Config) (endpoint : nat -> str -> PostResult)
    (prompt : str) (rl : RateLimiter) (w : World) (k : nat) (v : option str) :
  0 < max_calls rl ->
  Z.of_nat k < MAX_RETRIES config ->
  (forall j, (j < k)%nat -> settles (endpoint (posts w + j)%nat prompt) = None) ->
  settles (endpoint (posts w + k)%nat prompt) = Some v ->
  exists rl' w',
    _make_request config endpoint prompt (rl, w) = (Return v, (rl', w'))
    /\ posts w' = (posts w + k + 1)%nat.
Proof.
  intros Hmax Hk Hpre Hfin. unfold _make_request.
  destruct (wait_if_needed_returns rl w Hmax) as (rl' & w0 & -> & _ & Hposts).
  destruct (request_loop_settles config endpoint prompt k
              (Z.to_nat (MAX_RETRIES config)) 0 w0 v)
    as (w' & Hloop & Hw'); [lia|lia|by rewrite Hposts|by rewrite Hposts|].
  unfold range. rewrite Hloop.
  exists rl', w'. split; [done|lia].
Qed.

(** The witness: a timeout, a 503, then a 401: three POSTs, no answer, and
    the two attempts that were left are not made. *)
Lemma make_request_returns_at_first_settled_witness :
  let endpoint (k : nat) (_ : str) :=
    match k with
    | 0%nat => Timeout
    | 1%nat => Response 503 Malformed
    | _ => Response 401 Malformed
    end in
  exists rl' w',
    _make_request (mkConfig 5) endpoint (lit "Hello")
      (RateLimiter_init 10 60, mkWorld 1000 0)
    = (Return None, (rl', w'))
    /\ posts w' = 3%nat.
Proof.
  intros endpoint.
  apply (make_request_returns_at_first_settled (mkConfig 5) endpoint
           (lit "Hello") (RateLimiter_init 10 60) (mkWorld 1000 0) 2 None).
  - by vm_compute.
  - by vm_compute.
  - intros [|[|j]] Hj; [done|done|lia].
  - done.
Defined.

Section Backoff.

Variable config : Config.
Variable endpoint : nat -> str -> PostResult.

Implicit Types (rl : RateLimiter) (w : World) (prompt : str).

(** A limiter without recorded calls lets the request through at once. *)
Lemma wait_if_needed_fresh rl w :
  0 < max_calls rl -> calls rl = [] ->
  wait_if_needed rl w = (Return tt, set_calls [now w] rl, w).
Proof.
  intros Hmax Hcalls. unfold wait_if_needed, within_window.
  rewrite Hcalls. cbn.
  by replace (max_calls rl <=? len []) with false
    by (symmetry; apply Z.leb_gt; unfold len; simpl; lia).
Qed.

Lemma attempt_request_429 prompt attempt w body :
  endpoint (posts w) prompt = Response 429 body ->
  attempt_request config endpoint prompt attempt w
  = (NextAttempt, mkWorld (now w + 2 ^ attempt) (Datatypes.S (posts w))).
Proof.
  intros E. unfold attempt_request, post, sleep. rewrite E. cbn.
  by rewrite Z.mul_1_r.
Qed.

Lemma attempt_request_503_world prompt attempt w body :
  endpoint (posts w) prompt = Response 503 body ->
  attempt_request config endpoint prompt attempt w
  = if attempt <? MAX_RETRIES config - 1
    then (NextAttempt,
          mkWorld (now w + 2 ^ attempt) (Datatypes.S (posts w)))
    else (ReturnValue None, mkWorld (now w) (Datatypes.S (posts w))).
Proof.
  intros E. unfold attempt_request, post, sleep. rewrite E. cbn.
  destruct (attempt <? MAX_RETRIES config - 1); [|done].
  by rewrite Z.mul_1_r.
Qed.

(** A 429 is followed by a sleep of [2^attempt] seconds on every attempt,
    the last one included. *)
Lemma request_loop_all_429 prompt (n first : nat) w :
  (forall k, (posts w <= k < posts w + n)%nat ->
             exists body, endpoint k prompt = Response 429 body) ->
  exists w',
    request_loop config endpoint prompt (map Z.of_nat (seq first n)) w
    = (None, w')
    /\ posts w' = (posts w + n)%nat
    /\ now w' = now w + (2 ^ Z.of_nat (first + n) - 2 ^ Z.of_nat first).
Proof.
  revert first w. induction n as [|n IH]; intros first w Hall.
  - exists w. rewrite !Nat.add_0_r. cbn. repeat split; lia.
  - cbn [seq map request_loop].
    destruct (Hall (posts w)) as [body Hbody]; [lia|].
    rewrite (attempt_request_429 _ _ _ _ Hbody).
    destruct (IH (Datatypes.S first)
                (mkWorld (now w + 2 ^ Z.of_nat first) (Datatypes.S (posts w))))
      as (w' & Hloop & Hposts & Hnow).
    { intros k Hk. apply Hall. cbn in Hk. lia. }
    exists w'. rewrite Hloop. cbn [posts now] in *.
    split; [done|]. split; [lia|].
    rewrite Hnow.
    replace (Z.of_nat (first + Datatypes.S n))
      with (Z.of_nat (Datatypes.S first + n)) by lia.
    replace (Z.of_nat (Datatypes.S first)) with (Z.succ (Z.of_nat first))
      by lia.
    rewrite (Z.pow_succ_r 2 (Z.of_nat first)) by lia. lia.
Qed.

(** A 5xx is followed by a sleep of [2^attempt] seconds on every attempt
    but the last. *)
Lemma request_loop_all_503_backoff prompt (n first : nat) w :
  Z.of_nat (first + Datatypes.S n) = MAX_RETRIES config ->
  (forall k, (posts w <= k < posts w + Datatypes.S n)%nat ->
             exists body, endpoint k prompt = Response 503 body) ->
  now (request_loop config endpoint prompt
         (map Z.of_nat (seq first (Datatypes.S n))) w).2
  = now w + (2 ^ Z.of_nat (first + n) - 2 ^ Z.of_nat first).
Proof.
  revert first w. induction n as [|n IH]; intros first w Hmax Hall.
  - cbn [seq map request_loop].
    destruct (Hall (posts w)) as [body Hbody]; [lia|].
    rewrite (attempt_request_503_world _ _ _ _ Hbody).
    replace (Z.of_nat first <? MAX_RETRIES config - 1) with false
      by (symmetry; apply Z.ltb_ge; lia).
    cbn [snd now]. rewrite Nat.add_0_r. lia.
  - remember (Datatypes.S n) as m. cbn [seq map request_loop].
    destruct (Hall (posts w)) as [body Hbody]; [lia|].
    rewrite (attempt_request_503_world _ _ _ _ Hbody).
    replace (Z.of_nat first <? MAX_RETRIES config - 1) with true
      by (symmetry; apply Z.ltb_lt; lia).
    subst m. rewrite IH.
    + cbn [now].
      replace (Z.of_nat (first + Datatypes.S n))
        with (Z.of_nat (Datatypes.S first + n)) by lia.
      replace (Z.of_nat (Datatypes.S first)) with (Z.succ (Z.of_nat first))
        by lia.
      rewrite (Z.pow_succ_r 2 (Z.of_nat first)) by lia. lia.
    + lia.
    + intros k Hk. apply Hall. cbn [posts] in Hk. lia.
Qed.

End Backoff.

(** X3.  The exponential backoff of one [_make_request] on a client whose
    limiter has recorded no call, with [MAX_RETRIES >= 1]: when every POST
    is answered 503 the request sleeps [2^(MAX_RETRIES-1) - 1] seconds in
    all (nothing after the last attempt); when every POST is answered 429
    it makes [MAX_RETRIES] POSTs, returns [None], and sleeps
    [2^MAX_RETRIES - 1] seconds, the wait after the last attempt
    included. *)
Theorem make_request_backoff
    (config : Config) (endpoint : nat -> str -> PostResult)
    (prompt : str) (rl : RateLimiter) (w : World) :
  1 <= MAX_RETRIES config ->
  0 < max_calls rl ->
  calls rl = [] ->
  let r := _make_request config endpoint prompt (rl, w) in
  let all_answer (status : Z) :=
    forall k,
      (posts w <= k < posts w + Z.to_nat (MAX_RETRIES config))%nat ->
      exists body, endpoint k prompt = Response status body in
  (all_answer 503 ->
   now r.2.2 = now w + 2 ^ (MAX_RETRIES config - 1) - 1)
  /\ (all_answer 429 ->
      r.1 = Return None
      /\ Z.of_nat (posts r.2.2 - posts w) = MAX_RETRIES config
      /\ now r.2.2 = now w + 2 ^ MAX_RETRIES config - 1).
Proof.
  intros Hretries Hmax Hcalls r all_answer. subst r.
  unfold _make_request. rewrite wait_if_needed_fresh by done.
  unfold range. split; intros Hall.
  - destruct (Z.to_nat (MAX_RETRIES config)) as [|n] eqn:En; [lia|].
    pose proof (request_loop_all_503_backoff config endpoint prompt n 0 w)
      as Hb.
    destruct (request_loop _ _ _ _ w) as [a w'].
    cbn [snd] in *. rewrite Hb; [|lia|done].
    replace (Z.of_nat (0 + n)) with (MAX_RETRIES config - 1) by lia.
    cbn. lia.
  - destruct (request_loop_all_429 config endpoint prompt
                (Z.to_nat (MAX_RETRIES config)) 0 w Hall)
      as (w' & Hloop & Hposts & Hnow).
    rewrite Hloop. cbn [fst snd]. split; [done|]. split; [lia|].
    rewrite Hnow.
    replace (Z.of_nat (0 + Z.to_nat (MAX_RETRIES config)))
      with (MAX_RETRIES config) by lia.
    cbn. lia.
Qed.

(** The witness: three retries, so 1 + 2 seconds for 503 and 1 + 2 + 4 for
    429. *)
Lemma make_request_backoff_witness :
  now (_make_request (mkConfig 3) (fun _ _ => Response 503 Malformed)
         (lit "Hello") (RateLimiter_init 10 60, mkWorld 1000 0)).2.2 = 1003
  /\ now (_make_request (mkConfig 3) (fun _ _ => Response 429 Malformed)
            (lit "Hello") (RateLimiter_init 10 60, mkWorld 1000 0)).2.2 = 1007.
Proof.
  split.
  - apply (make_request_backoff (mkConfig 3)
             (fun _ _ => Response 503 Malformed) (lit "Hello")
             (RateLimiter_init 10 60) (mkWorld 1000 0));
      [by vm_compute..|].
    intros k _. by exists Malformed.
  - apply (make_request_backoff (mkConfig 3)
             (fun _ _ => Response 429 Malformed) (lit "Hello")
             (RateLimiter_init 10 60) (mkWorld 1000 0));
      [by vm_compute..|].
    intros k _. by exists Malformed.
Defined.

(** X4.  While the breaker is OPEN and its recovery timeout has not
    passed, [send_request] returns [None] at once: no POST is made and
    neither the client (breaker, rate limiter) nor the clock changes. *)
Theorem send_request_open_breaker
    (config : Config) (endpoint : nat -> str -> PostResult)
    (c : OpenRouterClient) (prompt : str) (w : World) :
  _state (circuit_breaker c) = OPEN ->
  (forall t, last_failure_time (circuit_breaker c) = Some t ->
             now w - t < recovery_timeout (circuit_breaker c)) ->
  send_request config endpoint c prompt w = (None, c, w).
Proof.
  intros Hst Hel. unfold send_request.
  rewrite call_open_rejects by done.
  by destruct c.
Qed.

(** The witness: a breaker opened at time 1000 with a timeout of 60,
    asked at time 1030. *)
Lemma send_request_open_breaker_witness :
  let c := mkOpenRouterClient (mkCircuitBreaker 5 60 5 (Some 1000) OPEN)
             (RateLimiter_init 10 60) in
  send_request (mkConfig 3) (fun _ _ => Response 200 (Choice (Some (lit "hi"))))
    c (lit "Hello") (mkWorld 1030 0)
  = (None, c, mkWorld 1030 0).
Proof.
  intros c. apply send_request_open_breaker; [done|].
  intros t Ht. injection Ht as <-. by vm_compute.
Defined.

(** ** The rate limiter *)

Lemma within_window_spec (rl : RateLimiter) (t : Z) (cs : list Z) (c : Z) :
  c ∈ within_window rl t cs <-> c ∈ cs /\ t - c < time_window rl.
Proof.
  unfold within_window. rewrite !list_elem_of_In, filter_In.
  by rewrite Z.ltb_lt.
Qed.

Lemma within_window_length (rl : RateLimiter) (t : Z) (cs : list Z) :
  (length (within_window rl t cs) <= length cs)%nat.
Proof.
  unfold within_window. induction cs as [|c cs IH]; simpl; [done|].
  destruct (t - c <? time_window rl); simpl; lia.
Qed.

(** X5.  The rate limiter keeps its bound: on a limiter that holds at most
    [max_calls] recorded calls (a new one holds none), with a positive
    bound and window, [wait_if_needed] returns without raising; afterwards
    the clock has not gone back, the call just made is the last one
    recorded, at most [max_calls] calls are recorded, and every recorded
    call is less than [time_window] seconds old. *)
Theorem wait_if_needed_keeps_bound (rl : RateLimiter) (w : World) :
  0 < max_calls rl ->
  0 < time_window rl ->
  len (calls rl) <= max_calls rl ->
  exists rl' w',
    wait_if_needed rl w = (Return tt, rl', w')
    /\ max_calls rl' = max_calls rl
    /\ time_window rl' = time_window rl
    /\ now w <= now w'
    /\ posts w' = posts w
    /\ last (calls rl') = Some (now w')
    /\ len (calls rl') <= max_calls rl
    /\ (forall c, c ∈ calls rl' -> now w' - c < time_window rl).
Proof.
  intros Hmax Hwin Hlen. unfold wait_if_needed.
  cbn [set_calls max_calls calls time_window].
  pose proof (within_window_length rl (now w) (calls rl)) as Hlen1.
  assert (forall c, c ∈ within_window rl (now w) (calls rl) ->
                    now w - c < time_window rl) as Hin1.
  { intros c Hc. by apply within_window_spec in Hc as [_ ?]. }
  destruct (max_calls rl <=? len (within_window rl (now w) (calls rl)))
    eqn:Hfull.
  - apply Z.leb_le in Hfull.
    destruct (within_window rl (now w) (calls rl)) as [|first cs] eqn:E.
    { unfold len in Hfull. simpl in Hfull. lia. }
    assert (now w - first < time_window rl) as Hfirst
      by (apply Hin1; left).
    replace (0 <? time_window rl - (now w - first)) with true
      by (symmetry; apply Z.ltb_lt; lia).
    eexists _, _. split; [reflexivity|].
    cbn [set_calls max_calls time_window calls now posts sleep].
    set (t' := now w + (time_window rl - (now w - first))).
    assert (forall rl0, time_window rl0 = time_window rl ->
              within_window rl0 t' (first :: cs) = within_window rl t' cs)
      as Hdrop.
    { intros rl0 E0. unfold within_window. rewrite E0. cbn [List.filter].
      by replace (t' - first <? time_window rl) with false
        by (symmetry; apply Z.ltb_ge; subst t'; lia). }
    rewrite !Hdrop by done.
    pose proof (within_window_length rl t' cs) as Hlen2.
    split; [done|]. split; [done|]. split; [lia|]. split; [done|].
    split; [by rewrite last_snoc|]. split.
    + unfold len in *. rewrite length_app. cbn [length] in *. lia.
    + intros c [Hc|Hc]%elem_of_app.
      * by apply within_window_spec in Hc as [_ ?].
      * apply list_elem_of_singleton in Hc as ->. lia.
  - apply Z.leb_gt in Hfull.
    eexists _, _. split; [reflexivity|].
    cbn [set_calls max_calls time_window calls now posts].
    split; [done|]. split; [done|]. split; [lia|]. split; [done|].
    split; [by rewrite last_snoc|]. split.
    + unfold len in *. rewrite length_app. cbn [length]. lia.
    + intros c [Hc|Hc]%elem_of_app.
      * by apply Hin1.
      * apply list_elem_of_singleton in Hc as ->. lia.
Qed.

(** The witness: a limiter of two calls per minute that is full; the
    third call waits until the first is a minute old. *)
Lemma wait_if_needed_keeps_bound_witness :
  exists rl' w',
    wait_if_needed (mkRateLimiter 2 60 [1000; 1010]) (mkWorld 1020 0)
    = (Return tt, rl', w')
    /\ calls rl' = [1010; 1060] /\ now w' = 1060.
Proof.
  destruct (wait_if_needed_keeps_bound (mkRateLimiter 2 60 [1000; 1010])
              (mkWorld 1020 0)) as (rl' & w' & Hcall & _);
    [by vm_compute..|].
  exists rl', w'. split; [exact Hcall|].
  vm_compute in Hcall. by injection Hcall as <- <-.
Defined.

(** ** The circuit breaker, continued *)

Section BreakerMore.

Context {S A : Type} `{Clock S}.
Implicit Types (cb : CircuitBreaker) (func : S -> outcome A * S) (s : S).

(** What a call on a CLOSED breaker does to it. *)
Lemma call_closed_breaker cb func s :
  _state cb = CLOSED ->
  (call cb func s).1.2
  = if raised (call cb func s).1.1
    then (if failure_threshold cb <=? failure_count cb + 1
          then _open_circuit (set_failure_count (failure_count cb + 1) cb)
                 (call cb func s).2
          else set_failure_count (failure_count cb + 1) cb)
    else cb.
Proof.
  intros Hst. rewrite call_closed by done.
  by destruct (func s) as [[v|e] s1].
Qed.

Lemma call_each_accumulates (steps : list ((S -> outcome A * S) * S)) cb :
  _state cb = CLOSED ->
  failure_count cb
    + len (List.filter raised (call_each cb steps).1) < failure_threshold cb ->
  _state (call_each cb steps).2 = CLOSED
  /\ failure_count (call_each cb steps).2
     = failure_count cb + len (List.filter raised (call_each cb steps).1)
  /\ failure_threshold (call_each cb steps).2 = failure_threshold cb.
Proof.
  revert cb. induction steps as [|[func s] steps IH]; intros cb Hst Hlt.
  - cbn in *. unfold len. cbn. split; [done|]. split; [lia|done].
  - cbn [call_each] in *.
    pose proof (call_closed_breaker cb func s Hst) as Hcb.
    destruct (call cb func s) as [[r cb1] s1]. cbn [fst snd] in Hcb.
    specialize (IH cb1).
    destruct (call_each cb1 steps) as [rs cb2]. cbn [fst snd] in *.
    pose proof (len_nonneg (List.filter raised rs)) as Hrs.
    destruct r as [v|e]; cbn [raised List.filter] in *.
    + subst cb1. by apply IH.
    + assert (len (Raise e :: List.filter raised rs)
              = 1 + len (List.filter raised rs)) as Hlen
        by (unfold len; cbn [length]; lia).
      rewrite Hlen in *.
      replace (failure_threshold cb <=? failure_count cb + 1) with false in Hcb
        by (symmetry; apply Z.leb_gt; lia).
      subst cb1. cbn [set_failure_count _state failure_count failure_threshold]
        in IH.
      destruct IH as (H1 & H2 & H3); [done|lia|].
      split; [done|]. split; [lia|done].
Qed.

End BreakerMore.

(** X6.  After any call, whatever its outcome, the stored state of the
    breaker is CLOSED or OPEN, never HALF_OPEN, and the threshold and the
    timeout are the ones it had: HALF_OPEN lets one call through and is
    left by it. *)
Theorem call_leaves_closed_or_open
    (S A : Type) (clock : Clock S) (cb : CircuitBreaker)
    (func : S -> outcome A * S) (s : S) :
  let cb' := (call cb func s).1.2 in
  _state cb' <> HALF_OPEN
  /\ failure_threshold cb' = failure_threshold cb
  /\ recovery_timeout cb' = recovery_timeout cb.
Proof.
  cbv zeta.
  destruct (_state cb) eqn:Hst.
  - rewrite call_closed by done.
    destruct (func s) as [[v|e] s1]; cbn [fst snd]; [by rewrite Hst|].
    destruct (failure_threshold cb <=? failure_count cb + 1); cbn;
      by rewrite ?Hst.
  - destruct (state_cases cb s) as [E|[_ E]].
    + unfold call. rewrite E, Hst.
      rewrite bool_decide_eq_true_2 by done. cbn. by rewrite Hst.
    + rewrite call_half_open by (by rewrite E). rewrite E.
      by destruct (func s) as [[v|e] s1].
  - rewrite call_half_open by (by rewrite state_not_open by (by rewrite Hst)).
    rewrite state_not_open by (by rewrite Hst).
    by destruct (func s) as [[v|e] s1].
Qed.

(** X7.  In CLOSED a successful call does not reset the failure count:
    over any sequence of calls, successes and failures mixed, that starts
    CLOSED and sees fewer failures than the threshold allows, the breaker
    stays CLOSED and its count is the starting count plus the number of
    failed calls; the next failure that brings the count to the threshold
    opens it, whatever succeeded in between. *)
Theorem closed_failures_accumulate
    (S A : Type) (clock : Clock S) (cb : CircuitBreaker)
    (steps : list ((S -> outcome A * S) * S))
    (func : S -> outcome A * S) (s : S) :
  let failures := len (List.filter raised (call_each cb steps).1) in
  let cb' := (call_each cb steps).2 in
  _state cb = CLOSED ->
  failure_count cb + failures < failure_threshold cb ->
  (_state cb' = CLOSED /\ failure_count cb' = failure_count cb + failures)
  /\ (raised (func s).1 = true ->
      failure_count cb + failures + 1 = failure_threshold cb ->
      _state (call cb' func s).1.2 = OPEN).
Proof.
  intros failures cb' Hst Hlt.
  destruct (call_each_accumulates steps cb Hst Hlt) as (H1 & H2 & H3).
  fold cb' in H1, H2, H3. fold failures in H2.
  split; [done|]. intros Hr Hth.
  rewrite call_closed by done.
  destruct (func s) as [[v|e] s1]; [done|]. cbn [fst snd].
  by replace (failure_threshold cb' <=? failure_count cb' + 1) with true
    by (symmetry; apply Z.leb_le; lia).
Qed.

(** The witness: threshold 2; a failure, three successes, a failure. *)
Lemma closed_failures_accumulate_witness :
  let failing (w : World) := (@Raise unit (OtherException 0), w) in
  let succeeding (w : World) := (Return tt, w) in
  let w := mkWorld 1000 0 in
  let cb' :=
    (call_each (CircuitBreaker_init 2 60)
       [(failing, w); (succeeding, w); (succeeding, w); (succeeding, w)]).2 in
  failure_count cb' = 1 /\ _state (call cb' failing w).1.2 = OPEN.
Proof.
  intros failing succeeding w cb'.
  destruct (closed_failures_accumulate World unit _ (CircuitBreaker_init 2 60)
              [(failing, w); (succeeding, w); (succeeding, w); (succeeding, w)]
              failing w) as [[_ Hcount] Hopen]; [by vm_compute..|].
  split; [exact Hcount|]. apply Hopen; by vm_compute.
Defined.

(** ** The prompt constructor, continued *)

Section PromptMore.

Implicit Types (query chunk s : str) (chunks : list str).

Lemma lstrip_nil_iff s : lstrip s = [] <-> Forall (fun c => isspace c = true) s.
Proof.
  induction s as [|c s IH]; simpl; [by split|].
  destruct (isspace c) eqn:Hc.
  - rewrite IH. split; [by constructor|by inversion 1].
  - split; [done|]. inversion 1; congruence.
Qed.

Lemma lstrip_head s :
  lstrip s = [] \/ exists c t, lstrip s = c :: t /\ isspace c = false.
Proof.
  induction s as [|c s IH]; simpl; [by left|].
  destruct (isspace c) eqn:Hc; [done|]. right. by exists c, s.
Qed.

Lemma lstrip_idemp s : lstrip (lstrip s) = lstrip s.
Proof.
  destruct (lstrip_head s) as [->|(c & t & -> & Hc)]; [done|].
  simpl. by rewrite Hc.
Qed.

(** [s.strip()] is empty exactly when [s] has only whitespace. *)
Lemma strip_nil_iff s : strip s = [] <-> Forall (fun c => isspace c = true) s.
Proof.
  rewrite <- lstrip_nil_iff. split.
  - intros Hs. destruct (lstrip_head s) as [E|(c & t & E & Hc)]; [done|].
    exfalso. apply (strip_nonempty c t Hc).
    unfold strip in *. rewrite E in Hs. simpl. by rewrite Hc.
  - unfold strip. by intros ->.
Qed.

Lemma blank_query_spec query :
  blank_query query = true <-> Forall (fun c => isspace c = true) query.
Proof.
  unfold blank_query. rewrite <- strip_nil_iff.
  destruct query as [|c q]; [done|]. cbn [nonempty negb orb].
  rewrite Z.eqb_eq. unfold len.
  destruct (strip (c :: q)); cbn; split; (done || lia).
Qed.

Lemma nonblank_spec chunk :
  nonblank chunk = true <-> exists c, c ∈ chunk /\ isspace c = false.
Proof.
  unfold nonblank. rewrite andb_true_iff, !nonempty_true.
  split.
  - intros [_ Hs]. rewrite strip_nil_iff in Hs.
    apply not_Forall_Exists in Hs; [|intros c; apply _].
    apply Exists_exists in Hs as (c & Hin & Hc).
    exists c. split; [done|]. by apply not_true_is_false.
  - intros (c & Hin & Hc).
    assert (~ Forall (fun c => isspace c = true) chunk) as Hnot.
    { rewrite Forall_forall. intros Hall. specialize (Hall c Hin). congruence. }
    split.
    + intros ->. by apply elem_of_nil in Hin.
    + by rewrite strip_nil_iff.
Qed.


End PromptMore.

(** X8.  Both prompt constructors raise [ValueError] exactly for the
    queries that consist of whitespace only, the empty query included, and
    return a prompt for every other query, whatever the chunks and the
    bounds. *)
Theorem prompt_constructors_reject_blank_query
    (query : str) (context_chunks : list str)
    (max_context_length : option Z) (max_total_length : Z) :
  let blank := Forall (fun c => isspace c = true) query in
  (blank ->
   construct_prompt query context_chunks max_context_length
     = Raise (ValueError "Query cannot be empty")
   /\ construct_prompt_with_length_management query context_chunks
        max_total_length
      = Raise (ValueError "Query cannot be empty"))
  /\ (~ blank ->
      (exists prompt,
          construct_prompt query context_chunks max_context_length
          = Return prompt)
      /\ (exists prompt,
             construct_prompt_with_length_management query context_chunks
               max_total_length
             = Return prompt)).
Proof.
  cbv zeta. rewrite <- blank_query_spec.
  unfold construct_prompt, construct_prompt_with_length_management.
  destruct (blank_query query); split; try done.
  intros _. split; repeat case_match; by eexists.
Qed.



Section LengthBudget.

Implicit Types (chunk : str) (chunks selected : list str).

Lemma len_app_Z {A} (l k : list A) : len (l ++ k) = len l + len k.
Proof. unfold len. rewrite length_app. lia. Qed.

(** The budget a list of selected chunks takes: the characters and one
    newline each. *)
Lemma join_len selected :
  selected <> [] ->
  len (join [nl] selected)
  = fold_right (fun chunk n => len chunk + 1 + n) 0 selected - 1.
Proof.
  induction selected as [|x [|y l] IH]; [done| |]; intros _.
  - cbn. lia.
  - change (join [nl] (x :: y :: l)) with (x ++ [nl] ++ join [nl] (y :: l)).
    rewrite !len_app_Z, IH by done. cbn [fold_right].
    change (len [nl]) with 1. lia.
Qed.

Lemma slice_to_len chunk (n : Z) : 0 <= n -> len (slice_to chunk n) <= n.
Proof.
  intros Hn. unfold slice_to, len.
  replace (0 <=? n) with true by (symmetry; by apply Z.leb_le).
  rewrite length_take. lia.
Qed.

Lemma rsplit1_head_len (s : str) (c : ascii) : len (rsplit1_head s c) <= len s.
Proof.
  unfold rsplit1_head, len. destruct (rfind_from c s 0); [|lia].
  rewrite length_take. lia.
Qed.

(** The loop never selects more than the budget allows. *)
Lemma select_context_cost remaining_length chunks selected current_length :
  current_length
  = fold_right (fun chunk n => len chunk + 1 + n) 0 selected ->
  current_length <= remaining_length ->
  fold_right (fun chunk n => len chunk + 1 + n) 0
    (select_context remaining_length chunks selected current_length)
  <= remaining_length + 1.
Proof.
  assert (forall l chunk,
             fold_right (fun chunk n => len chunk + 1 + n) 0 (l ++ [chunk])
             = fold_right (fun chunk n => len chunk + 1 + n) 0 l
               + (len chunk + 1)) as Hsnoc.
  { intros l chunk. induction l as [|x l IH]; cbn; lia. }
  revert selected current_length.
  induction chunks as [|chunk chunks IH]; intros selected current_length Hcur Hle;
    cbn [select_context].
  - lia.
  - destruct (negb (nonempty chunk) || negb (nonempty (strip chunk)));
      [by apply IH|].
    destruct (current_length + (len chunk + 1) <=? remaining_length) eqn:Hfit.
    + apply Z.leb_le in Hfit. apply IH; [|done]. rewrite Hsnoc. lia.
    + destruct (100 <? remaining_length - current_length) eqn:Hroom;
        [|by apply IH].
      apply Z.ltb_lt in Hroom. rewrite Hsnoc.
      pose proof (rsplit1_head_len
                    (slice_to chunk (remaining_length - current_length)) " ").
      pose proof (slice_to_len chunk (remaining_length - current_length)).
      lia.
Qed.

Lemma grounded_prompt_len context_text query :
  len (grounded_prompt context_text query)
  = len (base_prompt query) + len context_text.
Proof.
  unfold grounded_prompt, base_prompt. rewrite !len_app_Z. lia.
Qed.

End LengthBudget.

(** X10.  [construct_prompt_with_length_management] on a non-blank query
    returns either the no-context prompt or a grounded prompt that passes
    [validate_prompt_format] and has at most [max_total_length - 500]
    characters: the selected context never exceeds the budget left after
    the template and the 500 characters reserved for the answer. *)
Theorem managed_prompt_within_budget
    (query : str) (context_chunks : list str) (max_total_length : Z) :
  blank_query query = false ->
  exists prompt,
    construct_prompt_with_length_management query context_chunks
      max_total_length = Return prompt
    /\ (prompt = _create_prompt_without_context query
        \/ (validate_prompt_format prompt = true
            /\ len prompt <= max_total_length - 500)).
Proof.
  intros Hq. unfold construct_prompt_with_length_management. rewrite Hq.
  destruct (negb (nonempty context_chunks)); [eexists; split; [done|by left]|].
  set (remaining_length := max_total_length - len (base_prompt query) - 500).
  destruct (remaining_length <=? 0) eqn:Hrem;
    [eexists; split; [done|by left]|].
  apply Z.leb_gt in Hrem.
  pose proof (select_context_cost remaining_length context_chunks [] 0
                eq_refl ltac:(lia)) as Hcost.
  destruct (select_context remaining_length context_chunks [] 0)
    as [|x selected] eqn:Hsel; [eexists; split; [done|by left]|].
  eexists. split; [done|]. right. split; [apply grounded_prompt_valid|].
  rewrite grounded_prompt_len, join_len by done. lia.
Qed.

(** The witness: a total of 1100 characters leaves 191 for the context;
    the chunk of 400 is cut, and the prompt has at most 600 characters. *)
Lemma managed_prompt_within_budget_witness :
  exists prompt,
    construct_prompt_with_length_management (lit "q")
      [mjoin (replicate 80 (lit "word "))] 1100 = Return prompt
    /\ len prompt <= 600.
Proof.
  destruct (managed_prompt_within_budget (lit "q")
              [mjoin (replicate 80 (lit "word "))] 1100)
    as (prompt & Hp & Hcases); [by vm_compute|].
  exists prompt. split; [exact Hp|].
  destruct Hcases as [->|[_ Hlen]]; [by vm_compute|exact Hlen].
Defined.

(** ** The answer validators *)

Section ValidatorFacts.

Implicit Types (answer answer_text line k : str) (chunks lines : list str).

(** Every phrase of the validator is a phrase of [detect_hallucination]. *)
Lemma validator_phrase_abstains answer :
  existsb (fun phrase => contains phrase (lower answer)) validator_phrases
  = true ->
  abstains answer = true.
Proof.
  unfold abstains, validator_phrases, insufficient_context_phrases.
  cbn [existsb]. rewrite !orb_true_iff. tauto.
Qed.

Lemma detect_hallucination_true answer chunks :
  detect_hallucination answer chunks = true ->
  answer <> [] /\ chunks <> [] /\ abstains answer = false
  /\ answer_words_of answer <> ∅
  /\ Qltb (overlap_ratio (answer_words_of answer) (context_words_of chunks))
       (3 # 10) = true.
Proof.
  unfold detect_hallucination.
  fold (abstains answer) (answer_words_of answer) (context_words_of chunks).
  destruct answer as [|a answer]; [done|].
  destruct chunks as [|c chunks]; [done|]. cbn [nonempty negb orb].
  destruct (abstains (a :: answer)); [done|].
  case_bool_decide; [done|].
  destruct (Qltb _ _); done.
Qed.

(** The loop of [validate_answer_format] against the number of lines with
    a given normal form. *)
Lemma repetition_loop_spec lines (line_counts : gmap str Z) :
  (forall k, default 0 (line_counts !! k) <= 3) ->
  repetition_loop lines line_counts = true
  <-> forall k, k <> [] ->
        default 0 (line_counts !! k)
        + len (List.filter (fun l => bool_decide (lower (strip l) = k)) lines)
        <= 3.
Proof.
  revert line_counts.
  induction lines as [|line lines IH]; intros m Hm; cbn [repetition_loop].
  - split; [|done]. intros _ k _. specialize (Hm k).
    unfold len. cbn [List.filter length]. lia.
  - assert (forall k,
              len (List.filter (fun l => bool_decide (lower (strip l) = k))
                     (line :: lines))
              = (if bool_decide (lower (strip line) = k) then 1 else 0)
                + len (List.filter
                         (fun l => bool_decide (lower (strip l) = k)) lines))
      as Hcount.
    { intros k. cbn [List.filter]. case_bool_decide; unfold len; cbn; lia. }
    destruct (lower (strip line)) as [|c0 k0] eqn:Hline; cbn [nonempty].
    + rewrite IH by done. apply forall_proper. intros k.
      apply forall_proper. intros Hk. rewrite Hcount.
      rewrite bool_decide_eq_false_2 by (intros E; by apply Hk).
      by rewrite Z.add_0_l.
    + set (key := c0 :: k0) in *.
      destruct (3 <? _) eqn:Hover.
      * apply Z.ltb_lt in Hover. split; [intros ?; discriminate|].
        intros Hall. specialize (Hall key ltac:(done)). rewrite Hcount in Hall.
        rewrite bool_decide_eq_true_2 in Hall by done.
        pose proof (len_nonneg
          (List.filter (fun l => bool_decide (lower (strip l) = key)) lines)).
        lia.
      * apply Z.ltb_ge in Hover. rewrite IH.
        -- apply forall_proper. intros k. apply forall_proper. intros Hk.
           rewrite Hcount. destruct (decide (key = k)) as [<-|Hne].
           ++ rewrite lookup_insert_eq, bool_decide_eq_true_2 by done.
              cbn [default from_option]. unfold Datatypes.id. lia.
           ++ rewrite lookup_insert_ne, bool_decide_eq_false_2 by done. lia.
        -- intros k. destruct (decide (key = k)) as [<-|Hne].
           ++ rewrite lookup_insert_eq. exact Hover.
           ++ rewrite lookup_insert_ne by done. apply Hm.
Qed.

Lemma context_chunks_format_loop_spec chunks :
  context_chunks_format_loop chunks = true
  <-> forall chunk, chunk ∈ chunks ->
        nonblank chunk = true ->
        len chunk <= 5000 /\ 10 <= count_alnum chunk.
Proof.
  induction chunks as [|x chunks IH]; cbn [context_chunks_format_loop].
  - split; [|done]. intros _ c Hc. by apply elem_of_nil in Hc.
  - assert (negb (nonempty x) || (len (strip x) =? 0) = negb (nonblank x))
      as ->.
    { unfold nonblank. rewrite negb_andb. f_equal.
      unfold len. by destruct (strip x). }
    destruct (nonblank x) eqn:Hx; cbn [negb].
    + destruct (5000 <? len x) eqn:H5.
      { apply Z.ltb_lt in H5. split; [done|]. intros Hall.
        destruct (Hall x) as [? _]; [by left|done|lia]. }
      apply Z.ltb_ge in H5.
      destruct (count_alnum x <? 10) eqn:H10.
      { apply Z.ltb_lt in H10. split; [done|]. intros Hall.
        destruct (Hall x) as [_ ?]; [by left|done|lia]. }
      apply Z.ltb_ge in H10. rewrite IH. split.
      * intros Hall c [->|Hc]%elem_of_cons Hnb; [done|by apply Hall].
      * intros Hall c Hc. apply Hall. by right.
    + rewrite IH. split.
      * intros Hall c [->|Hc]%elem_of_cons Hnb; [congruence|by apply Hall].
      * intros Hall c Hc. apply Hall. by right.
Qed.

End ValidatorFacts.

(** X11.  [validate_no_hallucination] is the negation of
    [detect_hallucination] on every answer and chunk list: its own guards
    (empty inputs, the five abstention phrases) only cover cases in which
    [detect_hallucination] is false as well. *)
Theorem validate_no_hallucination_is_not_detect
    (answer_text : str) (context_chunks : list str) :
  validate_no_hallucination answer_text context_chunks
  = negb (detect_hallucination answer_text context_chunks).
Proof.
  unfold validate_no_hallucination.
  destruct (negb (nonempty answer_text) || negb (nonempty context_chunks))
    eqn:Hempty.
  - unfold detect_hallucination. by rewrite Hempty.
  - destruct (existsb _ validator_phrases) eqn:Hphrase; [|done].
    apply validator_phrase_abstains in Hphrase.
    unfold detect_hallucination. rewrite Hempty.
    fold (abstains answer_text). by rewrite Hphrase.
Qed.

(** X12.  An answer that [detect_hallucination] flags never passes
    [validate_answer_grounding]; and for a non-empty answer without any
    abstention phrase that has a word of four characters, against a
    non-empty chunk list, the two checks are each other's negation. *)
Theorem grounding_excludes_hallucination
    (answer_text : str) (context_chunks : list str) :
  (detect_hallucination answer_text context_chunks = true ->
   validate_answer_grounding answer_text context_chunks = false)
  /\ (answer_text <> [] -> context_chunks <> [] ->
      abstains answer_text = false ->
      answer_words_of answer_text <> ∅ ->
      validate_answer_grounding answer_text context_chunks
      = negb (detect_hallucination answer_text context_chunks)).
Proof.
  assert (answer_text <> [] -> context_chunks <> [] ->
          abstains answer_text = false ->
          answer_words_of answer_text <> ∅ ->
          validate_answer_grounding answer_text context_chunks
          = negb (detect_hallucination answer_text context_chunks)) as Hneg.
  { intros Ha Hc Habs Hw.
    unfold validate_answer_grounding, detect_hallucination.
    apply nonempty_true in Ha, Hc. rewrite Ha, Hc. cbn [negb orb].
    fold (abstains answer_text). rewrite Habs.
    destruct (existsb _ validator_phrases) eqn:Hphrase.
    { apply validator_phrase_abstains in Hphrase. congruence. }
    fold (answer_words_of answer_text).
    rewrite bool_decide_eq_false_2 by done.
    by destruct (Qltb _ _). }
  split; [|exact Hneg].
  intros Hd. pose proof Hd as (Ha & Hc & Habs & Hw & _)%detect_hallucination_true.
  rewrite Hneg by done. by rewrite Hd.
Qed.

(** The witness: the flagged answer of the specification's example. *)
Lemma grounding_excludes_hallucination_witness :
  let answer := lit "Quantum entanglement powers the engine." in
  let chunks := [lit "The cat sat on the mat."] in
  validate_answer_grounding answer chunks = false
  /\ validate_answer_grounding answer chunks
     = negb (detect_hallucination answer chunks).
Proof.
  intros answer chunks.
  destruct (grounding_excludes_hallucination answer chunks) as [Hflag Hneg].
  split.
  - apply Hflag. by vm_compute.
  - apply Hneg; [done|done|by vm_compute|compute_done].
Defined.

(** X13.  [validate_answer_format] accepts an answer exactly when it has a
    character that is not whitespace and either at most 10 lines, or no
    non-blank line that occurs more than 3 times once stripped and
    lower-cased.  In particular repetition is never checked in an answer
    of 10 lines or fewer. *)
Theorem validate_answer_format_spec (answer_text : str) :
  let lines := split_on answer_text nl in
  validate_answer_format answer_text = true
  <-> ~ Forall (fun c => isspace c = true) answer_text
      /\ (len lines <= 10
          \/ forall k, k <> [] ->
               len (List.filter
                      (fun l => bool_decide (lower (strip l) = k)) lines)
               <= 3).
Proof.
  cbv zeta. unfold validate_answer_format.
  rewrite <- blank_query_spec. unfold blank_query.
  destruct (negb (nonempty answer_text) || (len (strip answer_text) =? 0));
    [split; [done|by intros [? _]]|].
  destruct (10 <? len (split_on answer_text nl)) eqn:Hlines.
  - apply Z.ltb_lt in Hlines. rewrite repetition_loop_spec by done.
    split.
    + intros Hall. split; [done|]. right. intros k Hk.
      specialize (Hall k Hk). by rewrite lookup_empty in Hall.
    + intros [_ [?|Hall]]; [lia|]. intros k Hk.
      rewrite lookup_empty. by apply Hall.
  - apply Z.ltb_ge in Hlines. split; [|done]. intros _. split; [done|by left].
Qed.

(** X14.  [validate_context_chunks_format] accepts a chunk list exactly
    when the list is not empty and each of its non-blank chunks has at most
    5000 characters and at least 10 ASCII letters or digits; blank chunks
    are passed over, so a list of blank chunks is accepted. *)
Theorem validate_context_chunks_format_spec (context_chunks : list str) :
  (validate_context_chunks_format context_chunks = true
   <-> context_chunks <> []
       /\ forall chunk, chunk ∈ context_chunks -> nonblank chunk = true ->
            len chunk <= 5000 /\ 10 <= count_alnum chunk)
  /\ (context_chunks <> [] ->
      Forall (fun chunk => nonblank chunk = false) context_chunks ->
      validate_context_chunks_format context_chunks = true).
Proof.
  assert (validate_context_chunks_format context_chunks = true
          <-> context_chunks <> []
              /\ forall chunk, chunk ∈ context_chunks ->
                   nonblank chunk = true ->
                   len chunk <= 5000 /\ 10 <= count_alnum chunk) as Hspec.
  { unfold validate_context_chunks_format.
    destruct context_chunks as [|x l] eqn:E; [by split; [|intros []]|].
    cbn [nonempty negb]. rewrite context_chunks_format_loop_spec.
    split; [done|by intros []]. }
  split; [exact Hspec|].
  intros Hne Hblank. apply Hspec. split; [done|].
  intros chunk Hin Hnb. rewrite Forall_forall in Hblank.
  specialize (Hblank chunk Hin). congruence.
Qed.

(** The witness: two blank chunks. *)
Lemma validate_context_chunks_format_spec_witness :
  validate_context_chunks_format [lit "  "; []] = true.
Proof.
  apply (validate_context_chunks_format_spec [lit "  "; []]); [done|].
  repeat constructor.
Defined.

(** ** The text processor, continued *)

(** ** Fetching and validating a page *)

Section FetchFacts.

Variable server : nat -> str -> GetResult.
Variable page : str.

(** The loop from attempt [j] on, while every GET fails with a
    [RequestException] until the [k]-th one. *)
Lemma fetch_loop_first_page (max_retries : Z) (k n j : nat) (w : Web)
    (html : str) :
  (k < n)%nat -> Z.of_nat (j + n) <= max_retries ->
  (forall i, (i < k)%nat -> server (gets w + i) page = RequestFailed) ->
  server (gets w + k) page = Page html ->
  fetch_loop server page max_retries (map Z.of_nat (seq j n)) w
  = (Return (Some html),
     mkWeb (slept w + 2 ^ Z.of_nat (j + k) - 2 ^ Z.of_nat j)
       (gets w + k + 1)).
Proof.
  revert n j w. induction k as [|k IH]; intros n j w Hk Hn Hfail Hpage.
  - destruct n as [|n]; [lia|]. cbn [seq map fetch_loop].
    rewrite Nat.add_0_r in Hpage. rewrite Hpage.
    rewrite !Nat.add_0_r. f_equal. f_equal; lia.
  - destruct n as [|n]; [lia|]. cbn [seq map fetch_loop].
    pose proof (Hfail 0%nat ltac:(lia)) as H0. rewrite Nat.add_0_r in H0.
    rewrite H0.
    replace (Z.of_nat j <? max_retries - 1) with true
      by (symmetry; apply Z.ltb_lt; lia).
    cbn [slept gets]. rewrite (IH n (Datatypes.S j)); cbn [slept gets].
    + f_equal. f_equal; [|lia].
      replace (Z.of_nat (Datatypes.S j + k)) with (Z.of_nat (j + Datatypes.S k))
        by lia.
      replace (Z.of_nat (Datatypes.S j)) with (Z.of_nat j + 1) by lia.
      rewrite Z.pow_add_r by lia. lia.
    + lia.
    + lia.
    + intros i Hi. rewrite <- (Hfail (Datatypes.S i)) by lia. f_equal. lia.
    + rewrite <- Hpage. f_equal. lia.
Qed.

Lemma fetch_loop_all_failed (max_retries : Z) (n j : nat) (w : Web) :
  (1 <= n)%nat -> Z.of_nat (j + n) = max_retries ->
  (forall i, (i < n)%nat -> server (gets w + i) page = RequestFailed) ->
  fetch_loop server page max_retries (map Z.of_nat (seq j n)) w
  = (Return None,
     mkWeb (slept w + 2 ^ (max_retries - 1) - 2 ^ Z.of_nat j) (gets w + n)).
Proof.
  revert j w. induction n as [|n IH]; intros j w Hn Hmax Hfail; [lia|].
  cbn [seq map fetch_loop].
  pose proof (Hfail 0%nat ltac:(lia)) as H0. rewrite Nat.add_0_r in H0.
  rewrite H0. destruct n as [|n].
  - replace (Z.of_nat j <? max_retries - 1) with false
      by (symmetry; apply Z.ltb_ge; lia).
    f_equal. f_equal; [|lia].
    replace (max_retries - 1) with (Z.of_nat j) by lia. lia.
  - replace (Z.of_nat j <? max_retries - 1) with true
      by (symmetry; apply Z.ltb_lt; lia).
    cbn [slept gets]. rewrite (IH (Datatypes.S j)); cbn [slept gets].
    + f_equal. f_equal; [|lia].
      replace (Z.of_nat (Datatypes.S j)) with (Z.of_nat j + 1) by lia.
      rewrite (Z.pow_add_r _ (Z.of_nat j) 1) by lia. lia.
    + lia.
    + lia.
    + intros i Hi. rewrite <- (Hfail (Datatypes.S i)) by lia. f_equal. lia.
Qed.

(** Whatever the server does, the loop makes at most one GET per attempt
    and only adds to the time slept. *)
Lemma fetch_loop_bounds (max_retries : Z) (attempts : list Z) (w : Web) :
  Forall (fun a => 0 <= a) attempts ->
  let w' := (fetch_loop server page max_retries attempts w).2 in
  (gets w <= gets w' <= gets w + length attempts)%nat
  /\ slept w <= slept w'.
Proof.
  revert w. induction attempts as [|a attempts IH]; intros w Hpos; cbn zeta.
  - cbn. lia.
  - apply Forall_cons in Hpos as [Ha Hpos]. cbn [fetch_loop length].
    destruct (server (gets w) page); cbn [snd gets slept]; try lia.
    destruct (a <? max_retries - 1); cbn [snd gets slept]; [|lia].
    specialize (IH (mkWeb (slept w + 2 ^ a) (Datatypes.S (gets w))) Hpos).
    cbn zeta in IH. cbn [gets slept] in IH.
    pose proof (Z.pow_nonneg 2 a ltac:(lia)). lia.
Qed.

End FetchFacts.

(** X15.  [fetch_html] returns the text of the first response without
    error: when the first [k] GETs fail with a [RequestException] and the
    next one succeeds, with [k] below [max_retries], it returns that page
    after [k + 1] GETs, having slept [1 + 2 + ... + 2^(k-1) = 2^k - 1]
    seconds. *)
Theorem fetch_html_first_page (server : nat -> str -> GetResult)
    (page html : str) (max_retries : Z) (k : nat) (w : Web) :
  Z.of_nat k < max_retries ->
  (forall i, (i < k)%nat -> server (gets w + i)%nat page = RequestFailed) ->
  server (gets w + k)%nat page = Page html ->
  fetch_html server page max_retries w
  = (Return (Some html), mkWeb (slept w + 2 ^ Z.of_nat k - 1) (gets w + k + 1)%nat).
Proof.
  intros Hk Hfail Hpage. unfold fetch_html, range_n.
  rewrite (fetch_loop_first_page server page max_retries k _ 0 w html)
    by (done || lia).
  done.
Qed.

Lemma fetch_html_first_page_witness :
  fetch_html (fun i _ => if (i <? 2)%nat then RequestFailed
                         else Page (lit "<html></html>"))
    (lit "https://example.com/") 3 (mkWeb 0 0)
  = (Return (Some (lit "<html></html>")), mkWeb 3 3).
Proof.
  apply (fetch_html_first_page _ _ _ 3 2 (mkWeb 0 0)).
  - lia.
  - intros i Hi. cbn. by destruct i as [|[|i]]; [| |lia].
  - reflexivity.
Defined.

(** X16.  When every GET fails with a [RequestException], [fetch_html]
    with [max_retries >= 1] returns [None] after exactly [max_retries]
    GETs, having slept [2^(max_retries-1) - 1] seconds: it does not sleep
    after the last failure.  With [max_retries <= 0] it returns [None]
    without any GET.  Whatever the server answers, it never makes more
    than [max_retries] GETs. *)
Theorem fetch_html_all_failed (server : nat -> str -> GetResult)
    (page : str) (max_retries : Z) (w : Web) :
  (1 <= max_retries ->
   (forall i, (i < Z.to_nat max_retries)%nat ->
              server (gets w + i)%nat page = RequestFailed) ->
   fetch_html server page max_retries w
   = (Return None,
      mkWeb (slept w + 2 ^ (max_retries - 1) - 1)
        (gets w + Z.to_nat max_retries)%nat))
  /\ (max_retries <= 0 ->
      fetch_html server page max_retries w = (Return None, w))
  /\ (gets (fetch_html server page max_retries w).2
      <= gets w + Z.to_nat max_retries)%nat.
Proof.
  split; [|split].
  - intros Hmax Hfail. unfold fetch_html, range_n.
    by rewrite (fetch_loop_all_failed server page max_retries _ 0 w)
      by (done || lia).
  - intros Hmax. unfold fetch_html, range_n.
    by replace (Z.to_nat max_retries) with 0%nat by lia.
  - unfold fetch_html, range_n.
    pose proof (fetch_loop_bounds server page max_retries
                  (map Z.of_nat (seq 0 (Z.to_nat max_retries))) w) as Hb.
    cbn zeta in Hb. rewrite length_map, length_seq in Hb.
    apply Hb. apply Forall_map, Forall_forall. intros; cbn; lia.
Qed.

Lemma fetch_html_all_failed_witness :
  fetch_html (fun _ _ => RequestFailed) (lit "https://example.com/") 3
    (mkWeb 0 0)
  = (Return None, mkWeb 3 3)
  /\ fetch_html (fun _ _ => RequestFailed) (lit "https://example.com/") 0
       (mkWeb 0 0)
     = (Return None, mkWeb 0 0).
Proof.
  destruct (fetch_html_all_failed (fun _ _ => RequestFailed)
              (lit "https://example.com/") 3 (mkWeb 0 0)) as [H3 _].
  destruct (fetch_html_all_failed (fun _ _ => RequestFailed)
              (lit "https://example.com/") 0 (mkWeb 0 0)) as (_ & H0 & _).
  split; [apply H3; [lia|done]|apply H0; lia].
Defined.

Section ProcessFacts.

Variable server : nat -> str -> GetResult.
Variable page : str.

(** A page that is returned is the answer to one of the GETs made. *)
Lemma fetch_loop_some (max_retries : Z) (attempts : list Z) (w w' : Web)
    (html : str) :
  fetch_loop server page max_retries attempts w = (Return (Some html), w') ->
  exists k : nat,
    (k < length attempts)%nat
    /\ server (gets w + k) page = Page html
    /\ gets w' = (gets w + k + 1)%nat.
Proof.
  revert w. induction attempts as [|a attempts IH]; intros w; [done|].
  cbn [fetch_loop length].
  destruct (server (gets w) page) as [h| |e] eqn:Hget; [| |done].
  - intros [= -> <-]. exists 0%nat. rewrite Nat.add_0_r. cbn [gets].
    split; [lia|]. split; [done|lia].
  - destruct (a <? max_retries - 1); [|done].
    intros (k & Hk & Hpage & Hgets)%IH. cbn [gets] in Hpage, Hgets.
    exists (Datatypes.S k). split; [lia|]. split; [|lia].
    rewrite <- Hpage. f_equal. lia.
Qed.

End ProcessFacts.

(** X17.  [process_url] returns content only as [extract_content] gave it
    for the non-empty text of a page answered to one of at most three
    GETs, and only content that [validate_content] accepts: it has a
    character that is not whitespace and a word count of at least 10. *)
Theorem process_url_returns_validated
    (extract_content : str -> str -> ContentData)
    (server : nat -> str -> GetResult) (page : str) (w w' : Web)
    (content_data : ContentData) :
  TextProcessor.process_url extract_content server page w
  = (Return (Some content_data), w') ->
  exists (k : nat) (html : str),
    (k < 3)%nat
    /\ server (gets w + k)%nat page = Page html
    /\ gets w' = (gets w + k + 1)%nat
    /\ html <> []
    /\ content_data = extract_content html page
    /\ (exists c, c ∈ cd_content content_data /\ isspace c = false)
    /\ 10 <= cd_word_count content_data.
Proof.
  unfold TextProcessor.process_url.
  destruct (fetch_html server page 3 w) as [[[html|]|e] w1] eqn:Hfetch;
    [|done|done].
  destruct html as [|h html]; [done|]. cbn [nonempty negb].
  destruct (validate_content _) eqn:Hvalid; [|done]. cbn [negb].
  intros [= <- <-].
  apply fetch_loop_some in Hfetch as (k & Hk & Hpage & Hgets).
  exists k, (h :: html). split; [exact Hk|]. split; [done|].
  split; [done|]. split; [done|]. split; [done|].
  unfold validate_content in Hvalid.
  fold (blank_query (cd_content (extract_content (h :: html) page)))
    in Hvalid.
  destruct (blank_query _) eqn:Hblank; [done|].
  destruct (_ <? 10) eqn:Hwords; [done|]. apply Z.ltb_ge in Hwords.
  split; [|done]. apply nonblank_spec.
  unfold blank_query in Hblank. unfold nonblank.
  destruct (cd_content _) as [|c s]; [done|]. cbn [nonempty negb orb] in *.
  apply Z.eqb_neq in Hblank. unfold len in Hblank.
  by destruct (strip (c :: s)).
Qed.

(** The witness: the second GET answers with a page whose content has
    twelve words. *)
Lemma process_url_returns_validated_witness :
  let server (i : nat) (_ : str) :=
    if (i <? 1)%nat then RequestFailed else Page (lit "<p>text</p>") in
  let extract_content (html url : str) :=
    mkContentData (lit "Title") (lit "a b c d e f g h i j k l") 12 url in
  exists (k : nat) (html : str),
    (k < 3)%nat
    /\ server k (lit "u") = Page html
    /\ html <> []
    /\ 10 <= cd_word_count (extract_content html (lit "u")).
Proof.
  intros server extract_content.
  destruct (process_url_returns_validated extract_content server (lit "u")
              (mkWeb 0 0) (mkWeb 1 2)
              (extract_content (lit "<p>text</p>") (lit "u")))
    as (k & html & Hk & Hpage & _ & Hne & _ & _ & Hwords); [reflexivity|].
  exists k, html. split; [exact Hk|]. split; [exact Hpage|].
  split; [exact Hne|]. cbn. lia.
Defined.

Section StripFacts.

Implicit Types (s a b m : str).

Lemma lstrip_length s : (length (lstrip s) <= length s)%nat.
Proof.
  induction s as [|c s IH]; cbn [lstrip length]; [done|].
  destruct (isspace c); cbn [length]; lia.
Qed.

Lemma lstrip_fixed s :
  lstrip s = s <-> forall c, head s = Some c -> isspace c = false.
Proof.
  destruct s as [|c s]; cbn [lstrip head]; [done|].
  destruct (isspace c) eqn:Hc.
  - split.
    + intros E. pose proof (lstrip_length s) as Hlen. rewrite E in Hlen.
      cbn [length] in Hlen. lia.
    + intros H. specialize (H c eq_refl). congruence.
  - split; [|done]. by intros _ ? [= <-].
Qed.

Lemma rstrip_fixed s :
  rstrip s = s <-> forall c, last s = Some c -> isspace c = false.
Proof.
  unfold rstrip. rewrite <- head_reverse, <- lstrip_fixed. split.
  - intros E. rewrite <- E at 2. by rewrite reverse_involutive.
  - intros ->. apply reverse_involutive.
Qed.

Lemma rstrip_length s : (length (rstrip s) <= length s)%nat.
Proof.
  unfold rstrip. rewrite length_reverse.
  pose proof (lstrip_length (reverse s)) as H.
  by rewrite length_reverse in H.
Qed.

Lemma lstrip_same_length s : length (lstrip s) = length s -> lstrip s = s.
Proof.
  destruct s as [|c s]; cbn [lstrip]; [done|].
  destruct (isspace c); [|done].
  pose proof (lstrip_length s). cbn [length]. lia.
Qed.

(** [s.strip()] leaves [s] as it is exactly when [s] neither starts nor
    ends with whitespace. *)
Lemma strip_fixed s :
  strip s = s
  <-> (forall c, head s = Some c -> isspace c = false)
      /\ (forall c, last s = Some c -> isspace c = false).
Proof.
  rewrite <- lstrip_fixed, <- rstrip_fixed. unfold strip. split.
  - intros E.
    assert (lstrip s = s) as El.
    { apply lstrip_same_length.
      pose proof (rstrip_length (lstrip s)) as H1.
      pose proof (lstrip_length s) as H2. rewrite E in H1. lia. }
    split; [done|]. by rewrite El in E.
  - by intros [-> ->].
Qed.

Lemma lstrip_suffix s : exists p, s = p ++ lstrip s.
Proof.
  induction s as [|c s [p IH]]; cbn [lstrip]; [by exists []|].
  destruct (isspace c); [|by exists []].
  exists (c :: p). cbn [app]. by rewrite <- IH.
Qed.

Lemma strip_idemp s : strip (strip s) = strip s.
Proof.
  apply strip_fixed. unfold strip.
  set (y := lstrip s).
  assert (forall c, head y = Some c -> isspace c = false) as Hy.
  { apply lstrip_fixed. apply lstrip_idemp. }
  split.
  - destruct (lstrip_suffix (reverse y)) as [p Hp].
    apply (f_equal reverse) in Hp.
    rewrite reverse_involutive, reverse_app in Hp. fold (rstrip y) in Hp.
    intros c Hc. apply Hy. rewrite Hp.
    destruct (rstrip y); [done|]. by cbn in *.
  - apply rstrip_fixed. unfold rstrip.
    by rewrite reverse_involutive, lstrip_idemp.
Qed.

Lemma strip_fixed_app a m b :
  a <> [] -> b <> [] -> strip a = a -> strip b = b ->
  strip (a ++ m ++ b) = a ++ m ++ b.
Proof.
  intros Ha Hb [Hhead _]%strip_fixed [_ Hlast]%strip_fixed.
  apply strip_fixed. split.
  - intros c Hc. apply Hhead. by destruct a.
  - intros c Hc. apply Hlast. rewrite !last_app in Hc.
    destruct (last b) eqn:E; [done|].
    by apply last_None in E.
Qed.

Lemma strip_fixed_terminators a :
  Forall (fun c => is_terminator c = true) a -> strip a = a.
Proof.
  intros Ha. rewrite Forall_forall in Ha.
  assert (forall c, c ∈ a -> isspace c = false) as Hns.
  { intros c Hc%Ha. unfold is_terminator, isspace in *.
    destruct (code c =? 46)%nat eqn:E1;
      [apply Nat.eqb_eq in E1; by rewrite E1|].
    destruct (code c =? 33)%nat eqn:E2;
      [apply Nat.eqb_eq in E2; by rewrite E2|].
    destruct (code c =? 63)%nat eqn:E3;
      [apply Nat.eqb_eq in E3; by rewrite E3|done]. }
  apply strip_fixed. split; intros c Hc; apply Hns.
  - destruct a; [done|]. injection Hc as ->. by left.
  - by apply last_Some_elem_of.
Qed.

End StripFacts.

(** ** Splitting a sentence and numbering the chunks *)

Section SplitFacts.

Implicit Types (s word sep : str) (words pieces : list str).

Lemma split_ws_from_nonempty s word :
  Forall (fun w => w <> []) (split_ws_from s word).
Proof.
  revert word. induction s as [|c s IH]; intros word; cbn [split_ws_from].
  - destruct word as [|a word]; cbn [nonempty]; [done|].
    repeat constructor. rewrite reverse_cons. by intros []%app_eq_nil.
  - destruct (isspace c); [|done]. apply Forall_app. split; [|done].
    destruct word as [|a word]; cbn [nonempty]; [done|].
    repeat constructor. rewrite reverse_cons. by intros []%app_eq_nil.
Qed.

(** Joining two neighbours first does not change the joined text. *)
Lemma join_glue sep (l t : list str) (a b : str) :
  join sep (l ++ (a ++ sep ++ b) :: t) = join sep (l ++ a :: b :: t).
Proof.
  induction l as [|x l IH].
  - destruct t as [|y t]; cbn [app join]; by rewrite <- ?app_assoc.
  - cbn [app]. destruct l as [|z l]; cbn [app join] in *; by rewrite IH.
Qed.

(** The loop of [_split_long_sentence] when no word exceeds the bound:
    it returns, every piece stays within the bound, and the pieces joined
    by single spaces are the words joined by single spaces. *)
Lemma split_long_sentence_loop (max_chunk_size : Z) words (chunks : list str)
    (current_chunk : str) :
  Forall (fun w => w <> [] /\ len w <= max_chunk_size) words ->
  Forall (fun p => len p <= max_chunk_size) chunks ->
  (current_chunk = [] \/ len current_chunk <= max_chunk_size) ->
  exists chunks' current_chunk',
    for_loop (split_long_sentence_step max_chunk_size) words
      (chunks, current_chunk) = Return (chunks', current_chunk')
    /\ Forall (fun p => len p <= max_chunk_size) chunks'
    /\ (current_chunk' = [] \/ len current_chunk' <= max_chunk_size)
    /\ join (lit " ")
         (chunks' ++ if nonempty current_chunk' then [current_chunk'] else [])
       = join (lit " ")
           (chunks ++ (if nonempty current_chunk then [current_chunk] else [])
              ++ words).
Proof.
  revert chunks current_chunk.
  induction words as [|w words IH]; intros chunks cur Hwords Hchunks Hcur.
  - exists chunks, cur. by rewrite app_nil_r.
  - apply Forall_cons in Hwords as [[Hw Hlen] Hwords].
    cbn [for_loop]. unfold split_long_sentence_step at 2.
    destruct (len cur + len w + 1 <=? max_chunk_size) eqn:Hfit.
    + apply Z.leb_le in Hfit. destruct cur as [|c cur]; cbn [nonempty].
      * cbn [mbind outcome_bind].
        destruct (IH chunks w) as (chunks' & cur' & Heq & ? & ? & Hjoin);
          [done|done|by right|].
        exists chunks', cur'. split; [exact Heq|]. split; [done|]. split; [done|].
        rewrite Hjoin. by destruct w.
      * cbn [mbind outcome_bind].
        destruct (IH chunks ((c :: cur) ++ lit " " ++ w))
          as (chunks' & cur' & Heq & ? & ? & Hjoin); [done|done| |].
        { right. rewrite !len_app_Z. change (len (lit " ")) with 1. lia. }
        exists chunks', cur'. split; [exact Heq|]. split; [done|]. split; [done|].
        rewrite Hjoin. exact (join_glue (lit " ") chunks words (c :: cur) w).
    + apply Z.leb_gt in Hfit. destruct cur as [|c cur]; cbn [nonempty].
      * replace (max_chunk_size <? len w) with false
          by (symmetry; apply Z.ltb_ge; lia).
        cbn [mbind outcome_bind].
        destruct (IH chunks w) as (chunks' & cur' & Heq & ? & ? & Hjoin);
          [done|done|by right|].
        exists chunks', cur'. split; [exact Heq|]. split; [done|]. split; [done|].
        rewrite Hjoin. by destruct w.
      * cbn [mbind outcome_bind].
        destruct (IH (chunks ++ [c :: cur]) w)
          as (chunks' & cur' & Heq & ? & ? & Hjoin); [done| |by right|].
        { apply Forall_app. split; [done|]. constructor; [|done].
          by destruct Hcur. }
        exists chunks', cur'. split; [exact Heq|]. split; [done|]. split; [done|].
        rewrite Hjoin. destruct w; [done|]. cbn [nonempty].
        by rewrite <- !app_assoc.
Qed.

(** The loop returns whenever the bound is not zero. *)
Lemma split_long_sentence_loop_returns (max_chunk_size : Z) words
    (st : list str * str) :
  max_chunk_size <> 0 ->
  exists st', for_loop (split_long_sentence_step max_chunk_size) words st
              = Return st'.
Proof.
  intros Hne. revert st. induction words as [|w words IH]; intros st.
  - by exists st.
  - cbn [for_loop]. destruct st as [chunks cur].
    unfold split_long_sentence_step at 2.
    destruct (_ <=? _), (nonempty cur); cbn [mbind outcome_bind];
      try apply IH.
    destruct (_ <? _); cbn [mbind outcome_bind]; [|apply IH].
    unfold range_step.
    replace (max_chunk_size =? 0) with false
      by (symmetry; by apply Z.eqb_neq).
    cbn [mbind outcome_bind]. apply IH.
Qed.

Lemma _split_long_sentence_returns (sentence : str) (max_chunk_size : Z) :
  max_chunk_size <> 0 ->
  exists pieces, _split_long_sentence sentence max_chunk_size = Return pieces.
Proof.
  intros Hne. unfold _split_long_sentence.
  destruct (_ <=? _); [by eexists|].
  destruct (split_long_sentence_loop_returns max_chunk_size (split sentence)
              ([], []) Hne) as [[chunks cur] Heq].
  match goal with
  | |- context [for_loop ?f ?l ?s] =>
      replace (for_loop f l s) with (Return (chunks, cur)) by (by rewrite <- Heq)
  end.
  cbn [mbind outcome_bind]. by eexists.
Qed.

End SplitFacts.

(** X18.  When no word of the sentence is longer than [max_chunk_size],
    [_split_long_sentence] returns pieces that all respect the bound; and
    for a sentence longer than the bound the pieces, joined by single
    spaces, are the words of the sentence joined by single spaces: no word
    is lost, split or reordered. *)
Theorem split_long_sentence_bounded (sentence : str) (max_chunk_size : Z) :
  Forall (fun w => len w <= max_chunk_size) (split sentence) ->
  exists pieces,
    _split_long_sentence sentence max_chunk_size = Return pieces
    /\ Forall (fun p => len p <= max_chunk_size) pieces
    /\ (max_chunk_size < len sentence ->
        join (lit " ") pieces = join (lit " ") (split sentence)).
Proof.
  intros Hwords. unfold _split_long_sentence.
  destruct (len sentence <=? max_chunk_size) eqn:Hshort.
  - apply Z.leb_le in Hshort. exists [sentence].
    split; [done|]. split; [by repeat constructor|lia].
  - destruct (split_long_sentence_loop max_chunk_size (split sentence) [] [])
      as (chunks & cur & Heq & Hchunks & Hcur & Hjoin); [|done|by left|].
    { pose proof (split_ws_from_nonempty sentence []) as Hne.
      rewrite Forall_forall in Hne, Hwords. apply Forall_forall.
      intros w Hw. split; [by apply Hne|by apply Hwords]. }
    match goal with
    | |- context [for_loop ?f ?l ?s] =>
        replace (for_loop f l s) with (Return (chunks, cur))
          by (by rewrite <- Heq)
    end.
    cbn [mbind outcome_bind]. eexists. split; [done|].
    destruct cur as [|c cur]; cbn [nonempty] in *.
    + rewrite app_nil_r in Hjoin. by split.
    + split; [|done]. apply Forall_app. split; [done|].
      constructor; [|done]. by destruct Hcur.
Qed.

(** The witness: three words of two letters against a bound of 5. *)
Lemma split_long_sentence_bounded_witness :
  exists pieces,
    _split_long_sentence (lit "aa bb  cc") 5 = Return pieces
    /\ Forall (fun p => len p <= 5) pieces
    /\ join (lit " ") pieces = lit "aa bb cc".
Proof.
  destruct (split_long_sentence_bounded (lit "aa bb  cc") 5)
    as (pieces & Hret & Hbound & Hjoin).
  { repeat constructor; by vm_compute. }
  exists pieces. split; [exact Hret|]. split; [exact Hbound|].
  apply Hjoin. by vm_compute.
Defined.

Section ChunkFacts.

Variable hash : str -> Z.
Variable page_url : str.

Lemma re_findall_from_runs (s run : str) :
  Forall (fun c => is_terminator c = true) run ->
  Forall (fun r => r <> [] /\ Forall (fun c => is_terminator c = true) r)
    (re_findall_from s run).
Proof.
  assert (forall run : str,
             Forall (fun c => is_terminator c = true) run ->
             Forall (fun r : str =>
                       r <> [] /\ Forall (fun c => is_terminator c = true) r)
               (if nonempty run then [reverse run] else [])) as Hrun.
  { intros [|c r] Hr; cbn [nonempty]; [done|]. repeat constructor.
    - rewrite reverse_cons. by intros []%app_eq_nil.
    - by apply Forall_reverse. }
  revert run. induction s as [|c s IH]; intros run Hr; cbn [re_findall_from].
  - by apply Hrun.
  - destruct (is_terminator c) eqn:Hc.
    + apply IH. by constructor.
    + apply Forall_app. split; [by apply Hrun|by apply IH].
Qed.

(** The ending appended to a sentence is a run of terminators. *)
Lemma sentence_ending_fixed (text : str) (i : nat) :
  let original_endings := re_findall text in
  let ending :=
    if (i <? length original_endings)%nat
    then nth (Nat.min i (length original_endings - 1)) original_endings []
    else lit "." in
  ending <> [] /\ strip ending = ending.
Proof.
  intros original_endings ending. subst ending.
  destruct (i <? length original_endings)%nat eqn:Hi.
  - apply Nat.ltb_lt in Hi.
    pose proof (re_findall_from_runs text [] ltac:(done)) as Hruns.
    fold (re_findall text) in Hruns. fold original_endings in Hruns.
    rewrite Forall_forall in Hruns.
    destruct (Hruns (nth (Nat.min i (length original_endings - 1))
                       original_endings [])) as [Hne Hterm].
    { apply list_elem_of_In, nth_In. lia. }
    split; [done|by apply strip_fixed_terminators].
  - split; [done|by vm_compute].
Qed.

Lemma emit_ok (body : str) (st : ChunkLoop) :
  chunk_loop_ok hash page_url st ->
  chunk_loop_ok hash page_url (emit hash page_url body (len body) st).
Proof.
  intros (Hnum & Hpos & Hcur). unfold chunk_loop_ok, emit.
  cbn [chunks cur_position current_chunk]. split; [|split; [|done]].
  - intros i c Hi. apply lookup_app_Some in Hi as [Hi|[Hlen Hi]].
    + by apply Hnum.
    + apply list_lookup_singleton_Some in Hi as [Hi <-].
      cbn [position source_url id char_count TextProcessor.text].
      rewrite Hpos. unfold len.
      replace i with (length (chunks st)) by lia. done.
  - rewrite Hpos, len_app_Z. done.
Qed.

Lemma set_current_ok (c : str) (st : ChunkLoop) :
  strip c = c -> chunk_loop_ok hash page_url st ->
  chunk_loop_ok hash page_url (set_current c st).
Proof. intros Hc (Hnum & Hpos & _). by split; [|split]. Qed.

Lemma emit_all_ok (subs : list str) (st : ChunkLoop) :
  chunk_loop_ok hash page_url st ->
  chunk_loop_ok hash page_url
    (fold_left
       (fun st sub_chunk => emit hash page_url sub_chunk (len sub_chunk) st)
       subs st).
Proof.
  revert st. induction subs as [|x subs IH]; intros st Hst; [done|].
  cbn [fold_left]. by apply IH, emit_ok.
Qed.

(** One iteration keeps the numbering and leaves a trimmed buffer; it
    returns whenever the bound is not zero. *)
Lemma chunk_text_step_ok (text : str) (max_chunk_size : Z)
    (sentences : list str) (st : ChunkLoop) (it : nat * str) :
  max_chunk_size <> 0 ->
  chunk_loop_ok hash page_url st ->
  exists st',
    chunk_text_step hash text page_url max_chunk_size sentences st it
    = Return st'
    /\ chunk_loop_ok hash page_url st'.
Proof.
  intros Hne Hst. destruct it as [i raw]. unfold chunk_text_step.
  destruct (strip raw) as [|c0 s0] eqn:Hraw; cbn [nonempty negb];
    [by exists st|].
  assert (strip (c0 :: s0) = c0 :: s0) as Hsentence
    by (rewrite <- Hraw; apply strip_idemp).
  destruct (sentence_ending_fixed text i) as [Hending_ne Hending].
  cbv zeta in Hending_ne, Hending.
  set (ending := if (i <? length (re_findall text))%nat then _ else _) in *.
  set (swe := if _ || _ then _ else c0 :: s0).
  assert (swe <> [] /\ strip swe = swe) as [Hswe_ne Hswe].
  { subst swe. destruct (_ || _); [|done]. split; [done|].
    by apply (strip_fixed_app (c0 :: s0) [] ending). }
  pose proof Hst as (Hnum & Hpos & Hcur).
  destruct (_ <=? max_chunk_size).
  - destruct (current_chunk st) as [|c cur] eqn:Ecur; cbn [nonempty].
    + eexists. split; [done|]. by apply set_current_ok.
    + eexists. split; [done|]. apply set_current_ok; [|done].
      by apply strip_fixed_app.
  - destruct (current_chunk st) as [|c cur] eqn:Ecur; cbn [nonempty].
    + destruct (max_chunk_size <? len swe).
      * destruct (_split_long_sentence_returns swe max_chunk_size Hne)
          as [subs ->].
        cbn [mbind outcome_bind]. eexists. split; [done|].
        by apply emit_all_ok.
      * eexists. split; [done|]. by apply set_current_ok.
    + eexists. split; [done|]. apply set_current_ok; [done|].
      rewrite Hcur. by apply emit_ok.
Qed.

Lemma chunk_text_loop_ok (text : str) (max_chunk_size : Z)
    (sentences : list str) (items : list (nat * str)) (st : ChunkLoop) :
  max_chunk_size <> 0 ->
  chunk_loop_ok hash page_url st ->
  exists st',
    for_loop (chunk_text_step hash text page_url max_chunk_size sentences)
      items st = Return st'
    /\ chunk_loop_ok hash page_url st'.
Proof.
  intros Hne. revert st. induction items as [|it items IH]; intros st Hst.
  - by exists st.
  - cbn [for_loop].
    destruct (chunk_text_step_ok text max_chunk_size sentences st it Hne Hst)
      as (st1 & -> & Hst1).
    cbn [mbind outcome_bind]. by apply IH.
Qed.

End ChunkFacts.

(** X19.  With a bound other than zero [chunk_text] returns, and the
    chunks it returns are numbered in order: the chunk at index [i] has
    position [i], the URL of the page, the id derived from the URL and
    [i], and a [char_count] that is the length of its text. *)
Theorem chunk_text_numbered (hash : str -> Z) (text source_url : str)
    (max_chunk_size : Z) :
  max_chunk_size <> 0 ->
  exists chunks,
    chunk_text hash text source_url max_chunk_size = Return chunks
    /\ numbered hash source_url chunks.
Proof.
  intros Hne. unfold chunk_text.
  destruct (len text <=? max_chunk_size).
  - eexists. split; [done|]. intros [|i] c Hc; [|done].
    injection Hc as <-. done.
  - destruct (chunk_text_loop_ok hash source_url text max_chunk_size
                (re_split text) (enumerate (re_split text))
                (mkChunkLoop [] 0 []) Hne) as (st & -> & Hst).
    { split; [|done]. by intros i c Hc. }
    cbn [mbind outcome_bind]. eexists. split; [done|].
    destruct (nonempty (current_chunk st)); [|apply Hst].
    destruct Hst as (Hnum & Hpos & Hcur). rewrite Hcur.
    by apply emit_ok.
Qed.

(** The witness: two sentences against a bound of 5. *)
Lemma chunk_text_numbered_witness :
  exists chunks,
    chunk_text (fun _ => 7) (lit "Hi. Abcdefghij.") (lit "u") 5
    = Return chunks
    /\ numbered (fun _ => 7) (lit "u") chunks.
Proof. apply (chunk_text_numbered (fun _ => 7)). lia. Defined.

(** ** Storing in batches *)

Section StoreFacts.

Variable sha256_hexdigest : str -> str.

Implicit Types (c : gmap Z PointStruct) (points batch : list PointStruct).

Lemma upsert_app batch1 batch2 c :
  upsert (batch1 ++ batch2) c = upsert batch2 (upsert batch1 c).
Proof. apply fold_left_app. Qed.

(** Upserting the slices one after the other is upserting what they
    cover. *)
Lemma upsert_batches points (batch_size : Z) (n j : nat) c :
  0 < batch_size ->
  fold_left (fun c i => upsert (slice points i (i + batch_size)) c)
    (map (fun k => Z.of_nat k * batch_size) (seq j n)) c
  = upsert (take (n * Z.to_nat batch_size)
              (drop (j * Z.to_nat batch_size) points)) c.
Proof.
  intros Hpos. revert j c. induction n as [|n IH]; intros j c; [done|].
  cbn [seq map fold_left]. rewrite IH. rewrite <- upsert_app. f_equal.
  unfold slice.
  replace (Z.to_nat (Z.of_nat j * batch_size + batch_size
                     - Z.of_nat j * batch_size))
    with (Z.to_nat batch_size) by lia.
  replace (Z.to_nat (Z.of_nat j * batch_size))
    with (j * Z.to_nat batch_size)%nat by nia.
  replace (Datatypes.S j * Z.to_nat batch_size)%nat
    with (j * Z.to_nat batch_size + Z.to_nat batch_size)%nat by lia.
  rewrite <- drop_drop, take_take_drop. f_equal; lia.
Qed.

Lemma range_step_batches points (batch_size : Z) c :
  0 < batch_size ->
  match range_step (len points) batch_size with
  | Raise e => False
  | Return starts =>
      fold_left (fun c i => upsert (slice points i (i + batch_size)) c)
        starts c
      = upsert points c
  end.
Proof.
  intros Hpos. unfold range_step.
  replace (batch_size =? 0) with false by (symmetry; apply Z.eqb_neq; lia).
  replace (0 <? batch_size) with true by (symmetry; apply Z.ltb_lt; lia).
  rewrite upsert_batches by done. rewrite drop_0, take_ge; [done|].
  unfold len.
  pose proof (Z.div_mod (Z.of_nat (length points) + batch_size - 1)
                batch_size ltac:(lia)) as Hdiv.
  pose proof (Z.mod_pos_bound (Z.of_nat (length points) + batch_size - 1)
                batch_size Hpos) as Hmod.
  nia.
Qed.

(** [store_embeddings] with a positive batch size. *)
Lemma store_embeddings_positive c (texts : list str)
    (embeddings : list (list Q)) (metadata_list : list Metadata)
    (batch_size : Z) (skip_duplicates : bool) :
  0 < batch_size ->
  store_embeddings sha256_hexdigest c texts embeddings metadata_list
    batch_size skip_duplicates
  = if negb (length texts =? length embeddings)%nat
       || negb (length texts =? length metadata_list)%nat
    then (Raise (ValueError
                   "texts, embeddings, and metadata_list must have the same length"),
          c)
    else
      match for_loop (prepare_point sha256_hexdigest c skip_duplicates)
              (zip (zip texts embeddings) metadata_list) [] with
      | Raise e => (Raise e, c)
      | Return points => (Return tt, upsert points c)
      end.
Proof.
  intros Hpos. unfold store_embeddings.
  destruct (_ || _); [done|].
  destruct (for_loop _ _ _) as [points|e]; [|done].
  destruct points as [|p points]; [done|]. cbn [nonempty].
  pose proof (range_step_batches (p :: points) batch_size c Hpos) as Hb.
  destruct (range_step _ _); [by rewrite Hb|done].
Qed.

(** A negative batch size gives no batch at all. *)
Lemma range_step_negative (stop step : Z) :
  0 <= stop -> step < 0 -> range_step stop step = Return [].
Proof.
  intros Hstop Hstep. unfold range_step.
  replace (step =? 0) with false by (symmetry; apply Z.eqb_neq; lia).
  replace (0 <? step) with false by (symmetry; apply Z.ltb_ge; lia).
  replace (Z.to_nat ((- stop - step - 1) / - step)) with 0%nat; [done|].
  assert ((- stop - step - 1) / - step <= 0); [|lia].
  destruct (Z.eq_dec stop 0) as [->|Hne].
  - rewrite Z.div_small by lia. lia.
  - assert ((- stop - step - 1) / - step < 1); [|lia].
    apply Z.div_lt_upper_bound; lia.
Qed.

(** The points prepared by the loop sit at the id of their hash, and
    carry the hash of their own text and URL. *)
Lemma prepare_point_ids c (skip_duplicates : bool)
    (items : list (str * list Q * Metadata)) points points' :
  for_loop (prepare_point sha256_hexdigest c skip_duplicates) items points
  = Return points' ->
  Forall (fun p =>
            point_id_of (p_content_hash (payload p)) = Return (point_id p)
            /\ p_content_hash (payload p)
               = _generate_content_hash sha256_hexdigest
                   (p_text (payload p)) (p_url (payload p))) points ->
  Forall (fun p =>
            point_id_of (p_content_hash (payload p)) = Return (point_id p)
            /\ p_content_hash (payload p)
               = _generate_content_hash sha256_hexdigest
                   (p_text (payload p)) (p_url (payload p))) points'.
Proof.
  revert points. induction items as [|[[text embedding] metadata] items IH];
    intros points; cbn [for_loop].
  - by intros [= <-].
  - unfold prepare_point at 2.
    destruct (_ && _); cbn [mbind outcome_bind]; [apply IH|].
    destruct (point_id_of _) as [i|e] eqn:Hid; cbn [mbind outcome_bind];
      [|done].
    intros Hloop Hpoints. apply (IH _ Hloop).
    apply Forall_app. split; [done|]. by repeat constructor.
Qed.

Lemma upsert_lookup batch c (i : Z) (p : PointStruct) :
  upsert batch c !! i = Some p ->
  c !! i = Some p \/ (p ∈ batch /\ point_id p = i).
Proof.
  revert c. induction batch as [|q batch IH]; intros c; cbn [upsert fold_left].
  - by left.
  - intros [Hc|[Hin Hid]]%IH.
    + apply lookup_insert_Some in Hc as [[<- <-]|[_ Hc]].
      * right. split; [by left|done].
      * by left.
    + right. split; [by right|done].
Qed.

(** [store_embeddings] with a negative batch size: the outcome of a
    positive one, and nothing upserted. *)
Lemma store_embeddings_negative c (texts : list str)
    (embeddings : list (list Q)) (metadata_list : list Metadata)
    (batch_size batch_size' : Z) (skip_duplicates : bool) :
  batch_size < 0 -> 0 < batch_size' ->
  store_embeddings sha256_hexdigest c texts embeddings metadata_list
    batch_size skip_duplicates
  = ((store_embeddings sha256_hexdigest c texts embeddings metadata_list
        batch_size' skip_duplicates).1,
     c).
Proof.
  intros Hneg Hpos'.
  rewrite (store_embeddings_positive _ _ _ _ batch_size') by done.
  unfold store_embeddings. destruct (_ || _); [done|].
  destruct (for_loop _ _ _) as [points|e]; [|done].
  destruct points as [|p points]; [done|]. cbn [nonempty].
  by rewrite range_step_negative by (apply len_nonneg || done).
Qed.

End StoreFacts.

(** X20.  The batch size of [store_embeddings] does not change what is
    stored, as long as it is positive: any two positive batch sizes give
    the same outcome and the same collection.  With a negative batch size
    the call reports the same outcome as with a positive one, but upserts
    nothing: the collection is left as it was. *)
Theorem store_embeddings_batch_size (sha256_hexdigest : str -> str)
    (collection : gmap Z PointStruct) (texts : list str)
    (embeddings : list (list Q)) (metadata_list : list Metadata)
    (batch_size batch_size' : Z) (skip_duplicates : bool) :
  0 < batch_size' ->
  (0 < batch_size ->
   store_embeddings sha256_hexdigest collection texts embeddings
     metadata_list batch_size skip_duplicates
   = store_embeddings sha256_hexdigest collection texts embeddings
       metadata_list batch_size' skip_duplicates)
  /\ (batch_size < 0 ->
      store_embeddings sha256_hexdigest collection texts embeddings
        metadata_list batch_size skip_duplicates
      = ((store_embeddings sha256_hexdigest collection texts embeddings
            metadata_list batch_size' skip_duplicates).1,
         collection)).
Proof.
  intros Hpos'. split.
  - intros Hpos. by rewrite !store_embeddings_positive.
  - intros Hneg. by apply store_embeddings_negative.
Qed.

(** The witness: one chunk, stored with batch size 64, 1 and -1 into an
    empty collection. *)
Lemma store_embeddings_batch_size_witness :
  let digest (_ : str) :=
    lit "ba7816bf8f01cfea414140de5dae2223b00361a396177a9cb410ff61f20015ad" in
  let metadata := mkMetadata (Some (lit "u")) None None None None in
  store_embeddings digest ∅ [lit "text"] [[]] [metadata] 64 true
  = store_embeddings digest ∅ [lit "text"] [[]] [metadata] 1 true
  /\ store_embeddings digest ∅ [lit "text"] [[]] [metadata] (-1) true
     = (Return tt, ∅).
Proof.
  intros digest metadata. split.
  - apply (store_embeddings_batch_size digest ∅ [lit "text"] [[]] [metadata]
             64 1 true); lia.
  - destruct (store_embeddings_batch_size digest ∅ [lit "text"] [[]]
                [metadata] (-1) 1 true ltac:(lia)) as [_ Hneg].
    rewrite Hneg by lia. reflexivity.
Defined.

(** X21.  [store_embeddings] keeps every point at the id derived from its
    content hash, whatever the arguments: if that holds of the collection
    before the call it holds after it.  And a point of the collection
    after the call either was there before, or carries the content hash of
    its own text and URL. *)
Theorem store_embeddings_ids (sha256_hexdigest : str -> str)
    (collection : gmap Z PointStruct) (texts : list str)
    (embeddings : list (list Q)) (metadata_list : list Metadata)
    (batch_size : Z) (skip_duplicates : bool) :
  let collection' :=
    (store_embeddings sha256_hexdigest collection texts embeddings
       metadata_list batch_size skip_duplicates).2 in
  (ids_from_hashes collection -> ids_from_hashes collection')
  /\ (forall i p, collection' !! i = Some p ->
        collection !! i = Some p
        \/ p_content_hash (payload p)
           = _generate_content_hash sha256_hexdigest
               (p_text (payload p)) (p_url (payload p))).
Proof.
  intros collection'.
  assert (forall i p, collection' !! i = Some p ->
            collection !! i = Some p
            \/ (point_id_of (p_content_hash (payload p)) = Return i
                /\ p_content_hash (payload p)
                   = _generate_content_hash sha256_hexdigest
                       (p_text (payload p)) (p_url (payload p)))) as Hnew.
  { subst collection'. intros i p.
    destruct (Z.lt_trichotomy batch_size 0) as [Hneg|[->|Hpos]].
    - rewrite (store_embeddings_negative sha256_hexdigest collection texts
                 embeddings metadata_list batch_size 1 skip_duplicates)
        by lia.
      by left.
    - unfold store_embeddings. destruct (_ || _); [by left|].
      destruct (for_loop _ _ _) as [points|e]; [|by left].
      destruct (nonempty points); by left.
    - rewrite store_embeddings_positive by done.
      destruct (_ || _); [by left|].
      destruct (for_loop _ _ _) as [points|e] eqn:Hloop; [|by left].
      cbn [snd]. intros [Hold|[Hin Hid]]%upsert_lookup; [by left|].
      right. apply prepare_point_ids in Hloop; [|done].
      rewrite Forall_forall in Hloop. apply Hloop in Hin. by rewrite <- Hid. }
  split.
  - intros Hinv i p [Hold|[Hid _]]%Hnew; [by apply Hinv|done].
  - intros i p [Hold|[_ Hhash]]%Hnew; [by left|by right].
Qed.

(** The witness: a chunk stored into an empty collection. *)
Lemma store_embeddings_ids_witness :
  let digest (_ : str) :=
    lit "ba7816bf8f01cfea414140de5dae2223b00361a396177a9cb410ff61f20015ad" in
  let metadata := mkMetadata (Some (lit "u")) None None None None in
  ids_from_hashes
    (store_embeddings digest ∅ [lit "text"] [[]] [metadata] 64 true).2.
Proof.
  intros digest metadata.
  apply (store_embeddings_ids digest ∅ [lit "text"] [[]] [metadata] 64 true).
  intros i p Hi. by rewrite lookup_empty in Hi.
Defined.

(** X22.  [store_embedding] does what [store_embeddings] does with the
    one chunk in lists, for every positive batch size: same outcome, same
    collection. *)
Theorem store_embedding_is_singleton_batch (sha256_hexdigest : str -> str)
    (collection : gmap Z PointStruct) (text : str) (embedding : list Q)
    (metadata : Metadata) (batch_size : Z) (skip_duplicates : bool) :
  0 < batch_size ->
  store_embedding sha256_hexdigest collection text embedding metadata
    skip_duplicates
  = store_embeddings sha256_hexdigest collection [text] [embedding]
      [metadata] batch_size skip_duplicates.
Proof.
  intros Hpos. rewrite store_embeddings_positive by done.
  unfold store_embedding.
  cbn [length Nat.eqb negb orb zip zip_with for_loop prepare_point].
  destruct (_ && _); [done|].
  by destruct (point_id_of _).
Qed.

Lemma store_embedding_is_singleton_batch_witness :
  let digest (_ : str) :=
    lit "ba7816bf8f01cfea414140de5dae2223b00361a396177a9cb410ff61f20015ad" in
  let metadata := mkMetadata (Some (lit "u")) None None None None in
  store_embedding digest ∅ (lit "text") [] metadata true
  = store_embeddings digest ∅ [lit "text"] [[]] [metadata] 64 true.
Proof.
  intros digest metadata.
  apply (store_embedding_is_singleton_batch digest ∅ (lit "text") []
           metadata 64 true).
  lia.
Defined.

(** ** The bookkeeping of the pipeline *)

Section IngestMore.

Variable env : Env.

Lemma saved_app (tr1 tr2 : list Event) :
  saved (tr1 ++ tr2) = saved tr1 ++ saved tr2.
Proof. apply omap_app. Qed.

Lemma stored_app (tr1 tr2 : list Event) :
  stored (tr1 ++ tr2) = stored tr1 ++ stored tr2.
Proof. apply omap_app. Qed.

(** What one iteration does to the lists and to the trace. *)
Lemma process_url_fields (st : Loop) (i : nat) (url_data : UrlData) :
  let u := url url_data in
  let r := extract_and_chunk_url env (extractions st) u in
  let st' := process_url env st (i, url_data) in
  cur_processed st' = cur_processed st ++ (if succeeded r then [u] else [])
  /\ cur_failed st' = cur_failed st ++ (if succeeded r then [] else [u])
  /\ newly_processed_urls st'
     = newly_processed_urls st ++ (if succeeded r then [u] else [])
  /\ all_chunks st' = all_chunks st ++ chunks_of r
  /\ extractions st' = Datatypes.S (extractions st)
  /\ saved (trace st')
     = saved (trace st)
       ++ (if (Z.of_nat i + 1) mod 10 =? 0
           then [(cur_processed st', cur_failed st')] else [])
  /\ stored (trace st') = stored (trace st).
Proof.
  cbv zeta. unfold process_url.
  destruct (extract_and_chunk_url env (extractions st) (url url_data))
    as [[[|c cs]|]|e];
    destruct ((Z.of_nat i + 1) mod 10 =? 0);
    cbn [cur_processed cur_failed newly_processed_urls all_chunks
         extractions trace succeeded chunks_of];
    rewrite ?saved_app, ?stored_app, ?app_nil_r; cbn [saved stored omap];
    rewrite ?app_nil_r; done.
Qed.

Lemma loop_fields (entries : list UrlData) (k : nat) (st : Loop) :
  let st' :=
    fold_left (process_url env) (imap (fun i x => ((k + i)%nat, x)) entries)
      st in
  let os := outcomes_from env (extractions st) (map url entries) in
  cur_processed st'
  = cur_processed st ++ map fst (List.filter (fun o => succeeded o.2) os)
  /\ cur_failed st'
     = cur_failed st
       ++ map fst (List.filter (fun o => negb (succeeded o.2)) os)
  /\ newly_processed_urls st'
     = newly_processed_urls st
       ++ map fst (List.filter (fun o => succeeded o.2) os)
  /\ all_chunks st' = all_chunks st ++ concat (map (fun o => chunks_of o.2) os)
  /\ stored (trace st') = stored (trace st)
  /\ length (saved (trace st'))
     = (length (saved (trace st))
        + Z.to_nat ((Z.of_nat k + len entries) / 10 - Z.of_nat k / 10))%nat.
Proof.
  revert k st. induction entries as [|x entries IH]; intros k st; cbv zeta.
  - cbn [imap fold_left map outcomes_from List.filter concat].
    rewrite !app_nil_r. change (len []) with 0. rewrite Z.add_0_r, Z.sub_diag.
    repeat split; lia.
  - rewrite imap_cons. cbn [fold_left map outcomes_from].
    rewrite (imap_ext _ (fun i x => ((Datatypes.S k + i)%nat, x)))
      by (intros; cbn; f_equal; lia).
    rewrite Nat.add_0_r.
    destruct (process_url_fields st k x)
      as (Hp & Hf & Hn & Hc & He & Hs & Hst).
    cbv zeta in *.
    destruct (IH (Datatypes.S k) (process_url env st (k, x)))
      as (IHp & IHf & IHn & IHc & IHst & IHs).
    cbv zeta in *. rewrite He in *.
    rewrite IHp, IHf, IHn, IHc, IHst, IHs, Hp, Hf, Hn, Hc, Hst, Hs.
    cbn [List.filter snd fst map concat].
    destruct (succeeded _); cbn [negb map fst];
      rewrite <- ?app_assoc, ?app_nil_r; cbn [app];
      (split; [done|]); (split; [done|]); (split; [done|]);
      (split; [done|]); (split; [done|]);
      rewrite length_app;
      unfold len; cbn [length];
      (destruct ((Z.of_nat k + 1) mod 10 =? 0) eqn:Hmod;
       [apply Z.eqb_eq in Hmod|apply Z.eqb_neq in Hmod]);
      cbn [length];
      pose proof (Z.div_mod (Z.of_nat k) 10 ltac:(lia));
      pose proof (Z.mod_pos_bound (Z.of_nat k) 10 ltac:(lia));
      pose proof (Z.div_mod (Z.of_nat k + 1) 10 ltac:(lia));
      pose proof (Z.mod_pos_bound (Z.of_nat k + 1) 10 ltac:(lia));
      pose proof (Z.div_le_mono (Z.of_nat k + 1)
                    (Z.of_nat k + Z.of_nat (Datatypes.S (length entries))) 10
                    ltac:(lia) ltac:(lia));
      replace (Z.of_nat (Datatypes.S k)) with (Z.of_nat k + 1) by lia;
      replace (Z.of_nat k + 1 + Z.of_nat (length entries))
        with (Z.of_nat k + Z.of_nat (Datatypes.S (length entries))) by lia;
      lia.
Qed.



End IngestMore.

Section RunFacts.

Variable env : Env.
Variable sitemap_url : option str.
Variable skip_duplicates resume : bool.
Variable entries : list UrlData.

Hypothesis config_ok : config_valid env = true.
Hypothesis sitemap_ok :
  load_sitemap_urls env (target_sitemap_url env sitemap_url) = Return entries.

(** The shape of a run that got its sitemap: the loop over the work list,
    the final checkpoint, and the storage step when there are chunks. *)
Lemma run_cases :
  let p0 := if resume then processed_urls (load_progress env) else [] in
  let f0 := if resume then failed_urls (load_progress env) else [] in
  let todo :=
    if resume
    then List.filter (fun url_data => bool_decide (url url_data ∉ p0)) entries
    else entries in
  let run := run_ingestion_pipeline env sitemap_url skip_duplicates resume in
  exists tr0,
    extracted tr0 = [] /\ saved tr0 = [] /\ stored tr0 = []
    /\ (RemoveCheckpoint ∈ tr0 <-> resume = false /\ checkpoint env <> None)
    /\ let st := fold_left (process_url env)
                   (imap (fun i x => ((0 + i)%nat, x)) todo)
                   (mkLoop [] [] p0 f0 0 tr0) in
       let save := SaveProgress (cur_processed st) (cur_failed st) in
       (all_chunks st = [] /\ run = (Return tt, trace st ++ [save]))
       \/ (all_chunks st <> []
           /\ run = (Return tt,
                     trace st
                       ++ [save; EmbedAndStore (all_chunks st) skip_duplicates]))
       \/ (all_chunks st <> []
           /\ exists e,
               run = (Raise e,
                      trace st
                        ++ [save; EmbedAndStore (all_chunks st) skip_duplicates;
                            save])).
Proof.
  cbv zeta. unfold run_ingestion_pipeline.
  rewrite config_ok, sitemap_ok. cbn [negb].
  destruct resume.
  - exists []. split; [done|]. split; [done|]. split; [done|].
    split; [split; [by intros ?%elem_of_nil|by intros []]|].
    set (st := fold_left _ _ _).
    destruct (all_chunks st) as [|c cs] eqn:Hall; cbn [nonempty negb];
      [by left|].
    right. destruct (embed_and_store env _ skip_duplicates) as [[]|e].
    + left. split; [done|]. by rewrite <- app_assoc.
    + right. split; [done|]. exists e. by rewrite <- app_assoc.
  - exists (match checkpoint env with
            | Some _ => [RemoveCheckpoint]
            | None => []
            end).
    split; [by destruct (checkpoint env)|].
    split; [by destruct (checkpoint env)|].
    split; [by destruct (checkpoint env)|].
    split.
    { destruct (checkpoint env).
      - split; [done|]. intros _. by left.
      - split; [by intros ?%elem_of_nil|by intros [_ ?]]. }
    set (st := fold_left _ _ _).
    destruct (all_chunks st) as [|c cs] eqn:Hall; cbn [nonempty negb];
      [by left|].
    right. destruct (embed_and_store env _ skip_duplicates) as [[]|e].
    + left. split; [done|]. by rewrite <- app_assoc.
    + right. split; [done|]. exists e. by rewrite <- app_assoc.
Qed.

End RunFacts.

(** X23.  The last checkpoint a run writes lists, after the URLs it
    started from (those of the checkpoint file when resuming, none
    otherwise), every URL it attempted, once: under [processed_urls] when
    the extraction returned a non-empty chunk list, under [failed_urls]
    when it returned [None], an empty list or raised.  The failed URLs of
    an earlier run are kept, so a URL that fails again is listed twice. *)
Theorem ingest_final_checkpoint (env : Env) (sitemap_url : option str)
    (skip_duplicates resume : bool) (entries : list UrlData) :
  config_valid env = true ->
  load_sitemap_urls env (target_sitemap_url env sitemap_url) = Return entries ->
  let tr :=
    (run_ingestion_pipeline env sitemap_url skip_duplicates resume).2 in
  let os := outcomes_from env 0 (extracted tr) in
  let p0 := if resume then processed_urls (load_progress env) else [] in
  let f0 := if resume then failed_urls (load_progress env) else [] in
  last (saved tr)
  = Some (p0 ++ map fst (List.filter (fun o => succeeded o.2) os),
          f0 ++ map fst (List.filter (fun o => negb (succeeded o.2)) os)).
Proof.
  intros Hcfg Hload tr os p0 f0.
  destruct (run_cases env sitemap_url skip_duplicates resume entries
              Hcfg Hload) as (tr0 & Hex0 & Hsv0 & Hst0 & _ & Hrun).
  cbv zeta in Hrun. fold p0 f0 in Hrun.
  set (todo := if resume then _ else entries) in Hrun.
  set (st := fold_left _ _ _) in Hrun.
  destruct (loop_fields env todo 0 (mkLoop [] [] p0 f0 0 tr0))
    as (Hp & Hf & _). cbv zeta in Hp, Hf. fold st in Hp, Hf.
  cbn [cur_processed cur_failed extractions] in Hp, Hf.
  assert (extracted (trace st) = map url todo) as Hext.
  { subst st. rewrite loop_extracted. cbn [trace]. rewrite Hex0.
    apply (enumerate_urls todo). }
  assert (extracted tr = map url todo) as Htr.
  { subst tr. rewrite <- Hext.
    destruct Hrun as [[_ ->]|[[_ ->]|[_ [e ->]]]]; cbn [snd];
      rewrite extracted_app; cbn; by rewrite app_nil_r. }
  subst os. rewrite Htr, <- Hp, <- Hf. subst tr.
  destruct Hrun as [[_ ->]|[[_ ->]|[_ [e ->]]]]; cbn [snd];
    rewrite saved_app; cbn [saved omap]; by rewrite last_app.
Qed.

(** The witness: a resumed run over three URLs; the checkpoint lists a
    and, as failed, b; b fails again and c succeeds. *)
Lemma ingest_final_checkpoint_witness :
  let entry u := mkUrlData (lit u) None None None in
  let chunk := mkContentChunk (lit "1") (lit "text") (lit "c") 0 4 in
  let env :=
    mkEnv true (lit "https://example.com/sitemap.xml")
      (fun _ => Return [entry "a"; entry "b"; entry "c"])
      (Some (mkProgress [lit "a"] [lit "b"]))
      (fun k _ => if (k =? 1)%nat then Return (Some [chunk]) else Return None)
      (fun _ _ => Return tt) in
  last (saved (run_ingestion_pipeline env None true true).2)
  = Some ([lit "a"; lit "c"], [lit "b"; lit "b"]).
Proof.
  intros entry chunk env.
  pose proof (ingest_final_checkpoint env None true true
                [entry "a"; entry "b"; entry "c"] eq_refl eq_refl) as H.
  cbv zeta in H. rewrite H. by vm_compute.
Defined.

(** X24.  A run writes a checkpoint after every tenth URL of its work
    list and one after the loop, and one more when embedding or storage
    raises: with [n] URLs attempted that is [n / 10 + 1] checkpoints when
    the run returns and [n / 10 + 2] when it raises. *)
Theorem ingest_checkpoint_count (env : Env) (sitemap_url : option str)
    (skip_duplicates resume : bool) (entries : list UrlData) :
  config_valid env = true ->
  load_sitemap_urls env (target_sitemap_url env sitemap_url) = Return entries ->
  let run := run_ingestion_pipeline env sitemap_url skip_duplicates resume in
  len (saved run.2)
  = len (extracted run.2) / 10 + 1
    + match run.1 with Return _ => 0 | Raise _ => 1 end.
Proof.
  intros Hcfg Hload run.
  destruct (run_cases env sitemap_url skip_duplicates resume entries
              Hcfg Hload) as (tr0 & Hex0 & Hsv0 & Hst0 & _ & Hrun).
  cbv zeta in Hrun. fold run in Hrun.
  set (p0 := if resume then processed_urls (load_progress env) else [])
    in Hrun.
  set (f0 := if resume then failed_urls (load_progress env) else []) in Hrun.
  set (todo := if resume then _ else entries) in Hrun.
  set (st := fold_left _ _ _) in Hrun.
  destruct (loop_fields env todo 0 (mkLoop [] [] p0 f0 0 tr0))
    as (_ & _ & _ & _ & _ & Hcount). cbv zeta in Hcount. fold st in Hcount.
  cbn [trace] in Hcount. rewrite Hsv0 in Hcount. cbn [length] in Hcount.
  assert (len (extracted (trace st)) = len todo) as Hext.
  { subst st. rewrite loop_extracted. cbn [trace]. rewrite Hex0.
    cbn [app]. unfold len. by rewrite length_map, length_imap. }
  pose proof (Z.div_pos (len todo) 10 (len_nonneg todo) ltac:(lia)) as Hpos.
  change (Z.of_nat 0) with 0 in Hcount.
  rewrite Z.add_0_l, Z.sub_0_r in Hcount.
  destruct Hrun as [[_ ->]|[[_ ->]|[_ [e ->]]]]; cbn [fst snd];
    rewrite saved_app, extracted_app; cbn [saved extracted omap list_omap];
    rewrite app_nil_r; unfold len in *; rewrite length_app, Hcount, Hext;
    cbn [length]; lia.
Qed.

(** The witness: a fresh run over twelve URLs, none of which can be
    extracted, writes two checkpoints. *)
Lemma ingest_checkpoint_count_witness :
  let entry := mkUrlData (lit "u") None None None in
  let env :=
    mkEnv true (lit "https://example.com/sitemap.xml")
      (fun _ => Return (replicate 12 entry)) None
      (fun _ _ => Return None) (fun _ _ => Return tt) in
  len (saved (run_ingestion_pipeline env None true false).2) = 2.
Proof.
  intros entry env.
  pose proof (ingest_checkpoint_count env None true false
                (replicate 12 entry) eq_refl eq_refl) as H.
  cbv zeta in H. rewrite H. by vm_compute.
Defined.

(** X25.  Embedding and storage are invoked at most once in a run, with
    the chunks of all URLs in the order of extraction; when no URL gave a
    chunk they are not invoked at all. *)
Theorem ingest_stores_once (env : Env) (sitemap_url : option str)
    (skip_duplicates resume : bool) (entries : list UrlData) :
  config_valid env = true ->
  load_sitemap_urls env (target_sitemap_url env sitemap_url) = Return entries ->
  let tr :=
    (run_ingestion_pipeline env sitemap_url skip_duplicates resume).2 in
  let all_chunks :=
    concat (map (fun o => chunks_of o.2)
              (outcomes_from env 0 (extracted tr))) in
  stored tr = (if nonempty all_chunks then [all_chunks] else []).
Proof.
  intros Hcfg Hload tr all.
  destruct (run_cases env sitemap_url skip_duplicates resume entries
              Hcfg Hload) as (tr0 & Hex0 & Hsv0 & Hst0 & _ & Hrun).
  cbv zeta in Hrun.
  set (p0 := if resume then processed_urls (load_progress env) else [])
    in Hrun.
  set (f0 := if resume then failed_urls (load_progress env) else []) in Hrun.
  set (todo := if resume then _ else entries) in Hrun.
  set (st := fold_left _ _ _) in Hrun.
  destruct (loop_fields env todo 0 (mkLoop [] [] p0 f0 0 tr0))
    as (_ & _ & _ & Hc & Hs & _). cbv zeta in Hc, Hs. fold st in Hc, Hs.
  cbn [Ingest.all_chunks extractions trace app] in Hc, Hs.
  assert (extracted (trace st) = map url todo) as Hext.
  { subst st. rewrite loop_extracted. cbn [trace]. rewrite Hex0.
    apply (enumerate_urls todo). }
  assert (extracted tr = map url todo) as Htr.
  { subst tr. rewrite <- Hext.
    destruct Hrun as [[_ ->]|[[_ ->]|[_ [e ->]]]]; cbn [snd];
      rewrite extracted_app; cbn; by rewrite app_nil_r. }
  subst all. rewrite Htr, <- Hc. subst tr.
  destruct Hrun as [[Hall ->]|[[Hall ->]|[Hall [e ->]]]]; cbn [snd];
    rewrite stored_app, Hs, Hst0; cbn [stored omap app].
  - by rewrite Hall.
  - by destruct (Ingest.all_chunks st).
  - by destruct (Ingest.all_chunks st).
Qed.

(** The witness: two URLs, the second of which gives two chunks. *)
Lemma ingest_stores_once_witness :
  let entry u := mkUrlData (lit u) None None None in
  let chunk i := mkContentChunk (lit "1") (lit "text") (lit "b") i 4 in
  let env :=
    mkEnv true (lit "https://example.com/sitemap.xml")
      (fun _ => Return [entry "a"; entry "b"]) None
      (fun k _ => if (k =? 1)%nat then Return (Some [chunk 0; chunk 1])
                  else Return None)
      (fun _ _ => Return tt) in
  stored (run_ingestion_pipeline env None true false).2
  = [[chunk 0; chunk 1]].
Proof.
  intros entry chunk env.
  pose proof (ingest_stores_once env None true false
                [entry "a"; entry "b"] eq_refl eq_refl) as H.
  cbv zeta in H. rewrite H. by vm_compute.
Defined.


